(** * syz-extract: the concurrent constant-extraction pipeline

    A shallow embedding of [sys/syz-extract/extract.go].  The sequential
    helpers ([archList], [createArches], [processArch], [processFile],
    [checkUnsupportedCalls]) are functions.  The goroutines of [main] and
    [worker] form a transition system over a shared store: every transition
    is one statement of one goroutine and emits the events (field writes and
    reads, channel operations, backend calls, printed lines, file-system
    calls) the statement performs. *)

From Stdlib Require Import Ascii String.
From stdpp Require Import base tactics option list sorting gmap strings pretty.

#[local] Set Warnings "-clear-no-such-hyp".

(** ** Strings: Go's [<] on strings and [sort.Strings] *)

(** Go compares strings bytewise and lexicographically, which is what
    [String.leb] computes. *)
Definition str_le (s1 s2 : string) : Prop := String.leb s1 s2 = true.

#[global] Instance str_le_dec s1 s2 : Decision (str_le s1 s2).
Proof. unfold str_le. apply _. Defined.

(** [sort.Strings]: the standard library's sort is known here through its
    contract only (a sorted permutation of its argument); on a total order
    every such function returns the same list, see [sort_Strings_unique]. *)
Definition sort_Strings (l : list string) : list string := merge_sort str_le l.

(** [strings.Split(s, ",")] for a one-byte separator: the pieces between the
    separators, [n+1] of them for [n] separators. *)
Fixpoint split_on (sep : ascii) (s : string) : list string :=
  match s with
  | EmptyString => [EmptyString]
  | String c s' =>
      if Ascii.eqb c sep then EmptyString :: split_on sep s'
      else match split_on sep s' with
           | [] => [String c EmptyString]
           | p :: ps => String c p :: ps
           end
  end.

Definition strings_Split_comma (s : string) : list string := split_on "," s.

Definition nl : string := String (ascii_of_nat 10) EmptyString.

(** ** Data model *)

Definition error := string.

(** [targets.Target]: the two fields this file reads. *)
Record Target := { OS : string; Arch : string }.

(** The static part of [Arch]: what [createArches] fills in and nobody
    changes afterwards.  [files] holds the names of the [File] objects in
    order; the fields workers mutate ([err], [done], and for a file [info],
    [consts], [undeclared], [err], [done]) live in the store. *)
Record ArchT := {
  target : Target;
  sourceDir : string;
  includeDirs : string;
  buildDir : string;
  build : bool;
  files : list string;
}.

(** The command-line flags and [flag.Args()]. *)
Record Flags := {
  flagOS : string;
  flagBuild : bool;
  flagSourceDir : string;
  flagIncludes : string;
  flagBuildDir : string;
  flagArch : string;
  flagArgs : list string;
}.

(** Calls of the error handler [eh]: the position as printed and the message. *)
Definition ErrMsg : Type := string * string.

(** [fmt.Fprintf(errBuf, "%v: %v\n", pos, msg)] for every call of [eh]. *)
Fixpoint errBuf_String (msgs : list ErrMsg) : string :=
  match msgs with
  | [] => ""
  | (pos, msg) :: rest => pos +:+ ": " +:+ msg +:+ nl +:+ errBuf_String rest
  end.

(** The collaborators of the pipeline which live in other packages: the
    parser ([pkg/ast]), the compiler front end ([pkg/compiler]), the target
    registry ([sys/targets]), path handling and the operating system.  The
    pipeline is parametric in all of them. *)
Class Env := {
  (** pkg/ast *)
  Description : Type;
  ast_ParseGlob : string → option Description * list ErrMsg;
  (** pkg/compiler *)
  Meta : Type;
  NoExtract : Meta → bool;
  SupportsArch : Meta → string → bool;
  compiler_FileList : Description → string → option (gmap string Meta) * list ErrMsg;
  ConstInfo : Type;
  Consts : ConstInfo → list string;
  compiler_ExtractConsts : Description → Target → option (gmap string ConstInfo) * list ErrMsg;
  ConstFile : Type;
  compiler_NewConstFile : ConstFile;
  AddArch : ConstFile → string → gmap string Z → gmap string bool → ConstFile;
  Serialize : ConstFile → list Byte.byte;
  (** sys/targets *)
  targets_List : string → gmap string Target;
  targets_Get : string → string → option Target;
  (** path/filepath *)
  filepath_Join : list string → string;
  (** the operating system: temporary directories and files *)
  World : Type;
  ioutil_TempDir : World → string → string → World * (string + error);
  osutil_WriteFile : World → string → list Byte.byte → World * option error;
  os_Remove : World → string → World;
  os_RemoveAll : World → string → World;
  (** the order in which the [range] statements of this execution visit a
      map.  The runtime picks an order anew at every [range].  An execution
      visits [constFiles] and [unsupported] once each; what it computes
      from the maps it may visit more than once ([allFiles], [consts],
      [undeclared]) and from the targets is sorted or a map filled by
      insertions and does not depend on the order ([archList_reorder],
      [archFiles_reorder], [scan_files_reorder]).  So one order for every
      map describes one execution; another execution has another order,
      see [reorder] *)
  range_order : ∀ A, gmap string A → list (string * A);
  range_order_perm : ∀ A (m : gmap string A), range_order A m ≡ₚ map_to_list m;
}.

(** The [Extractor] interface. *)
Record Extractor `{Env} := {
  prepare : string → bool → list ArchT → option error;
  prepareArch : ArchT → option error;
  ext_processFile :
    ArchT → ConstInfo → gmap string Z * gmap string bool * option error;
}.

(** Another execution in the same surroundings: everything is as in [E],
    but the [range] statements visit the maps in the order [ro].  Two
    executions of the program are compared as one in [E] and one in
    [reorder E ro Hro]. *)
Definition reorder (E : Env) (ro : ∀ A, gmap string A → list (string * A))
    (Hro : ∀ A (m : gmap string A), ro A m ≡ₚ map_to_list m) : Env :=
  {| Description := @Description E;
     ast_ParseGlob := @ast_ParseGlob E;
     Meta := @Meta E;
     NoExtract := @NoExtract E;
     SupportsArch := @SupportsArch E;
     compiler_FileList := @compiler_FileList E;
     ConstInfo := @ConstInfo E;
     Consts := @Consts E;
     compiler_ExtractConsts := @compiler_ExtractConsts E;
     ConstFile := @ConstFile E;
     compiler_NewConstFile := @compiler_NewConstFile E;
     AddArch := @AddArch E;
     Serialize := @Serialize E;
     targets_List := @targets_List E;
     targets_Get := @targets_Get E;
     filepath_Join := @filepath_Join E;
     World := @World E;
     ioutil_TempDir := @ioutil_TempDir E;
     osutil_WriteFile := @osutil_WriteFile E;
     os_Remove := @os_Remove E;
     os_RemoveAll := @os_RemoveAll E;
     range_order := ro;
     range_order_perm := Hro |}.

(** The same backend in the other execution. *)
Definition reorder_ext {E : Env} ro Hro (ext : @Extractor E)
    : @Extractor (reorder E ro Hro) :=
  @Build_Extractor (reorder E ro Hro)
    (prepare ext) (prepareArch ext) (ext_processFile ext).

(** ** Jobs, events and the sequential helpers *)

(** What travels through [jobC]: a pointer to an [Arch] (its index in
    [arches]) or to a [File] (the index of its architecture and its index in
    that architecture's [files]). *)
Inductive Job := JArch (a : nat) | JFile (a i : nat).

#[global] Instance Job_eq_dec : EqDecision Job.
Proof. solve_decision. Defined.

(** The mutable fields of [Arch] and [File]. *)
Inductive Field := Ferr | Finfo | Fconsts | Fundeclared.

#[global] Instance Field_eq_dec : EqDecision Field.
Proof. solve_decision. Defined.

Inductive Thread := Main | Worker (w : nat).

#[global] Instance Thread_eq_dec : EqDecision Thread.
Proof. solve_decision. Defined.

(** ** The pipeline of [extract.go] *)
Module Extract.
Section Pipeline.
Context `{E : Env}.

(** Calls of the [Extractor] interface made by workers. *)
Inductive Call :=
| CallPrepareArch (arch : ArchT)
| CallProcessFile (arch : ArchT) (info : ConstInfo).

Inductive Event :=
| EvSend (t : Thread) (j : Job)                    (* jobC <- j *)
| EvRecv (w : nat) (j : Job)                       (* j := <-jobC *)
| EvStore (w : nat) (j : Job) (fld : Field)        (* a worker assigns j.fld *)
| EvLoad (t : Thread) (j : Job) (fld : Field)      (* j.fld is read *)
| EvClose (w : nat) (j : Job)                      (* close(j.done) *)
| EvWait (j : Job)                                 (* <-j.done returns in main *)
| EvCall (w : nat) (c : Call)                      (* a call into the backend *)
| EvPrint (line : string)                          (* fmt.Printf *)
| EvTempDir (dir : string)                         (* ioutil.TempDir returned dir *)
| EvSerialize (file : string)                      (* cf.Serialize() *)
| EvRemove (path : string)                         (* os.Remove *)
| EvWriteFile (path : string) (data : list Byte.byte) (* osutil.WriteFile *)
| EvCheck                                          (* checkUnsupportedCalls is called *)
| EvRemoveAll (dir : string)                       (* os.RemoveAll *)
| EvFatal (msg : string).                          (* tool.Fail / tool.Failf *)

(** ** Setup: the architectures and their files *)

(** [for k := range m]: the keys in the order of the iteration. *)
Definition range_keys {A} (m : gmap string A) : list string :=
  (range_order A m).*1.

(** *** archList *)
Definition archList (os arches : string) : list string :=
  if decide (arches ≠ "") then strings_Split_comma arches
  else sort_Strings (range_keys (targets_List os)).

(** *** createArches *)

(** The file names of one architecture: the explicit list when there is
    one, the discovered files that pass both filters otherwise; sorted. *)
Definition archFiles (allFiles : gmap string Meta) (archStr : string)
    (files : list string) : list string :=
  sort_Strings
    (if decide (length files = 0) then
       files ++ (filter (λ fm, ¬ (NoExtract fm.2 = true ∨ SupportsArch fm.2 archStr = false))
                   (range_order Meta allFiles)).*1
     else files).

(** The body of the loop over [archArray]: the build directory, the
    target, the [Arch] and its files. *)
Definition createArch (fl : Flags) (allFiles : gmap string Meta) (os : string)
    (files : list string) (w : World) (archStr : string)
    : World * list Event * (ArchT + error) :=
  let '(w, evs, dir) :=
    if flagBuild fl then
      match ioutil_TempDir w "" "syzkaller-kernel-build" with
      | (w, inl dir) => (w, [EvTempDir dir], inl dir)
      | (w, inr err) => (w, [], inr ("failed to create temp dir: " +:+ err))
      end
    else if decide (flagBuildDir fl ≠ "") then (w, [], inl (flagBuildDir fl))
    else (w, [], inl (flagSourceDir fl)) in
  match dir with
  | inr err => (w, evs, inr err)
  | inl dir =>
      match targets_Get os archStr with
      | None => (w, evs, inr ("unknown arch: " +:+ archStr))
      | Some t =>
          (w, evs, inl {| target := t;
                          sourceDir := flagSourceDir fl;
                          includeDirs := flagIncludes fl;
                          buildDir := dir;
                          build := flagBuild fl;
                          files := archFiles allFiles archStr files |})
      end
  end.

Fixpoint createArches_loop (fl : Flags) (allFiles : gmap string Meta) (os : string)
    (files : list string) (w : World) (archArray : list string) (arches : list ArchT)
    : World * list Event * (list ArchT + error) :=
  match archArray with
  | [] => (w, [], inl arches)
  | archStr :: rest =>
      match createArch fl allFiles os files w archStr with
      | (w, evs, inr err) => (w, evs, inr err)
      | (w, evs, inl arch) =>
          let '(w, evs', r) :=
            createArches_loop fl allFiles os files w rest (arches ++ [arch]) in
          (w, evs ++ evs', r)
      end
  end.

Definition createArches (fl : Flags) (w : World) (os : string)
    (archArray files : list string) : World * list Event * (list ArchT + error) :=
  let '(top, errs1) := ast_ParseGlob (filepath_Join ["sys"; os; "*.txt"]) in
  match top with
  | None => (w, [], inr (errBuf_String errs1))
  | Some top =>
      let '(allFiles, errs2) := compiler_FileList top os in
      match allFiles with
      | None => (w, [], inr (errBuf_String (errs1 ++ errs2)))
      | Some allFiles => createArches_loop fl allFiles os files w archArray []
      end
  end.

(** The definition files [createArches] discovers: [allFiles]. *)
Definition discovered (os : string) : option (gmap string Meta) :=
  match (ast_ParseGlob (filepath_Join ["sys"; os; "*.txt"])).1 with
  | Some top => (compiler_FileList top os).1
  | None => None
  end.

(** What the loop of [createArches] makes of one requested architecture. *)
Definition created (fl : Flags) (allFiles : gmap string Meta) (os : string)
    (files0 : list string) (archStr : string) (arch : ArchT) : Prop :=
  targets_Get os archStr = Some (target arch) ∧
  files arch = archFiles allFiles archStr files0 ∧
  build arch = flagBuild fl ∧
  sourceDir arch = flagSourceDir fl ∧
  includeDirs arch = flagIncludes fl ∧
  (flagBuild fl = false →
   buildDir arch = if decide (flagBuildDir fl ≠ "") then flagBuildDir fl
                   else flagSourceDir fl).

(** *** processArch *)
Definition processArch (ext : Extractor) (arch : ArchT)
    : list Call * (gmap string ConstInfo * option error) :=
  let '(top, errs1) := ast_ParseGlob (filepath_Join ["sys"; OS (target arch); "*.txt"]) in
  match top with
  | None => ([], (∅, Some (errBuf_String errs1)))
  | Some top =>
      let '(infos, errs2) := compiler_ExtractConsts top (target arch) in
      match infos with
      | None => ([], (∅, Some (errBuf_String (errs1 ++ errs2))))
      | Some infos =>
          match prepareArch ext arch with
          | Some err => ([CallPrepareArch arch], (∅, Some err))
          | None => ([CallPrepareArch arch], (infos, None))
          end
      end
  end.

(** *** processFile *)

(** [name] and [info] are [file.name] and [file.info]. *)
Definition processFile (ext : Extractor) (arch : ArchT) (name : string)
    (info : option ConstInfo)
    : list Call * (gmap string Z * gmap string bool * option error) :=
  let inname := filepath_Join ["sys"; OS (target arch); name] in
  match info with
  | None => ([], (∅, ∅, Some ("const info for input file " +:+ inname +:+ " is missing")))
  | Some info =>
      if decide (length (Consts info) = 0) then ([], (∅, ∅, None))
      else ([CallProcessFile arch info], ext_processFile ext arch info)
  end.

(** *** checkUnsupportedCalls *)

(** What the check reads of a [File]: [name], [consts], [undeclared]. *)
Definition FileView : Type := string * gmap string Z * gmap string bool.

Definition mark_supported (supported : gmap string bool) (f : FileView)
    : gmap string bool :=
  foldl (λ m name, <[name := true]> m) supported (range_keys f.1.2).

Definition mark_unsupported (unsupported : gmap string string) (f : FileView)
    : gmap string string :=
  foldl (λ m name, <[name := f.1.1]> m) unsupported (range_keys f.2).

(** The first pair of loops: both maps after all architectures and files. *)
Definition scan_files (fs : list FileView) : gmap string bool * gmap string string :=
  foldl (λ acc f, (mark_supported acc.1 f, mark_unsupported acc.2 f)) (∅, ∅) fs.

(** The last loop: [failed] and the lines printed. *)
Fixpoint report_unsupported (supported : gmap string bool)
    (l : list (string * string)) : bool * list string :=
  match l with
  | [] => (false, [])
  | (name, file) :: rest =>
      if decide (supported !! name = Some true) then report_unsupported supported rest
      else
        let '(_, lines) := report_unsupported supported rest in
        (true, (file +:+ ": " +:+ name +:+ " is unsupported on all arches (typo?)" +:+ nl) :: lines)
  end.

(** The names of the reported lines, for statements about the report. *)
Fixpoint reported_names (supported : gmap string bool)
    (l : list (string * string)) : list string :=
  match l with
  | [] => []
  | (name, file) :: rest =>
      if decide (supported !! name = Some true) then reported_names supported rest
      else name :: reported_names supported rest
  end.

(** [arches] as the check sees them: the files of every architecture. *)
Definition checkUnsupportedCalls (view : list (list FileView)) : bool * list string :=
  let '(supported, unsupported) := scan_files (concat view) in
  report_unsupported supported (range_order string unsupported).

Definition checkUnsupportedCalls_names (view : list (list FileView)) : list string :=
  let '(supported, unsupported) := scan_files (concat view) in
  reported_names supported (range_order string unsupported).


(** ** The store and the goroutines *)

(** The mutable fields of an [Arch] and of a [File].  [done] is the channel
    of that name, which is only ever closed: [true] once it is. *)
Record ArchObj := { a_err : option error; a_done : bool }.

Record FileObj := {
  f_info : option ConstInfo;
  f_consts : gmap string Z;
  f_undeclared : gmap string bool;
  f_err : option error;
  f_done : bool;
}.

(** [&Arch{...}] and [&File{...}] as [createArches] allocates them. *)
Definition new_Arch : ArchObj := {| a_err := None; a_done := false |}.
Definition new_File : FileObj :=
  {| f_info := None; f_consts := ∅; f_undeclared := ∅; f_err := None; f_done := false |}.

(** Where a worker stands in [worker]; its local variables ride along. *)
Inductive WorkerPc :=
| WRecv                                                    (* for job := range jobC *)
| WArchRun (a : nat)                                       (* processArch(extractor, j) *)
| WArchSetErr (a : nat) (infos : gmap string ConstInfo) (err : option error) (* j.err = err *)
| WArchClose (a : nat) (infos : gmap string ConstInfo)     (* close(j.done) *)
| WArchTest (a : nat) (infos : gmap string ConstInfo)      (* if j.err == nil *)
| WFanInfo (a : nat) (infos : gmap string ConstInfo) (i : nat)  (* f.info = infos[...] *)
| WFanSend (a : nat) (infos : gmap string ConstInfo) (i : nat)  (* jobC <- f *)
| WFileRun (a i : nat)                                     (* processFile(extractor, j.arch, j) *)
| WFileSet (a i : nat) (res : gmap string Z * gmap string bool * option error)
                                                           (* j.consts, j.undeclared, j.err = ... *)
| WFileClose (a i : nat).                                  (* close(j.done) *)

(** Where [main] stands from the collecting loop on. *)
Inductive MainPc :=
| MArch (a : nat)             (* head of the loop over arches; prints "generating" *)
| MWaitArch (a : nat)         (* <-arch.done *)
| MTestArch (a : nat)         (* if arch.err != nil *)
| MFile (a i : nat)           (* head of the loop over arch.files; <-f.done *)
| MTestFile (a i : nat)       (* if f.err != nil ... AddArch *)
| MFinish                     (* the tables, the check, the build directories *)
| MExited (code : Z).         (* the process has ended *)

Record State := {
  jobC : list Job;                       (* the buffer of the channel, oldest first *)
  archObjs : gmap nat ArchObj;
  fileObjs : gmap (nat * nat) FileObj;
  workers : list WorkerPc;
  main_pc : MainPc;
  failed : bool;
  constFiles : gmap string ConstFile;
  world : World;
}.

Definition arch_obj (s : State) (a : nat) : ArchObj :=
  default new_Arch (archObjs s !! a).
Definition file_obj (s : State) (a i : nat) : FileObj :=
  default new_File (fileObjs s !! (a, i)).

Definition job_done (s : State) (j : Job) : bool :=
  match j with
  | JArch a => a_done (arch_obj s a)
  | JFile a i => f_done (file_obj s a i)
  end.

Definition set_jobC (q : list Job) (s : State) : State :=
  {| jobC := q; archObjs := archObjs s; fileObjs := fileObjs s; workers := workers s;
     main_pc := main_pc s; failed := failed s; constFiles := constFiles s;
     world := world s |}.
Definition set_arch (a : nat) (o : ArchObj) (s : State) : State :=
  {| jobC := jobC s; archObjs := <[a := o]> (archObjs s); fileObjs := fileObjs s;
     workers := workers s; main_pc := main_pc s; failed := failed s;
     constFiles := constFiles s; world := world s |}.
Definition set_file (a i : nat) (o : FileObj) (s : State) : State :=
  {| jobC := jobC s; archObjs := archObjs s; fileObjs := <[(a, i) := o]> (fileObjs s);
     workers := workers s; main_pc := main_pc s; failed := failed s;
     constFiles := constFiles s; world := world s |}.
Definition set_worker (w : nat) (pc : WorkerPc) (s : State) : State :=
  {| jobC := jobC s; archObjs := archObjs s; fileObjs := fileObjs s;
     workers := <[w := pc]> (workers s); main_pc := main_pc s; failed := failed s;
     constFiles := constFiles s; world := world s |}.
Definition set_main (pc : MainPc) (s : State) : State :=
  {| jobC := jobC s; archObjs := archObjs s; fileObjs := fileObjs s; workers := workers s;
     main_pc := pc; failed := failed s; constFiles := constFiles s; world := world s |}.
Definition set_failed (b : bool) (s : State) : State :=
  {| jobC := jobC s; archObjs := archObjs s; fileObjs := fileObjs s; workers := workers s;
     main_pc := main_pc s; failed := b; constFiles := constFiles s; world := world s |}.
Definition set_constFiles (m : gmap string ConstFile) (s : State) : State :=
  {| jobC := jobC s; archObjs := archObjs s; fileObjs := fileObjs s; workers := workers s;
     main_pc := main_pc s; failed := failed s; constFiles := m; world := world s |}.
Definition set_world (w : World) (s : State) : State :=
  {| jobC := jobC s; archObjs := archObjs s; fileObjs := fileObjs s; workers := workers s;
     main_pc := main_pc s; failed := failed s; constFiles := constFiles s; world := w |}.

(** ** The transitions *)

Section Machine.
Variable fl : Flags.
Variable ext : Extractor.
Variable arches : list ArchT.

(** [make(chan interface{}, len(arches))] *)
Definition jobC_cap : nat := length arches.

(** One statement of worker [w] standing at [pc].  [None]: the statement
    cannot run in this state, because it blocks (a receive from the empty
    channel, a send to the full one) or because it would panic (closing a
    closed channel; [no_double_close] shows that this never comes up). *)
Definition worker_step (w : nat) (pc : WorkerPc) (s : State)
    : option (WorkerPc * State * list Event) :=
  match pc with
  | WRecv =>
      match jobC s with
      | [] => None
      | j :: q =>
          Some (match j with JArch a => WArchRun a | JFile a i => WFileRun a i end,
                set_jobC q s, [EvRecv w j])
      end
  | WArchRun a =>
      arch ← arches !! a;
      let '(calls, (infos, err)) := processArch ext arch in
      Some (WArchSetErr a infos err, s, EvCall w <$> calls)
  | WArchSetErr a infos err =>
      Some (WArchClose a infos,
            set_arch a {| a_err := err; a_done := a_done (arch_obj s a) |} s,
            [EvStore w (JArch a) Ferr])
  | WArchClose a infos =>
      if a_done (arch_obj s a) then None
      else Some (WArchTest a infos,
                 set_arch a {| a_err := a_err (arch_obj s a); a_done := true |} s,
                 [EvClose w (JArch a)])
  | WArchTest a infos =>
      Some (match a_err (arch_obj s a) with
            | None => WFanInfo a infos 0
            | Some _ => WRecv
            end, s, [EvLoad (Worker w) (JArch a) Ferr])
  | WFanInfo a infos i =>
      arch ← arches !! a;
      match files arch !! i with
      | None => Some (WRecv, s, [])
      | Some name =>
          let f := file_obj s a i in
          Some (WFanSend a infos i,
                set_file a i
                  {| f_info := infos !! filepath_Join ["sys"; OS (target arch); name];
                     f_consts := f_consts f; f_undeclared := f_undeclared f;
                     f_err := f_err f; f_done := f_done f |} s,
                [EvStore w (JFile a i) Finfo])
      end
  | WFanSend a infos i =>
      if decide (length (jobC s) < jobC_cap)
      then Some (WFanInfo a infos (S i), set_jobC (jobC s ++ [JFile a i]) s,
                 [EvSend (Worker w) (JFile a i)])
      else None
  | WFileRun a i =>
      arch ← arches !! a;
      name ← files arch !! i;
      let '(calls, res) := processFile ext arch name (f_info (file_obj s a i)) in
      Some (WFileSet a i res, s,
            EvLoad (Worker w) (JFile a i) Finfo :: (EvCall w <$> calls))
  | WFileSet a i (c, u, e) =>
      let f := file_obj s a i in
      Some (WFileClose a i,
            set_file a i
              {| f_info := f_info f; f_consts := c; f_undeclared := u;
                 f_err := e; f_done := f_done f |} s,
            [EvStore w (JFile a i) Fconsts; EvStore w (JFile a i) Fundeclared;
             EvStore w (JFile a i) Ferr])
  | WFileClose a i =>
      let f := file_obj s a i in
      if f_done f then None
      else Some (WRecv,
                 set_file a i
                   {| f_info := f_info f; f_consts := f_consts f;
                      f_undeclared := f_undeclared f; f_err := f_err f;
                      f_done := true |} s,
                 [EvClose w (JFile a i)])
  end.

(** The loop that writes the [.const] files, over the tables in the order
    of the iteration.  The last component is the message of [tool.Failf]
    when a write fails. *)
Fixpoint save_tables (w : World) (tabs : list (string * ConstFile))
    : World * list Event * option string :=
  match tabs with
  | [] => (w, [], None)
  | (file, cf) :: rest =>
      let outname := filepath_Join ["sys"; flagOS fl; file +:+ ".const"] in
      let data := Serialize cf in
      if decide (length data = 0) then
        let '(w, evs, r) := save_tables (os_Remove w outname) rest in
        (w, EvSerialize file :: EvRemove outname :: evs, r)
      else
        match osutil_WriteFile w outname data with
        | (w, Some err) =>
            (w, [EvSerialize file; EvWriteFile outname data],
             Some ("failed to write output file: " +:+ err))
        | (w, None) =>
            let '(w, evs, r) := save_tables w rest in
            (w, EvSerialize file :: EvWriteFile outname data :: evs, r)
        end
  end.

(** The last loop of [main]: the build directories. *)
Fixpoint remove_buildDirs (w : World) (l : list ArchT) : World * list Event :=
  match l with
  | [] => (w, [])
  | arch :: rest =>
      if build arch then
        let '(w, evs) := remove_buildDirs (os_RemoveAll w (buildDir arch)) rest in
        (w, EvRemoveAll (buildDir arch) :: evs)
      else remove_buildDirs w rest
  end.

(** [arches] as [checkUnsupportedCalls] reads them from the store. *)
Definition file_views (s : State) : list (list FileView) :=
  imap (λ a arch,
          imap (λ i name, (name, f_consts (file_obj s a i),
                           f_undeclared (file_obj s a i)))
               (files arch)) arches.

(** The field reads of [checkUnsupportedCalls]. *)
Definition check_loads : list Event :=
  concat (imap (λ a arch,
                  concat (imap (λ i (_ : string),
                                  [EvLoad Main (JFile a i) Fconsts;
                                   EvLoad Main (JFile a i) Fundeclared])
                               (files arch))) arches).

(** The build directories the last loop removes. *)
Definition build_dirs : list string :=
  buildDir <$> filter (λ arch, build arch = true) arches.

(** The events of the check when it runs. *)
Definition check_events (view : list (list FileView)) : list Event :=
  EvCheck :: check_loads ++ (EvPrint <$> (checkUnsupportedCalls view).2).

(** [main] from the loop over [constFiles] to its end, on what it reads:
    the world, [failed], [constFiles] and the files as the check sees them.
    It yields the world, [failed], the exit code and the events. *)
Definition finish_on (w : World) (failed : bool) (tabs : gmap string ConstFile)
    (view : list (list FileView)) : World * bool * Z * list Event :=
  let '(w1, evs1, fatal) := save_tables w (range_order ConstFile tabs) in
  match fatal with
  | Some msg => (w1, failed, 1%Z, evs1 ++ [EvFatal msg])
  | None =>
      let '(failed2, evs2) :=
        if decide (failed = false ∧ flagArch fl = "") then
          let '(bad, lines) := checkUnsupportedCalls view in
          (bad, EvCheck :: check_loads ++ (EvPrint <$> lines))
        else (failed, []) in
      let '(w2, evs3) := remove_buildDirs w1 arches in
      (w2, failed2, if failed2 then 1%Z else 0%Z, evs1 ++ evs2 ++ evs3)
  end.

Definition finish (s : State) : State * list Event :=
  let '(w, failed2, code, evs) :=
    finish_on (world s) (failed s) (constFiles s) (file_views s) in
  (set_main (MExited code) (set_failed failed2 (set_world w s)), evs).

(** One statement of [main] from the collecting loop on.  [None]: a
    receive from a [done] channel that is still open blocks; an ended
    process does nothing. *)
Definition main_step (s : State) : option (State * list Event) :=
  match main_pc s with
  | MArch a =>
      match arches !! a with
      | None => Some (set_main MFinish s, [])
      | Some arch =>
          Some (set_main (MWaitArch a) s,
                [EvPrint ("generating " +:+ flagOS fl +:+ "/" +:+ Arch (target arch)
                          +:+ "..." +:+ nl)])
      end
  | MWaitArch a =>
      if a_done (arch_obj s a) then Some (set_main (MTestArch a) s, [EvWait (JArch a)])
      else None
  | MTestArch a =>
      match a_err (arch_obj s a) with
      | Some e =>
          Some (set_main (MArch (S a)) (set_failed true s),
                [EvLoad Main (JArch a) Ferr; EvPrint (e +:+ nl)])
      | None => Some (set_main (MFile a 0) s, [EvLoad Main (JArch a) Ferr])
      end
  | MFile a i =>
      arch ← arches !! a;
      match files arch !! i with
      | None => Some (set_main (MArch (S a)) s, [])
      | Some _ =>
          if f_done (file_obj s a i)
          then Some (set_main (MTestFile a i) s, [EvWait (JFile a i)])
          else None
      end
  | MTestFile a i =>
      arch ← arches !! a;
      name ← files arch !! i;
      let f := file_obj s a i in
      match f_err f with
      | Some e =>
          Some (set_main (MFile a (S i)) (set_failed true s),
                [EvLoad Main (JFile a i) Ferr; EvPrint (name +:+ ": " +:+ e +:+ nl)])
      | None =>
          let cf := default compiler_NewConstFile (constFiles s !! name) in
          Some (set_main (MFile a (S i))
                  (set_constFiles
                     (<[name := AddArch cf (Arch (target arch)) (f_consts f)
                                  (f_undeclared f)]> (constFiles s)) s),
                [EvLoad Main (JFile a i) Ferr; EvLoad Main (JFile a i) Fconsts;
                 EvLoad Main (JFile a i) Fundeclared])
      end
  | MFinish => Some (finish s)
  | MExited _ => None
  end.

(** The scheduler picks a goroutine; it runs one statement.  When the
    process has ended no goroutine runs any more. *)
Definition step (t : Thread) (s : State) : option (State * list Event) :=
  match main_pc s with
  | MExited _ => None
  | _ =>
      match t with
      | Main => main_step s
      | Worker w =>
          pc ← workers s !! w;
          '(pc', s', evs) ← worker_step w pc s;
          Some (set_worker w pc' s', evs)
      end
  end.

(** No goroutine can run a statement and [main] has not ended: the Go
    runtime then ends the process ("all goroutines are asleep - deadlock!",
    exit status 2). *)
Definition deadlocked (s : State) : Prop :=
  (∀ code, main_pc s ≠ MExited code) ∧ ∀ t, step t s = None.

(** A run under a schedule: the state reached and the events in order. *)
Fixpoint run (sched : list Thread) (s : State) : option (State * list Event) :=
  match sched with
  | [] => Some (s, [])
  | t :: rest =>
      '(s', evs) ← step t s;
      '(s'', evs') ← run rest s';
      Some (s'', evs ++ evs')
  end.

(** The state in which [main] enters the collecting loop: every
    architecture is in the channel, [procs] workers are at their receive. *)
Definition init_state (procs : nat) (w : World) : State :=
  {| jobC := JArch <$> seq 0 (length arches);
     archObjs := ∅; fileObjs := ∅;
     workers := replicate procs WRecv;
     main_pc := MArch 0; failed := false; constFiles := ∅; world := w |}.

(** *** What the jobs compute, and [main] run on its own

    The backend and the parser are functions, so every job has one result
    whichever worker runs it and whenever.  [seq_main] is [main] from the
    collecting loop on, run alone on these results: it never waits. *)
Definition arch_result (a : nat) : gmap string ConstInfo * option error :=
  match arches !! a with
  | Some arch => (processArch ext arch).2
  | None => (∅, None)
  end.

Definition file_info (a i : nat) : option ConstInfo :=
  arch ← arches !! a;
  name ← files arch !! i;
  (arch_result a).1 !! filepath_Join ["sys"; OS (target arch); name].

Definition file_result (a i : nat) : gmap string Z * gmap string bool * option error :=
  match arches !! a with
  | Some arch =>
      match files arch !! i with
      | Some name => (processFile ext arch name (file_info a i)).2
      | None => (∅, ∅, None)
      end
  | None => (∅, ∅, None)
  end.

(** [failed], [constFiles] and the events of [main] so far. *)
Record Acc := {
  acc_failed : bool;
  acc_tabs : gmap string ConstFile;
  acc_evs : list Event;
}.

Definition acc_emit (evs : list Event) (acc : Acc) : Acc :=
  {| acc_failed := acc_failed acc; acc_tabs := acc_tabs acc;
     acc_evs := acc_evs acc ++ evs |}.

Definition generating (arch : ArchT) : string :=
  "generating " +:+ flagOS fl +:+ "/" +:+ Arch (target arch) +:+ "..." +:+ nl.

(** One round of the loop over [arch.files]. *)
Definition seq_file (a : nat) (arch : ArchT) (acc : Acc) (f : nat * string) : Acc :=
  match (file_result a f.1).2 with
  | Some e =>
      {| acc_failed := true; acc_tabs := acc_tabs acc;
         acc_evs := acc_evs acc ++
           [EvWait (JFile a f.1); EvLoad Main (JFile a f.1) Ferr;
            EvPrint (f.2 +:+ ": " +:+ e +:+ nl)] |}
  | None =>
      {| acc_failed := acc_failed acc;
         acc_tabs :=
           <[f.2 := AddArch (default compiler_NewConstFile (acc_tabs acc !! f.2))
                      (Arch (target arch)) (file_result a f.1).1.1
                      (file_result a f.1).1.2]> (acc_tabs acc);
         acc_evs := acc_evs acc ++
           [EvWait (JFile a f.1); EvLoad Main (JFile a f.1) Ferr;
            EvLoad Main (JFile a f.1) Fconsts;
            EvLoad Main (JFile a f.1) Fundeclared] |}
  end.

(** One round of the loop over [arches]. *)
Definition seq_arch (acc : Acc) (x : nat * ArchT) : Acc :=
  let acc1 :=
    acc_emit [EvPrint (generating x.2); EvWait (JArch x.1);
              EvLoad Main (JArch x.1) Ferr] acc in
  match (arch_result x.1).2 with
  | Some e =>
      {| acc_failed := true; acc_tabs := acc_tabs acc1;
         acc_evs := acc_evs acc1 ++ [EvPrint (e +:+ nl)] |}
  | None => foldl (seq_file x.1 x.2) acc1 (imap pair (files x.2))
  end.

Definition acc0 : Acc := {| acc_failed := false; acc_tabs := ∅; acc_evs := [] |}.

Definition seq_collect : Acc := foldl seq_arch acc0 (imap pair arches).

(** The files as the check sees them once every job has run. *)
Definition ref_views : list (list FileView) :=
  imap (λ a arch,
          imap (λ i name, (name, (file_result a i).1.1, (file_result a i).1.2))
               (files arch)) arches.

Definition seq_main (w : World) : World * Z * list Event :=
  let '(w', _, code, evs) :=
    finish_on w (acc_failed seq_collect) (acc_tabs seq_collect) ref_views in
  (w', code, acc_evs seq_collect ++ evs).

(** The events of the collecting loop spelled out: for every architecture
    the progress line, the wait for its [done] and the read of its [err];
    then its error, or for every file the wait, the read of [err] and the
    error or the reads for [AddArch]. *)
Definition file_events (a : nat) (i : nat) (name : string) : list Event :=
  [EvWait (JFile a i); EvLoad Main (JFile a i) Ferr] ++
  match (file_result a i).2 with
  | Some e => [EvPrint (name +:+ ": " +:+ e +:+ nl)]
  | None => [EvLoad Main (JFile a i) Fconsts; EvLoad Main (JFile a i) Fundeclared]
  end.

Definition arch_events (a : nat) (arch : ArchT) : list Event :=
  [EvPrint (generating arch); EvWait (JArch a); EvLoad Main (JArch a) Ferr] ++
  match (arch_result a).2 with
  | Some e => [EvPrint (e +:+ nl)]
  | None => concat (imap (file_events a) (files arch))
  end.

Definition collect_events : list Event := concat (imap arch_events arches).

(** Some job ends with an error: an architecture, or a file of an
    architecture that ran without error. *)
Definition job_error : Prop :=
  (∃ a arch e, arches !! a = Some arch ∧ (arch_result a).2 = Some e) ∨
  (∃ a arch i name e,
     arches !! a = Some arch ∧ (arch_result a).2 = None ∧
     files arch !! i = Some name ∧ (file_result a i).2 = Some e).

(** The order in which [main] waits: the architectures in the order of
    [arches], each followed by its files in the order of [files] unless it
    failed. *)
Definition drain_order : list Job :=
  concat (imap (λ a arch,
                  JArch a ::
                  match (arch_result a).2 with
                  | Some _ => []
                  | None => imap (λ i (_ : string), JFile a i) (files arch)
                  end) arches).

(** [main] before each of its statements in the collecting loop. *)
Definition acc_at (pc : MainPc) : Acc :=
  match pc with
  | MArch a => foldl seq_arch acc0 (take a (imap pair arches))
  | MWaitArch a =>
      match arches !! a with
      | Some arch =>
          acc_emit [EvPrint (generating arch)]
            (foldl seq_arch acc0 (take a (imap pair arches)))
      | None => acc0
      end
  | MTestArch a =>
      match arches !! a with
      | Some arch =>
          acc_emit [EvPrint (generating arch); EvWait (JArch a)]
            (foldl seq_arch acc0 (take a (imap pair arches)))
      | None => acc0
      end
  | MFile a i =>
      match arches !! a with
      | Some arch =>
          foldl (seq_file a arch)
            (acc_emit [EvPrint (generating arch); EvWait (JArch a);
                       EvLoad Main (JArch a) Ferr]
               (foldl seq_arch acc0 (take a (imap pair arches))))
            (take i (imap pair (files arch)))
      | None => acc0
      end
  | MTestFile a i =>
      match arches !! a with
      | Some arch =>
          acc_emit [EvWait (JFile a i)]
            (foldl (seq_file a arch)
               (acc_emit [EvPrint (generating arch); EvWait (JArch a);
                          EvLoad Main (JArch a) Ferr]
                  (foldl seq_arch acc0 (take a (imap pair arches))))
               (take i (imap pair (files arch))))
      | None => acc0
      end
  | MFinish => seq_collect
  | MExited _ => acc0
  end.

(** The events of [main] among all events. *)
Definition main_event (e : Event) : bool :=
  match e with
  | EvLoad Main _ _ | EvWait _ | EvPrint _ | EvTempDir _ | EvSerialize _
  | EvRemove _ | EvWriteFile _ _ | EvCheck | EvRemoveAll _ | EvFatal _ => true
  | _ => false
  end.

(** Projections of a list of events: the jobs waited for, the lines
    printed, the directories created and removed, the events of the loop
    over [constFiles], and what follows the call of the check. *)
Definition waits (tr : list Event) : list Job :=
  omap (λ e, match e with EvWait j => Some j | _ => None end) tr.

Definition prints (tr : list Event) : list string :=
  omap (λ e, match e with EvPrint l => Some l | _ => None end) tr.

Definition fatals (tr : list Event) : list string :=
  omap (λ e, match e with EvFatal msg => Some msg | _ => None end) tr.

Definition created_dirs (tr : list Event) : list string :=
  omap (λ e, match e with EvTempDir d => Some d | _ => None end) tr.

Definition removed_dirs (tr : list Event) : list string :=
  omap (λ e, match e with EvRemoveAll d => Some d | _ => None end) tr.

(** The files written: the path and the bytes of every [osutil.WriteFile]. *)
Definition writes (tr : list Event) : list (string * list Byte.byte) :=
  omap (λ e, match e with EvWriteFile p d => Some (p, d) | _ => None end) tr.

(** What the loop over [constFiles] does with one table: the path and the
    bytes it writes, or nothing when the serialization is empty (the file
    is removed). *)
Definition table_write (t : string * ConstFile) : option (string * list Byte.byte) :=
  if decide (length (Serialize t.2) = 0) then None
  else Some (filepath_Join ["sys"; flagOS fl; t.1 +:+ ".const"], Serialize t.2).

(** The writes of the loop over the tables [tabs] when none fails, in the
    order of the keys; an execution makes them in the order of its own
    iteration. *)
Definition table_writes (tabs : gmap string ConstFile)
    : list (string * list Byte.byte) :=
  omap table_write (map_to_list tabs).

Definition table_event (e : Event) : bool :=
  match e with
  | EvSerialize _ | EvRemove _ | EvWriteFile _ _ => true
  | _ => false
  end.

Definition table_events (tr : list Event) : list Event :=
  filter (λ e, table_event e = true) tr.

Fixpoint after_check (tr : list Event) : list Event :=
  match tr with
  | [] => []
  | EvCheck :: rest => rest
  | _ :: rest => after_check rest
  end.

(** What the loop over [constFiles] does with one table. *)
Definition save_one (file : string) (cf : ConstFile) : list Event :=
  let outname := filepath_Join ["sys"; flagOS fl; file +:+ ".const"] in
  [EvSerialize file;
   if decide (length (Serialize cf) = 0) then EvRemove outname
   else EvWriteFile outname (Serialize cf)].

(** The events that concern no job. *)
Definition io_event (e : Event) : bool :=
  match e with
  | EvPrint _ | EvTempDir _ | EvSerialize _ | EvRemove _ | EvWriteFile _ _
  | EvCheck | EvRemoveAll _ | EvFatal _ => true
  | _ => false
  end.

Definition main_events (tr : list Event) : list Event :=
  filter (λ e, main_event e = true) tr.

(** *** The transitions as relations

    [wstep] and [mstep] list the cases of [worker_step] and [main_step];
    [worker_step_wstep] and [main_step_mstep] relate them. *)
Definition start_job (j : Job) : WorkerPc :=
  match j with JArch a => WArchRun a | JFile a i => WFileRun a i end.

Inductive wstep (w : nat) (s : State)
    : WorkerPc → WorkerPc → State → list Event → Prop :=
| ws_recv j q :
    jobC s = j :: q →
    wstep w s WRecv (start_job j) (set_jobC q s) [EvRecv w j]
| ws_arch_run a arch :
    arches !! a = Some arch →
    wstep w s (WArchRun a)
      (WArchSetErr a (processArch ext arch).2.1 (processArch ext arch).2.2) s
      (EvCall w <$> (processArch ext arch).1)
| ws_arch_err a infos err :
    wstep w s (WArchSetErr a infos err) (WArchClose a infos)
      (set_arch a {| a_err := err; a_done := a_done (arch_obj s a) |} s)
      [EvStore w (JArch a) Ferr]
| ws_arch_close a infos :
    a_done (arch_obj s a) = false →
    wstep w s (WArchClose a infos) (WArchTest a infos)
      (set_arch a {| a_err := a_err (arch_obj s a); a_done := true |} s)
      [EvClose w (JArch a)]
| ws_arch_ok a infos :
    a_err (arch_obj s a) = None →
    wstep w s (WArchTest a infos) (WFanInfo a infos 0) s
      [EvLoad (Worker w) (JArch a) Ferr]
| ws_arch_failed a infos e :
    a_err (arch_obj s a) = Some e →
    wstep w s (WArchTest a infos) WRecv s [EvLoad (Worker w) (JArch a) Ferr]
| ws_fan_end a infos i arch :
    arches !! a = Some arch → files arch !! i = None →
    wstep w s (WFanInfo a infos i) WRecv s []
| ws_fan_info a infos i arch name :
    arches !! a = Some arch → files arch !! i = Some name →
    wstep w s (WFanInfo a infos i) (WFanSend a infos i)
      (set_file a i
         {| f_info := infos !! filepath_Join ["sys"; OS (target arch); name];
            f_consts := f_consts (file_obj s a i);
            f_undeclared := f_undeclared (file_obj s a i);
            f_err := f_err (file_obj s a i);
            f_done := f_done (file_obj s a i) |} s)
      [EvStore w (JFile a i) Finfo]
| ws_fan_send a infos i :
    length (jobC s) < jobC_cap →
    wstep w s (WFanSend a infos i) (WFanInfo a infos (S i))
      (set_jobC (jobC s ++ [JFile a i]) s) [EvSend (Worker w) (JFile a i)]
| ws_file_run a i arch name :
    arches !! a = Some arch → files arch !! i = Some name →
    wstep w s (WFileRun a i)
      (WFileSet a i (processFile ext arch name (f_info (file_obj s a i))).2) s
      (EvLoad (Worker w) (JFile a i) Finfo
       :: (EvCall w <$> (processFile ext arch name (f_info (file_obj s a i))).1))
| ws_file_set a i c u e :
    wstep w s (WFileSet a i (c, u, e)) (WFileClose a i)
      (set_file a i
         {| f_info := f_info (file_obj s a i); f_consts := c; f_undeclared := u;
            f_err := e; f_done := f_done (file_obj s a i) |} s)
      [EvStore w (JFile a i) Fconsts; EvStore w (JFile a i) Fundeclared;
       EvStore w (JFile a i) Ferr]
| ws_file_close a i :
    f_done (file_obj s a i) = false →
    wstep w s (WFileClose a i) WRecv
      (set_file a i
         {| f_info := f_info (file_obj s a i);
            f_consts := f_consts (file_obj s a i);
            f_undeclared := f_undeclared (file_obj s a i);
            f_err := f_err (file_obj s a i); f_done := true |} s)
      [EvClose w (JFile a i)].

Inductive mstep (s : State) : MainPc → State → list Event → Prop :=
| ms_arch a arch :
    arches !! a = Some arch →
    mstep s (MArch a) (set_main (MWaitArch a) s) [EvPrint (generating arch)]
| ms_arch_end a :
    arches !! a = None →
    mstep s (MArch a) (set_main MFinish s) []
| ms_wait_arch a :
    a_done (arch_obj s a) = true →
    mstep s (MWaitArch a) (set_main (MTestArch a) s) [EvWait (JArch a)]
| ms_arch_failed a e :
    a_err (arch_obj s a) = Some e →
    mstep s (MTestArch a) (set_main (MArch (S a)) (set_failed true s))
      [EvLoad Main (JArch a) Ferr; EvPrint (e +:+ nl)]
| ms_arch_ok a :
    a_err (arch_obj s a) = None →
    mstep s (MTestArch a) (set_main (MFile a 0) s) [EvLoad Main (JArch a) Ferr]
| ms_file_end a i arch :
    arches !! a = Some arch → files arch !! i = None →
    mstep s (MFile a i) (set_main (MArch (S a)) s) []
| ms_wait_file a i arch name :
    arches !! a = Some arch → files arch !! i = Some name →
    f_done (file_obj s a i) = true →
    mstep s (MFile a i) (set_main (MTestFile a i) s) [EvWait (JFile a i)]
| ms_file_failed a i arch name e :
    arches !! a = Some arch → files arch !! i = Some name →
    f_err (file_obj s a i) = Some e →
    mstep s (MTestFile a i) (set_main (MFile a (S i)) (set_failed true s))
      [EvLoad Main (JFile a i) Ferr; EvPrint (name +:+ ": " +:+ e +:+ nl)]
| ms_file_ok a i arch name :
    arches !! a = Some arch → files arch !! i = Some name →
    f_err (file_obj s a i) = None →
    mstep s (MTestFile a i)
      (set_main (MFile a (S i))
         (set_constFiles
            (<[name := AddArch (default compiler_NewConstFile (constFiles s !! name))
                         (Arch (target arch)) (f_consts (file_obj s a i))
                         (f_undeclared (file_obj s a i))]> (constFiles s)) s))
      [EvLoad Main (JFile a i) Ferr; EvLoad Main (JFile a i) Fconsts;
       EvLoad Main (JFile a i) Fundeclared]
| ms_finish :
    mstep s MFinish (finish s).1 (finish s).2.

(** The states the goroutines can reach from [init_state], with the events
    on the way. *)
Inductive reach (procs : nat) (w0 : World) : State → list Event → Prop :=
| reach_init : reach procs w0 (init_state procs w0) []
| reach_step s tr t s' evs :
    reach procs w0 s tr → step t s = Some (s', evs) →
    reach procs w0 s' (tr ++ evs).

(** *** Invariants of the reachable states *)

(** The job a worker holds, whether it still has to close the job's [done],
    whether it is in the loop over [j.files], and how many of these files
    it has sent. *)
Definition pc_job (pc : WorkerPc) : option Job :=
  match pc with
  | WRecv => None
  | WArchRun a | WArchSetErr a _ _ | WArchClose a _ | WArchTest a _
  | WFanInfo a _ _ | WFanSend a _ _ => Some (JArch a)
  | WFileRun a i | WFileSet a i _ | WFileClose a i => Some (JFile a i)
  end.

Definition pc_open (pc : WorkerPc) : bool :=
  match pc with
  | WArchRun _ | WArchSetErr _ _ _ | WArchClose _ _
  | WFileRun _ _ | WFileSet _ _ _ | WFileClose _ _ => true
  | _ => false
  end.

Definition pc_closes (pc : WorkerPc) : bool :=
  match pc with WArchClose _ _ | WFileClose _ _ => true | _ => false end.

Definition pc_fan (pc : WorkerPc) : bool :=
  match pc with
  | WFanInfo _ _ _ | WFanSend _ _ _ => true
  | _ => false
  end.

Definition fan_limit (pc : WorkerPc) : option nat :=
  match pc with
  | WArchTest _ _ => Some 0
  | WFanInfo _ _ i | WFanSend _ _ i => Some i
  | _ => None
  end.

Definition held (s : State) (j : Job) : Prop :=
  ∃ w pc, workers s !! w = Some pc ∧ pc_job pc = Some j.

(** A file job that has been sent: it is in the channel, a worker holds
    it, or it is done. *)
Definition sched (s : State) (a i : nat) : Prop :=
  JFile a i ∈ jobC s ∨ held s (JFile a i) ∨ f_done (file_obj s a i) = true.

Definition file_fields (f : FileObj) : gmap string Z * gmap string bool * option error :=
  (f_consts f, f_undeclared f, f_err f).

(** What the local variables of a worker hold. *)
Definition pc_ok (s : State) (pc : WorkerPc) : Prop :=
  match pc with
  | WRecv => True
  | WArchRun a => True
  | WArchSetErr a infos err => (infos, err) = arch_result a
  | WArchClose a infos =>
      infos = (arch_result a).1 ∧ a_err (arch_obj s a) = (arch_result a).2
  | WArchTest a infos | WFanInfo a infos _ => infos = (arch_result a).1
  | WFanSend a infos i =>
      infos = (arch_result a).1 ∧ f_info (file_obj s a i) = file_info a i
  | WFileRun a i => True
  | WFileSet a i res => res = file_result a i
  | WFileClose a i => file_fields (file_obj s a i) = file_result a i
  end.

(** Every job has one owner: the channel or one worker; what is in the
    channel or before its [close] is not done, what is past it is; the
    files of an architecture are sent in order, after the architecture is
    done without error. *)
Record InvJobs (s : State) : Prop := {
  inv_nodup : NoDup (jobC s);
  inv_held_queue : ∀ w pc j,
    workers s !! w = Some pc → pc_job pc = Some j → j ∉ jobC s;
  inv_held_unique : ∀ w w' pc pc' j,
    workers s !! w = Some pc → workers s !! w' = Some pc' →
    pc_job pc = Some j → pc_job pc' = Some j → w = w';
  inv_queue_open : ∀ j, j ∈ jobC s → job_done s j = false;
  inv_held_open : ∀ w pc j,
    workers s !! w = Some pc → pc_job pc = Some j →
    job_done s j = negb (pc_open pc);
  inv_fan_err : ∀ w pc a,
    workers s !! w = Some pc → pc_job pc = Some (JArch a) → pc_fan pc = true →
    a_err (arch_obj s a) = None;
  inv_sched_arch : ∀ a i,
    sched s a i → a_done (arch_obj s a) = true ∧ a_err (arch_obj s a) = None;
  inv_sched_limit : ∀ w pc a n i,
    workers s !! w = Some pc → pc_job pc = Some (JArch a) →
    fan_limit pc = Some n → sched s a i → i < n;
}.

(** The fields hold the results of the jobs. *)
Record InvVals (s : State) : Prop := {
  inv_pc_ok : ∀ w pc, workers s !! w = Some pc → pc_ok s pc;
  inv_arch_val : ∀ a,
    a_done (arch_obj s a) = true → a_err (arch_obj s a) = (arch_result a).2;
  inv_file_info : ∀ a i, sched s a i → f_info (file_obj s a i) = file_info a i;
  inv_file_val : ∀ a i,
    f_done (file_obj s a i) = true → file_fields (file_obj s a i) = file_result a i;
}.

(** The files [main] has gone past at [pc]. *)
Definition drained (pc : MainPc) (a i : nat) : Prop :=
  match pc with
  | MArch a0 | MWaitArch a0 | MTestArch a0 => a < a0
  | MFile a0 i0 | MTestFile a0 i0 => a < a0 ∨ (a = a0 ∧ i < i0)
  | MFinish => True
  | MExited _ => False
  end.

(** What [main] has waited for at [pc]. *)
Definition main_ready (s : State) : Prop :=
  match main_pc s with
  | MWaitArch a => is_Some (arches !! a)
  | MTestArch a => is_Some (arches !! a) ∧ a_done (arch_obj s a) = true
  | MFile a i =>
      is_Some (arches !! a) ∧ a_done (arch_obj s a) = true ∧
      (arch_result a).2 = None
  | MTestFile a i =>
      (∃ arch, arches !! a = Some arch ∧ is_Some (files arch !! i)) ∧
      a_done (arch_obj s a) = true ∧ (arch_result a).2 = None ∧
      f_done (file_obj s a i) = true
  | _ => True
  end.

Definition exited (s : State) : Prop :=
  match main_pc s with MExited _ => True | _ => False end.

(** [main] in the collecting loop keeps to [seq_main]: its variables, the
    world and its events are those of the run without workers, and it has
    waited for every file of every architecture without error that lies
    behind it. *)
Record InvMain (w0 : World) (s : State) (tr : list Event) : Prop := {
  inv_main_failed : failed s = acc_failed (acc_at (main_pc s));
  inv_main_tabs : constFiles s = acc_tabs (acc_at (main_pc s));
  inv_main_evs : main_events tr = acc_evs (acc_at (main_pc s));
  inv_main_world : world s = w0;
  inv_main_ready : main_ready s;
  inv_main_drained : ∀ a i arch,
    drained (main_pc s) a i → arches !! a = Some arch →
    is_Some (files arch !! i) → (arch_result a).2 = None →
    f_done (file_obj s a i) = true;
}.

(** An event that shows file [i] of architecture [a] sent, received or
    run. *)
Definition file_event (a i : nat) (e : Event) : Prop :=
  match e with
  | EvSend _ j | EvRecv _ j | EvClose _ j | EvWait j => j = JFile a i
  | EvStore _ j fld => j = JFile a i ∧ fld ≠ Finfo
  | EvLoad _ j _ => j = JFile a i
  | _ => False
  end.

(** The fields a worker assigns before it closes [j.done]. *)
Definition result_fields (j : Job) : list Field :=
  match j with
  | JArch _ => [Ferr]
  | JFile _ _ => [Fconsts; Fundeclared; Ferr]
  end.

(** The events so far against the state. *)
Record InvTrace (s : State) (tr : list Event) : Prop := {
  inv_tr_done : ∀ j, job_done s j = true ↔ ∃ w, EvClose w j ∈ tr;
  inv_tr_stored : ∀ w pc j,
    workers s !! w = Some pc → pc_job pc = Some j →
    match pc with
    | WArchClose _ _ | WArchTest _ _ | WFanInfo _ _ _ | WFanSend _ _ _
    | WFileClose _ _ => ∀ fld, fld ∈ result_fields j → EvStore w j fld ∈ tr
    | _ => True
    end;
  inv_tr_closed : ∀ w j,
    EvClose w j ∈ tr → ∀ fld, fld ∈ result_fields j → EvStore w j fld ∈ tr;
  inv_tr_closer : ∀ w pc j,
    workers s !! w = Some pc → pc_job pc = Some j → pc_open pc = false →
    EvClose w j ∈ tr;
  inv_tr_info : ∀ w a infos i,
    workers s !! w = Some (WFanSend a infos i) → EvStore w (JFile a i) Finfo ∈ tr;
  inv_tr_sched : ∀ a i,
    sched s a i →
    ∃ w, EvClose w (JArch a) ∈ tr ∧ EvStore w (JFile a i) Finfo ∈ tr ∧
         EvSend (Worker w) (JFile a i) ∈ tr;
  inv_tr_file : ∀ a i e, e ∈ tr → file_event a i e → sched s a i;
}.

End Machine.

(** ** main *)

(** [main] up to the collecting loop: the flags are checked, the backend is
    looked up, the architectures are created and the backend prepares.
    [extractors] is the table of backends.  Left: the message of
    [tool.Fail]/[tool.Failf]. *)
Definition main_setup (extractors : string → option Extractor) (fl : Flags) (w : World)
    : World * list Event * (string + Extractor * list ArchT) :=
  if decide (flagBuild fl = true ∧ flagBuildDir fl ≠ "") then
    (w, [], inl "-build and -builddir is an invalid combination")
  else
    match extractors (flagOS fl) with
    | None => (w, [], inl ("unknown os: " +:+ flagOS fl))
    | Some ext =>
        match createArches fl w (flagOS fl) (archList (flagOS fl) (flagArch fl))
                (flagArgs fl) with
        | (w, evs, inr err) => (w, evs, inl err)
        | (w, evs, inl arches) =>
            if decide (flagSourceDir fl = "") then
              (w, evs, inl ("provide path to kernel checkout via -sourcedir "
                            +:+ "flag (or make extract SOURCEDIR)"))
            else
              match prepare ext (flagSourceDir fl) (flagBuild fl) arches with
              | Some err => (w, evs, inl err)
              | None => (w, evs, inr (ext, arches))
              end
        end
    end.

(** A whole execution of the program with [procs] workers
    ([runtime.GOMAXPROCS(0)]): its events and its exit code.  The process
    ends in [tool.Fail] during the setup, or when [main] returns or calls
    [os.Exit], or it is ended by the runtime when every goroutine blocks. *)
Inductive main_exits (extractors : string → option Extractor) (fl : Flags)
    (procs : nat) (w : World) : list Event → Z → Prop :=
| exits_in_setup w' evs msg :
    main_setup extractors fl w = (w', evs, inl msg) →
    main_exits extractors fl procs w (evs ++ [EvFatal msg]) 1
| exits_after_run w' evs ext arches sched s evs' code :
    main_setup extractors fl w = (w', evs, inr (ext, arches)) →
    run fl ext arches sched (init_state arches procs w') = Some (s, evs') →
    main_pc s = MExited code →
    main_exits extractors fl procs w (evs ++ evs') code
| exits_deadlock w' evs ext arches sched s evs' :
    main_setup extractors fl w = (w', evs, inr (ext, arches)) →
    run fl ext arches sched (init_state arches procs w') = Some (s, evs') →
    deadlocked fl ext arches s →
    main_exits extractors fl procs w (evs ++ evs') 2.

End Pipeline.
End Extract.

Import Extract.

(** ** A concrete environment

    Two architectures (amd64 and 386) of one OS, three definition files
    that are discovered and one, k.txt, that has to be named.
    The backend resolves [X] everywhere, [Y] on amd64 only, [Z] nowhere,
    and fails on a file that mentions [E].  A third architecture, "bad",
    is known to [targets.Get] and absent from [targets.List]: the compiler
    reports two errors for it.  Preparing "386" fails with the include
    directory "/no-386-headers".  The disk takes writes while the flag of
    the world is set. *)
Module Demo.

Definition demo_infos : gmap string (list string) :=
  {[ "sys/windows/f.txt" := ["X"; "Y"];
     "sys/windows/g.txt" := ["Z"];
     "sys/windows/h.txt" := [];
     "sys/windows/k.txt" := ["X"] ]}.

Definition demo_meta : gmap string (bool * list string) :=
  {[ "f.txt" := (false, []);
     "g.txt" := (false, []);
     "h.txt" := (false, ["amd64"]);
     "skip.txt" := (true, []) ]}.

Definition demo_targets : gmap string Target :=
  {[ "amd64" := {| OS := "windows"; Arch := "amd64" |};
     "386" := {| OS := "windows"; Arch := "386" |};
     "bad" := {| OS := "windows"; Arch := "bad" |} ]}.

Definition demo_errors : list ErrMsg :=
  [("sys/windows/f.txt:1:1", "unknown type int128");
   ("sys/windows/g.txt:2:3", "unsupported flag")].

(** One table is the list of the [AddArch] calls made on it; its
    serialization has a byte per resolved constant. *)
Definition demo_Serialize (cf : list (string * gmap string Z * gmap string bool))
    : list Byte.byte :=
  flat_map (λ e, (λ _, Byte.x2a) <$> map_to_list e.1.2) cf.

#[global] Instance demo_env : Env := {|
  Description := unit;
  ast_ParseGlob := λ _, (Some (), []);
  Meta := bool * list string;
  NoExtract := fst;
  SupportsArch := λ m a, bool_decide (m.2 = [] ∨ a ∈ m.2);
  compiler_FileList := λ _ _, (Some demo_meta, []);
  ConstInfo := list string;
  Consts := id;
  compiler_ExtractConsts := λ _ t,
    if decide (Arch t = "bad") then (None, demo_errors) else (Some demo_infos, []);
  ConstFile := list (string * gmap string Z * gmap string bool);
  compiler_NewConstFile := [];
  AddArch := λ cf a c u, cf ++ [(a, c, u)];
  Serialize := demo_Serialize;
  targets_List := λ _, delete "bad" demo_targets;
  targets_Get := λ _ a, demo_targets !! a;
  filepath_Join := String.concat "/";
  World := nat * bool;
  ioutil_TempDir := λ w _ pat, ((S w.1, w.2), inl ("/tmp/" +:+ pat +:+ pretty w.1));
  osutil_WriteFile := λ w _ _, (w, if w.2 then None else Some "read-only file system");
  os_Remove := λ w _, w;
  os_RemoveAll := λ w _, w;
  range_order := λ A m, map_to_list m;
  range_order_perm := λ A m, reflexivity _;
|}.

Definition demo_resolve (arch : ArchT) (acc : gmap string Z * gmap string bool * option error)
    (name : string) : gmap string Z * gmap string bool * option error :=
  if decide (name = "X") then (<["X" := 1%Z]> acc.1.1, acc.1.2, acc.2)
  else if decide (name = "Y" ∧ Arch (target arch) = "amd64")
       then (<["Y" := 2%Z]> acc.1.1, acc.1.2, acc.2)
  else if decide (name = "E") then (acc.1.1, acc.1.2, Some "compilation failed")
  else (acc.1.1, <[name := true]> acc.1.2, acc.2).

Definition demo_ext : Extractor := {|
  prepare := λ _ _ _, None;
  prepareArch := λ arch,
    if decide (Arch (target arch) = "386" ∧ includeDirs arch = "/no-386-headers")
    then Some "boom" else None;
  ext_processFile := λ arch info, foldl (demo_resolve arch) (∅, ∅, None) info;
|}.

Definition demo_extractors (os : string) : option Extractor :=
  if decide (os = "windows") then Some demo_ext else None.

Definition demo_flags : Flags := {|
  flagOS := "windows"; flagBuild := false; flagSourceDir := "/src";
  flagIncludes := ""; flagBuildDir := ""; flagArch := ""; flagArgs := [];
|}.

(** Schedules: the round robin over [main] and [procs] workers. *)
Definition round (procs : nat) : list Thread := Main :: (Worker <$> seq 0 procs).

(** [run] skipping the goroutines that cannot move: the schedule really
    taken, the state and the events. *)
Fixpoint run_skip (fl : Flags) (ext : Extractor) (arches : list ArchT)
    (sched : list Thread) (s : State) : list Thread * State * list Event :=
  match sched with
  | [] => ([], s, [])
  | t :: rest =>
      match step fl ext arches t s with
      | None => run_skip fl ext arches rest s
      | Some (s', evs) =>
          let '(taken, s'', evs') := run_skip fl ext arches rest s' in
          (t :: taken, s'', evs ++ evs')
      end
  end.

(** The command lines of the examples: [-build], [-includedirs], [-arch]
    and the file arguments; the OS is windows and the sources are in /src. *)
Definition demo_cmd (build : bool) (includes arch : string) (args : list string)
    : Flags :=
  {| flagOS := "windows"; flagBuild := build; flagSourceDir := "/src";
     flagIncludes := includes; flagBuildDir := ""; flagArch := arch;
     flagArgs := args |}.

Definition cmd_one : Flags := demo_cmd false "" "amd64" ["f.txt"].
Definition cmd_two : Flags := demo_cmd false "" "amd64" ["f.txt"; "h.txt"].
Definition cmd_g : Flags := demo_cmd false "" "" ["g.txt"].
Definition cmd_broken : Flags := demo_cmd false "/no-386-headers" "" ["g.txt"].
Definition cmd_build : Flags := demo_cmd true "/no-386-headers" "" ["f.txt"].
Definition cmd_filters : Flags := demo_cmd false "" "386" ["skip.txt"; "h.txt"].

(** [-build] without [-sourcedir]. *)
Definition cmd_nosrc : Flags :=
  {| flagOS := "windows"; flagBuild := true; flagSourceDir := "";
     flagIncludes := ""; flagBuildDir := ""; flagArch := ""; flagArgs := [] |}.

(** The architectures that [main] creates for a command line, and the
    pipeline started on them with [procs] workers. *)
Definition demo_arches (fl : Flags) (w : World) : list ArchT :=
  match main_setup demo_extractors fl w with
  | (_, _, inr (_, arches)) => arches
  | _ => []
  end.

Definition demo_run (fl : Flags) (w : World) (procs : nat) (sched : list Thread)
    : option (State * list Event) :=
  run fl demo_ext (demo_arches fl w) sched
      (init_state (demo_arches fl w) procs (main_setup demo_extractors fl w).1.1).

(** Interleavings.  [sched_one]: one worker, one architecture with one
    file, [main] moving whenever it can. *)
Definition sched_one : list Thread :=
  [Main] ++ replicate 4 (Worker 0) ++ [Main; Worker 0; Main]
  ++ replicate 7 (Worker 0) ++ replicate 5 Main.


(** Two workers, one architecture with two files. *)
Definition sched_two : list Thread :=
  [Main] ++ replicate 4 (Worker 0) ++ [Main; Worker 0; Main; Worker 0; Worker 0]
  ++ [Worker 1; Worker 0; Worker 1; Worker 0; Worker 1; Worker 0; Worker 1]
  ++ [Main; Worker 0; Main] ++ replicate 3 (Worker 0) ++ replicate 5 Main.

(** Two architectures with one file each: two workers in turn, and three
    workers in the opposite turn. *)
Definition sched_g2 : list Thread :=
  [Main] ++ concat (replicate 4 [Worker 0; Worker 1])
  ++ [Main; Worker 0; Worker 1; Main] ++ concat (replicate 7 [Worker 0; Worker 1])
  ++ replicate 11 Main.

Definition sched_g3 : list Thread :=
  [Worker 2; Worker 1; Main] ++ concat (replicate 3 [Worker 2; Worker 1])
  ++ [Main; Worker 2; Worker 1; Main] ++ concat (replicate 2 [Worker 2; Worker 1])
  ++ [Worker 0; Worker 2; Worker 1; Worker 0; Worker 2; Worker 0; Worker 2]
  ++ [Worker 0; Main; Worker 2; Main; Worker 2] ++ replicate 9 Main.

(** Two architectures of which the first fails. *)
Definition sched_broken : list Thread :=
  [Main] ++ concat (replicate 4 [Worker 0; Worker 1])
  ++ [Main; Worker 0; Worker 1; Main; Worker 1; Main; Worker 1; Main]
  ++ [Worker 0; Worker 1; Main] ++ replicate 3 (Worker 0) ++ replicate 5 Main.

Definition cmd_fk : Flags := demo_cmd false "" "amd64" ["f.txt"; "k.txt"].



(** Three workers on [cmd_fk], the last one first. *)
Definition sched_fk3 : list Thread :=
  [Worker 2; Main; Worker 2; Worker 2; Worker 2; Main; Worker 2; Main; Worker 2;
   Worker 2; Worker 1; Worker 2; Worker 1; Worker 2; Worker 1; Worker 0;
   Worker 2; Worker 1; Worker 0; Main; Worker 0; Main; Worker 0; Main; Main;
   Main; Main; Main].


(** What a run leaves to look at. *)
Definition final_pc (r : option (State * list Event)) : option MainPc :=
  main_pc ∘ fst <$> r.

Definition final_tables (r : option (State * list Event)) : list string :=
  default [] ((λ p, range_keys (constFiles p.1)) <$> r).

Definition trace (r : option (State * list Event)) : list Event :=
  default [] (snd <$> r).


(** Another execution in the same surroundings: the [range] statements
    visit the maps in the opposite order. *)
Definition rev_order (A : Type) (m : gmap string A) : list (string * A) :=
  reverse (map_to_list m).

Definition demo_env_rev : Env :=
  reorder demo_env rev_order (λ A m, reverse_Permutation (map_to_list m)).

Definition demo_ext_rev : @Extractor demo_env_rev :=
  reorder_ext rev_order (λ A m, reverse_Permutation (map_to_list m)) demo_ext.


Definition demo_run_rev (fl : Flags) (w : World) (procs : nat) (sched : list Thread)
    : option (@State demo_env_rev * list (@Event demo_env_rev)) :=
  run (E:=demo_env_rev) fl demo_ext_rev (demo_arches fl w) sched
      (init_state (E:=demo_env_rev) (demo_arches fl w) procs
         (main_setup demo_extractors fl w).1.1).

Definition final_pc_rev (r : option (@State demo_env_rev * list (@Event demo_env_rev)))
    : option MainPc :=
  main_pc (E:=demo_env_rev) ∘ fst <$> r.


End Demo.

(** * Verification *)

(** ** The order on strings and [sort.Strings] *)

Lemma ascii_compare_refl (c : ascii) : Ascii.compare c c = Eq.
Proof. unfold Ascii.compare. apply N.compare_refl. Qed.

Lemma ascii_compare_lt_trans (a b c : ascii) :
  Ascii.compare a b = Lt → Ascii.compare b c = Lt → Ascii.compare a c = Lt.
Proof.
  unfold Ascii.compare. rewrite !N.compare_lt_iff. apply N.lt_trans.
Qed.

Lemma string_compare_trans (s1 : string) :
  ∀ s2 s3, String.compare s1 s2 ≠ Gt → String.compare s2 s3 ≠ Gt →
           String.compare s1 s3 ≠ Gt.
Proof.
  induction s1 as [|x s1 IH]; intros [|y s2] [|z s3]; simpl; try congruence.
  destruct (Ascii.compare x y) eqn:Hxy; try congruence;
    destruct (Ascii.compare y z) eqn:Hyz; try congruence; intros H1 H2.
  - apply Ascii.compare_eq_iff in Hxy, Hyz. subst.
    rewrite ascii_compare_refl. by eapply IH.
  - apply Ascii.compare_eq_iff in Hxy. subst. by rewrite Hyz.
  - apply Ascii.compare_eq_iff in Hyz. subst. by rewrite Hxy.
  - by rewrite (ascii_compare_lt_trans x y z).
Qed.

#[global] Instance str_le_trans : Transitive str_le.
Proof.
  intros s1 s2 s3. unfold str_le, String.leb. intros H1 H2.
  pose proof (string_compare_trans s1 s2 s3) as H.
  destruct (String.compare s1 s2), (String.compare s2 s3),
    (String.compare s1 s3); try done; exfalso; by apply H.
Qed.

#[global] Instance str_le_total : Total str_le.
Proof. intros s1 s2. apply String.leb_total. Qed.

#[global] Instance str_le_antisym : AntiSymm (=) str_le.
Proof. intros s1 s2. apply String.leb_antisym. Qed.

Lemma sort_Strings_sorted (l : list string) : Sorted str_le (sort_Strings l).
Proof. apply (Sorted_merge_sort str_le). Qed.

Lemma sort_Strings_perm (l : list string) : sort_Strings l ≡ₚ l.
Proof. apply (merge_sort_Permutation str_le). Qed.



(** ** createArches *)

Section SetupFacts.
Context `{E : Env}.

Lemma createArch_inv fl allFiles os files0 w archStr w' evs arch :
  createArch fl allFiles os files0 w archStr = (w', evs, inl arch) →
  created fl allFiles os files0 archStr arch ∧
  evs = (if flagBuild fl then [EvTempDir (buildDir arch)] else []).
Proof.
  unfold createArch, created. intros H.
  destruct (flagBuild fl) eqn:Hb.
  - destruct (ioutil_TempDir w "" "syzkaller-kernel-build") as [w1 [dir|err]];
      [|done].
    destruct (targets_Get os archStr); [|done]. by simplify_eq/=.
  - case_decide; (destruct (targets_Get os archStr); [|done]); simplify_eq/=;
      repeat split; try done; intros _; by case_decide.
Qed.

Lemma createArches_loop_inv fl allFiles os files0 archArray :
  ∀ w acc w' evs arches,
    createArches_loop fl allFiles os files0 w archArray acc = (w', evs, inl arches) →
    ∃ new, arches = acc ++ new ∧
           Forall2 (created fl allFiles os files0) archArray new ∧
           evs = (if flagBuild fl then EvTempDir <$> (buildDir <$> new) else []).
Proof.
  induction archArray as [|archStr rest IH]; intros w acc w' evs arches; simpl.
  - intros [= <- <- <-]. exists []. rewrite app_nil_r. by destruct (flagBuild fl).
  - destruct (createArch _ _ _ _ _ _) as [[w1 evs1] [arch|err]] eqn:Hc; [|done].
    destruct (createArches_loop _ _ _ _ _ _ _) as [[w2 evs2] r] eqn:Hl.
    intros [= <- <- ->]. apply IH in Hl as (new & -> & Hnew & ->).
    apply createArch_inv in Hc as [Hc ->].
    exists (arch :: new). split; [by rewrite <- app_assoc|].
    split; [by constructor|]. by destruct (flagBuild fl).
Qed.

(** When [createArches] succeeds, the architectures are the requested
    ones, in the order of the request. *)
Lemma createArches_inv fl w os archArray files0 w' evs arches :
  createArches fl w os archArray files0 = (w', evs, inl arches) →
  ∃ allFiles, discovered os = Some allFiles ∧
    Forall2 (created fl allFiles os files0) archArray arches ∧
    evs = (if flagBuild fl then EvTempDir <$> (buildDir <$> arches) else []).
Proof.
  unfold createArches, discovered.
  destruct (ast_ParseGlob _) as [[top|] errs1]; [|done]. simpl.
  destruct (compiler_FileList top os) as [[allFiles|] errs2]; [|done]. simpl.
  intros (new & -> & ? & ->)%createArches_loop_inv. by exists allFiles.
Qed.

(** The files that pass the two filters of [createArches]. *)
Lemma archFiles_discovered allFiles archStr name :
  name ∈ archFiles allFiles archStr [] ↔
  ∃ meta, allFiles !! name = Some meta ∧ NoExtract meta = false ∧
          SupportsArch meta archStr = true.
Proof.
  unfold archFiles. rewrite sort_Strings_perm. simpl.
  rewrite list_elem_of_fmap. split.
  - intros ([n m] & -> & [Hp Hin]%list_elem_of_filter). simpl in *.
    rewrite range_order_perm in Hin. apply elem_of_map_to_list in Hin.
    exists m. split; [done|]. destruct (NoExtract m), (SupportsArch m archStr); tauto.
  - intros (m & Hm & Hn & Hs). exists (name, m). split; [done|].
    apply list_elem_of_filter. split; [simpl; rewrite Hn, Hs; intros [|]; done|].
    rewrite range_order_perm. by apply elem_of_map_to_list.
Qed.

Lemma archFiles_explicit allFiles archStr files0 :
  files0 ≠ [] → archFiles allFiles archStr files0 = sort_Strings files0.
Proof. unfold archFiles. destruct files0; [done|]. intros _. by case_decide. Qed.


(** C10: an explicit list of definition files is given to every
    architecture as it is (sorted, nothing dropped and nothing added:
    neither [NoExtract] nor [SupportsArch] is looked at); without an
    explicit list the files of an architecture are exactly the discovered
    files that are not [NoExtract] and support that architecture. *)
Theorem createArches_file_lists fl w os archArray files0 w' evs arches :
  createArches fl w os archArray files0 = (w', evs, inl arches) →
  ∃ allFiles, discovered os = Some allFiles ∧
    length arches = length archArray ∧
    ∀ k archStr arch,
      archArray !! k = Some archStr → arches !! k = Some arch →
      (files0 ≠ [] → files arch = sort_Strings files0 ∧ files arch ≡ₚ files0) ∧
      (files0 = [] →
       ∀ name, name ∈ files arch ↔
               ∃ meta, allFiles !! name = Some meta ∧ NoExtract meta = false ∧
                       SupportsArch meta archStr = true).
Proof.
  intros (allFiles & Hd & Hall & _)%createArches_inv.
  exists allFiles. split; [done|]. split; [symmetry; by eapply Forall2_length|].
  intros k archStr arch Hk Ha.
  pose proof (Forall2_lookup_lr _ _ _ _ _ _ Hall Hk Ha) as (_ & Hf & _).
  rewrite Hf. split.
  - intros Hne. rewrite archFiles_explicit by done.
    split; [done | apply sort_Strings_perm].
  - intros ->. apply archFiles_discovered.
Qed.

End SetupFacts.

(** ** processFile *)

Section ProcessFileFacts.
Context `{E : Env}.

(** C7: [processFile] calls the backend exactly when the constant
    reference info of the file is there and names a constant, and then
    returns what the backend returns.  Without the info it fails with the
    "is missing" error and with info that names no constant it succeeds
    with nothing; the backend is called in neither case. *)
Theorem processFile_backend_iff (ext : Extractor) (arch : ArchT) (name : string)
    (info : option ConstInfo) :
  ((processFile ext arch name info).1 ≠ [] ↔
   ∃ ci, info = Some ci ∧ Consts ci ≠ []) ∧
  (∀ ci, info = Some ci → Consts ci ≠ [] →
     processFile ext arch name info =
       ([CallProcessFile arch ci], ext_processFile ext arch ci)) ∧
  (info = None →
     processFile ext arch name info =
       ([], (∅, ∅, Some ("const info for input file "
                          +:+ filepath_Join ["sys"; OS (target arch); name]
                          +:+ " is missing")))) ∧
  (∀ ci, info = Some ci → Consts ci = [] →
     processFile ext arch name info = ([], (∅, ∅, None))).
Proof.
  unfold processFile. repeat split.
  - destruct info as [ci|]; [|done]. case_decide as Hl; [done|].
    intros _. exists ci. split; [done|]. intros Hc. by rewrite Hc in Hl.
  - intros (ci & -> & Hc). case_decide as Hl; [|done].
    by apply nil_length_inv in Hl.
  - intros ci -> Hc. case_decide as Hl; [|done]. by apply nil_length_inv in Hl.
  - by intros ->.
  - intros ci -> ->. by case_decide.
Qed.

End ProcessFileFacts.

(** ** checkUnsupportedCalls *)

Section CheckFacts.
Context `{E : Env}.

Lemma elem_of_range_keys {A} (m : gmap string A) (k : string) :
  k ∈ range_keys m ↔ k ∈ dom m.
Proof.
  unfold range_keys. rewrite range_order_perm, elem_of_dom.
  rewrite list_elem_of_fmap. split.
  - intros ([k' x] & -> & Hin). apply elem_of_map_to_list in Hin. by exists x.
  - intros [x Hx]. exists (k, x). split; [done|]. by apply elem_of_map_to_list.
Qed.

Lemma NoDup_range_keys {A} (m : gmap string A) : NoDup (range_keys m).
Proof.
  unfold range_keys. rewrite range_order_perm. apply NoDup_fst_map_to_list.
Qed.

Lemma lookup_foldl_insert {V} (v : V) (keys : list string) :
  ∀ (m : gmap string V) (k : string),
    foldl (λ m k, <[k := v]> m) m keys !! k =
      if decide (k ∈ keys) then Some v else m !! k.
Proof.
  induction keys as [|k0 keys IH]; intros m k; cbn [foldl].
  - destruct (decide (k ∈ [])) as [?%not_elem_of_nil|]; done.
  - rewrite IH. destruct (decide (k = k0)) as [->|Hne].
    + rewrite lookup_insert_eq.
      destruct (decide (k0 ∈ keys)), (decide (k0 ∈ k0 :: keys)); set_solver.
    + rewrite lookup_insert_ne by done.
      destruct (decide (k ∈ keys)), (decide (k ∈ k0 :: keys)); set_solver.
Qed.

(** [supported] after the scan: the names some file resolved. *)
Lemma scan_files_supported (fs : list FileView) (name : string) :
  ∀ (acc : gmap string bool * gmap string string),
    (foldl (λ acc f, (mark_supported acc.1 f, mark_unsupported acc.2 f)) acc fs).1
      !! name = Some true ↔
    acc.1 !! name = Some true ∨ ∃ f, f ∈ fs ∧ name ∈ dom f.1.2.
Proof.
  induction fs as [|f fs IH]; intros acc; simpl.
  - split; [by left | intros [?|(?&?%not_elem_of_nil&?)]; done].
  - rewrite IH. simpl. unfold mark_supported at 1.
    rewrite lookup_foldl_insert.
    destruct (decide (name ∈ range_keys f.1.2)) as [Hin|Hin];
      rewrite elem_of_range_keys in Hin; split.
    + intros [_|(f'&?&?)]; right; [exists f | exists f']; set_solver.
    + intros _. by left.
    + intros [?|(f'&?&?)]; [by left | right; exists f'; set_solver].
    + intros [?|(f'&[->|?]%elem_of_cons&Hd)]; [by left | done | right; by exists f'].
Qed.

(** [unsupported] after the scan: the names some file left undeclared,
    each with a file that did. *)
Lemma scan_files_unsupported (fs : list FileView) (name : string) :
  ∀ (acc : gmap string bool * gmap string string),
    is_Some ((foldl (λ acc f, (mark_supported acc.1 f, mark_unsupported acc.2 f))
                acc fs).2 !! name) ↔
    is_Some (acc.2 !! name) ∨ ∃ f, f ∈ fs ∧ name ∈ dom f.2.
Proof.
  induction fs as [|f fs IH]; intros acc; simpl.
  - split; [by left | intros [?|(?&?%not_elem_of_nil&?)]; done].
  - rewrite IH. simpl. unfold mark_unsupported at 1.
    rewrite lookup_foldl_insert.
    destruct (decide (name ∈ range_keys f.2)) as [Hin|Hin];
      rewrite elem_of_range_keys in Hin; split.
    + intros [_|(f'&?&?)]; right; [exists f | exists f']; set_solver.
    + intros _. by left.
    + intros [?|(f'&?&?)]; [by left | right; exists f'; set_solver].
    + intros [?|(f'&[->|?]%elem_of_cons&Hd)]; [by left | done | right; by exists f'].
Qed.

Lemma scan_files_unsupported_file (fs : list FileView) (name file : string) :
  ∀ (acc : gmap string bool * gmap string string),
    (foldl (λ acc f, (mark_supported acc.1 f, mark_unsupported acc.2 f))
       acc fs).2 !! name = Some file →
    acc.2 !! name = Some file ∨ ∃ f, f ∈ fs ∧ name ∈ dom f.2 ∧ f.1.1 = file.
Proof.
  induction fs as [|f fs IH]; intros acc; simpl; [by left|].
  intros [H|(f'&?&?&?)]%IH; [|right; exists f'; set_solver].
  simpl in H. unfold mark_unsupported in H.
  rewrite lookup_foldl_insert in H. case_decide as Hin; [|by left].
  right. exists f. apply elem_of_range_keys in Hin. simplify_eq. set_solver.
Qed.

Lemma elem_of_reported_names supported l name :
  name ∈ reported_names supported l ↔
  name ∈ l.*1 ∧ supported !! name ≠ Some true.
Proof.
  induction l as [|[n f] l IH]; simpl; [set_solver|].
  case_decide as Hs; [|rewrite elem_of_cons]; rewrite IH; set_solver.
Qed.

Lemma NoDup_reported_names supported l :
  NoDup l.*1 → NoDup (reported_names supported l).
Proof.
  induction l as [|[n f] l IH]; simpl; [constructor|].
  intros [Hn Hl]%NoDup_cons. case_decide; [by apply IH|].
  apply NoDup_cons. split; [|by apply IH].
  rewrite elem_of_reported_names. tauto.
Qed.

(** The lines of the report are the lines of the reported names, and
    [failed] is set exactly when there is one. *)
Lemma report_unsupported_names supported l :
  length (report_unsupported supported l).2 = length (reported_names supported l) ∧
  ((report_unsupported supported l).1 = true ↔ reported_names supported l ≠ []) ∧
  Forall2 (λ line name, ∃ file, (name, file) ∈ l ∧
             line = file +:+ ": " +:+ name
                    +:+ " is unsupported on all arches (typo?)" +:+ nl)
          (report_unsupported supported l).2 (reported_names supported l).
Proof.
  induction l as [|[n f] l (IH1 & IH2 & IH3)]; simpl.
  - repeat split; [done | done | constructor].
  - case_decide.
    + repeat split; try tauto.
      eapply Forall2_impl; [done|]. intros ?? (file&?&?). exists file. set_solver.
    + destruct (report_unsupported supported l) as [b lines]. simpl in *.
      repeat split; [by rewrite IH1 | done |].
      constructor; [exists f; set_solver|].
      eapply Forall2_impl; [done|]. intros ?? (file&?&?). exists file. set_solver.
Qed.

(** The names [checkUnsupportedCalls] reports: those that some file left
    undeclared and no file resolved. *)
Lemma checkUnsupportedCalls_names_spec (view : list (list FileView)) (name : string) :
  name ∈ checkUnsupportedCalls_names view ↔
  (∃ f, f ∈ concat view ∧ name ∈ dom f.2) ∧
  ¬ (∃ f, f ∈ concat view ∧ name ∈ dom f.1.2).
Proof.
  unfold checkUnsupportedCalls_names, scan_files.
  destruct (foldl _ _ _) as [supported unsupported] eqn:Hscan.
  rewrite elem_of_reported_names.
  pose proof (scan_files_supported (concat view) name (∅, ∅)) as Hs.
  pose proof (scan_files_unsupported (concat view) name (∅, ∅)) as Hu.
  rewrite Hscan in Hs, Hu. cbn [fst snd] in Hs, Hu.
  rewrite lookup_empty in Hs. rewrite lookup_empty in Hu.
  assert (name ∈ (range_order string unsupported).*1 ↔ is_Some (unsupported !! name))
    as ->.
  { fold (range_keys unsupported). by rewrite elem_of_range_keys, elem_of_dom. }
  rewrite Hu, Hs. split.
  - intros [[[? [=]]|?] Hn]. split; [done|]. intros ?. apply Hn. by right.
  - intros [? Hn]. split; [by right|]. intros [[=]|?]. by apply Hn.
Qed.

Lemma checkUnsupportedCalls_names_NoDup (view : list (list FileView)) :
  NoDup (checkUnsupportedCalls_names view).
Proof.
  unfold checkUnsupportedCalls_names. destruct (scan_files _) as [su un].
  apply NoDup_reported_names, NoDup_range_keys.
Qed.

Lemma checkUnsupportedCalls_lines (view : list (list FileView)) :
  ((checkUnsupportedCalls view).1 = true ↔ checkUnsupportedCalls_names view ≠ []) ∧
  Forall2 (λ line name, ∃ f, f ∈ concat view ∧ name ∈ dom f.2 ∧
             line = f.1.1 +:+ ": " +:+ name
                    +:+ " is unsupported on all arches (typo?)" +:+ nl)
          (checkUnsupportedCalls view).2 (checkUnsupportedCalls_names view).
Proof.
  unfold checkUnsupportedCalls, checkUnsupportedCalls_names, scan_files.
  destruct (foldl _ _ _) as [supported unsupported] eqn:Hscan.
  destruct (report_unsupported_names supported (range_order string unsupported))
    as (_ & H2 & H3).
  split; [done|]. eapply Forall2_impl; [done|].
  intros line name (file & Hin & ->). simpl.
  rewrite range_order_perm in Hin. apply elem_of_map_to_list in Hin.
  pose proof (scan_files_unsupported_file (concat view) name file (∅, ∅)) as Hf.
  rewrite Hscan in Hf. simpl in Hf. rewrite lookup_empty in Hf.
  destruct (Hf Hin) as [[=]|(f & ? & ? & <-)]. by exists f.
Qed.

End CheckFacts.

(** ** The goroutines *)

Section MachineFacts.
Context `{E : Env}.
Variable fl : Flags.
Variable ext : Extractor.
Variable arches : list ArchT.

Local Abbreviation step := (step fl ext arches).
Local Abbreviation worker_step := (worker_step ext arches).
Local Abbreviation main_step := (main_step fl arches).
Local Abbreviation wstep := (wstep ext arches).
Local Abbreviation mstep := (mstep fl arches).

Lemma worker_step_wstep w pc s pc' s' evs :
  worker_step w pc s = Some (pc', s', evs) → wstep w s pc pc' s' evs.
Proof.
  destruct pc as [|a|a infos err|a infos|a infos|a infos i|a infos i|a i
                  |a i [[c u] e]|a i]; simpl; intros Hs.
  - destruct (jobC s) as [|j q] eqn:Hq; simplify_eq. by constructor.
  - destruct (arches !! a) as [arch|] eqn:Ha; simplify_eq/=.
    pose proof (ws_arch_run ext arches w s a arch Ha) as H.
    destruct (processArch ext arch) as [calls [infos err]]. by simplify_eq/=.
  - simplify_eq. constructor.
  - destruct (a_done (arch_obj s a)) eqn:Hd; simplify_eq. by constructor.
  - destruct (a_err (arch_obj s a)) eqn:He; simplify_eq; econstructor; done.
  - destruct (arches !! a) as [arch|] eqn:Ha; simplify_eq/=.
    destruct (files arch !! i) as [name|] eqn:Hi; simplify_eq;
      econstructor; done.
  - case_decide; simplify_eq. by constructor.
  - destruct (arches !! a) as [arch|] eqn:Ha; simplify_eq/=.
    destruct (files arch !! i) as [name|] eqn:Hi; simplify_eq/=.
    pose proof (ws_file_run ext arches w s a i arch name Ha Hi) as H.
    destruct (processFile ext arch name _) as [calls res]. by simplify_eq/=.
  - simplify_eq. constructor.
  - destruct (f_done (file_obj s a i)) eqn:Hd; simplify_eq. by constructor.
Qed.

Lemma main_step_mstep s s' evs :
  main_step s = Some (s', evs) → mstep s (main_pc s) s' evs.
Proof.
  unfold Extract.main_step.
  destruct (main_pc s) as [a|a|a|a i|a i| |code]; intros Hs.
  - destruct (arches !! a) as [arch|] eqn:Ha; simplify_eq;
      [exact (ms_arch fl arches s a arch Ha) | by apply ms_arch_end].
  - destruct (a_done (arch_obj s a)) eqn:Hd; simplify_eq. by apply ms_wait_arch.
  - destruct (a_err (arch_obj s a)) eqn:He; simplify_eq;
      [by eapply ms_arch_failed | by apply ms_arch_ok].
  - destruct (arches !! a) as [arch|] eqn:Ha; simplify_eq/=.
    destruct (files arch !! i) as [name|] eqn:Hi; simplify_eq;
      [|by eapply ms_file_end].
    destruct (f_done (file_obj s a i)) eqn:Hd; simplify_eq. by eapply ms_wait_file.
  - destruct (arches !! a) as [arch|] eqn:Ha; simplify_eq/=.
    destruct (files arch !! i) as [name|] eqn:Hi; simplify_eq/=.
    destruct (f_err (file_obj s a i)) eqn:He; simplify_eq;
      [by eapply ms_file_failed | by eapply ms_file_ok].
  - injection Hs as Hs. pose proof (ms_finish fl arches s) as H.
    by rewrite Hs in H.
  - done.
Qed.

(** A step is a step of [main] or of one worker. *)
Lemma step_cases t s s' evs :
  step t s = Some (s', evs) →
  ¬ exited s ∧
  ((t = Main ∧ mstep s (main_pc s) s' evs) ∨
   (∃ w pc pc' s1, t = Worker w ∧ workers s !! w = Some pc ∧
                   wstep w s pc pc' s1 evs ∧ s' = set_worker w pc' s1)).
Proof.
  intros Hs.
  assert (¬ exited s ∧
          match t with
          | Main => main_step s
          | Worker w =>
              pc ← workers s !! w;
              '(pc', s', evs) ← worker_step w pc s;
              Some (set_worker w pc' s', evs)
          end = Some (s', evs)) as [Hne Ht].
  { revert Hs. unfold Extract.step, exited.
    destruct (main_pc s); intros Hs; try done; (split; [tauto | done]). }
  split; [done|]. clear Hs. destruct t as [|w].
  - left. split; [done|]. by apply main_step_mstep.
  - right. destruct (workers s !! w) as [pc|] eqn:Hw; simplify_eq/=.
    destruct (worker_step w pc s) as [[[pc' s1] evs1]|] eqn:Hws; simplify_eq/=.
    exists w, pc, pc', s1. split_and!; [done | done | | done].
    by apply worker_step_wstep.
Qed.

(** *** Reading the store after an update *)

Lemma arch_obj_set_arch a o s a' :
  arch_obj (set_arch a o s) a' = if decide (a = a') then o else arch_obj s a'.
Proof.
  unfold arch_obj. simpl. case_decide as H; [subst; by rewrite lookup_insert_eq|].
  by rewrite lookup_insert_ne.
Qed.

Lemma file_obj_set_file a i o s a' i' :
  file_obj (set_file a i o s) a' i' =
    if decide (a = a' ∧ i = i') then o else file_obj s a' i'.
Proof.
  unfold file_obj. simpl. case_decide as H.
  - destruct H as [-> ->]. by rewrite lookup_insert_eq.
  - rewrite lookup_insert_ne; [done|]. intros [= -> ->]. by apply H.
Qed.

Lemma lookup_workers_insert (ws : list WorkerPc) w pc pc' w' pc'' :
  ws !! w = Some pc →
  <[w := pc']> ws !! w' = Some pc'' ↔
  (w' = w ∧ pc'' = pc') ∨ (w' ≠ w ∧ ws !! w' = Some pc'').
Proof.
  intros Hw. destruct (decide (w' = w)) as [->|Hne].
  - rewrite list_lookup_insert_eq by (by eapply lookup_lt_Some). naive_solver.
  - rewrite list_lookup_insert_ne by done. naive_solver.
Qed.


Lemma job_done_set_arch a o s j :
  job_done (set_arch a o s) j =
    match j with
    | JArch a' => if decide (a = a') then a_done o else job_done s j
    | JFile _ _ => job_done s j
    end.
Proof. destruct j; simpl; [|done]. rewrite arch_obj_set_arch. by case_decide. Qed.

Lemma job_done_set_file a i o s j :
  job_done (set_file a i o s) j =
    match j with
    | JArch _ => job_done s j
    | JFile a' i' => if decide (a = a' ∧ i = i') then f_done o else job_done s j
    end.
Proof. destruct j; simpl; [done|]. rewrite file_obj_set_file. by case_decide. Qed.

Lemma sched_held s w pc a i :
  workers s !! w = Some pc → pc_job pc = Some (JFile a i) → sched s a i.
Proof. intros. right. left. by exists w, pc. Qed.

Ltac split_lookups Hw :=
  repeat match goal with
  | H : <[_ := _]> (workers _) !! _ = Some _ |- _ =>
      apply (lookup_workers_insert _ _ _ _ _ _ Hw) in H as [[-> ->]|[? H]]
  | H : sched (set_worker _ _ _) _ _ |- _ =>
      destruct H as [H|[(?&?&H&?)|H]]; simpl in H
  end.

Ltac st_simpl :=
  repeat first
    [ rewrite arch_obj_set_arch in *
    | rewrite file_obj_set_file in *
    | rewrite job_done_set_arch in *
    | rewrite job_done_set_file in *
    | progress change (file_obj (set_jobC ?q ?s) ?a ?i) with (file_obj s a i) in *
    | progress change (arch_obj (set_jobC ?q ?s) ?a) with (arch_obj s a) in *
    | progress change (job_done (set_jobC ?q ?s) ?j) with (job_done s j) in *
    | progress change (file_obj (set_worker ?w ?pc ?s) ?a ?i) with (file_obj s a i) in *
    | progress change (arch_obj (set_worker ?w ?pc ?s) ?a) with (arch_obj s a) in *
    | progress change (job_done (set_worker ?w ?pc ?s) ?j) with (job_done s j) in *
    | progress change (file_obj (set_arch ?x ?o ?s) ?a ?i) with (file_obj s a i) in *
    | progress change (arch_obj (set_file ?x ?y ?o ?s) ?a) with (arch_obj s a) in * ].



(** What one statement of a worker changes in the store. *)
Lemma job_done_wstep w s pc pc' s1 evs j :
  wstep w s pc pc' s1 evs →
  job_done s1 j =
    if decide (pc_closes pc = true ∧ pc_job pc = Some j) then true
    else job_done s j.
Proof.
  intros Hs. destruct Hs; st_simpl; simpl;
    try (case_decide as Hc; [by destruct Hc|done]).
  all: destruct j as [a'|a' i']; simpl; repeat case_decide; simpl; try done;
    naive_solver.
Qed.

Lemma workers_wstep w s pc pc' s1 evs :
  wstep w s pc pc' s1 evs → workers s1 = workers s.
Proof. by destruct 1. Qed.

Lemma a_err_wstep w s pc pc' s1 evs a :
  wstep w s pc pc' s1 evs →
  a_err (arch_obj s1 a) =
    match pc with
    | WArchSetErr a' _ err => if decide (a' = a) then err else a_err (arch_obj s a)
    | _ => a_err (arch_obj s a)
    end.
Proof.
  intros Hs. destruct Hs; st_simpl; simpl; try done;
    repeat case_decide; by simplify_eq/=.
Qed.

Section JobsStep.
Variables (w : nat) (s : State) (pc pc' : WorkerPc) (s1 : State) (evs : list Event).
Hypothesis I : InvJobs s.
Hypothesis Hw : workers s !! w = Some pc.
Hypothesis Hs : wstep w s pc pc' s1 evs.

Lemma nodup_wstep : NoDup (jobC (set_worker w pc' s1)).
Proof.
  destruct I as [I1 I2 I3 I4 I5 I6 I7 I8].
  destruct Hs; simpl; try done.
  - rewrite H in I1. by apply NoDup_cons in I1 as [_ ?].
  - apply NoDup_app. split_and!; [done | | apply NoDup_singleton].
    intros j Hj ->%list_elem_of_singleton.
    assert (sched s a i) as Hsc by (by left).
    pose proof (I8 _ _ a i i Hw eq_refl eq_refl Hsc). lia.
Qed.


Lemma pc_job_start_job j : pc_job (start_job j) = Some j.
Proof. by destruct j. Qed.

Lemma held_queue_wstep w' pc'' j :
  workers (set_worker w pc' s1) !! w' = Some pc'' → pc_job pc'' = Some j →
  j ∉ jobC (set_worker w pc' s1).
Proof.
  destruct I as [I1 I2 I3 I4 I5 I6 I7 I8].
  destruct Hs; simpl; intros Hl Hj; split_lookups Hw; simplify_eq/=;
    try (by eapply I2; eauto).
  - rewrite pc_job_start_job in Hj. simplify_eq.
    rewrite H in I1. by apply NoDup_cons in I1 as [? _].
  - intros Hin. eapply I2; [done..|]. rewrite H. by right.
  - rewrite elem_of_app, list_elem_of_singleton.
    intros [?|?]; [by eapply I2 | done].
  - rewrite elem_of_app, list_elem_of_singleton.
    intros [?| ->]; [by eapply I2|].
    assert (sched s a i) as Hsc by (by eapply sched_held).
    pose proof (I8 _ _ a i i Hw eq_refl eq_refl Hsc). lia.
Qed.


Lemma held_unique_wstep w1 w2 pc1 pc2 j :
  workers (set_worker w pc' s1) !! w1 = Some pc1 →
  workers (set_worker w pc' s1) !! w2 = Some pc2 →
  pc_job pc1 = Some j → pc_job pc2 = Some j → w1 = w2.
Proof.
  destruct I as [I1 I2 I3 I4 I5 I6 I7 I8].
  destruct Hs; simpl; intros Hl1 Hl2 Hj1 Hj2; split_lookups Hw; simplify_eq/=;
    try done; try (by eapply I3; eauto); try (by symmetry; eapply I3; eauto).
  all: rewrite pc_job_start_job in *; simplify_eq.
  all: exfalso; eapply I2; [done..|]; rewrite H; by left.
Qed.


Lemma queue_open_wstep j :
  j ∈ jobC (set_worker w pc' s1) → job_done (set_worker w pc' s1) j = false.
Proof.
  destruct I as [I1 I2 I3 I4 I5 I6 I7 I8].
  change (job_done (set_worker w pc' s1) j) with (job_done s1 j).
  rewrite (job_done_wstep _ _ _ _ _ _ j Hs). simpl. intros Hin.
  case_decide as Hc.
  - destruct Hc as [Hc1 Hc2]. exfalso.
    destruct Hs; simplify_eq/=; by eapply I2.
  - destruct Hs; simpl in *; try (by apply I4).
    + apply I4. rewrite H. by right.
    + apply elem_of_app in Hin as [?| ->%list_elem_of_singleton]; [by apply I4|].
      destruct (f_done (file_obj s a i)) eqn:Hd; [|done].
      assert (sched s a i) as Hsc by (by right; right).
      pose proof (I8 _ _ a i i Hw eq_refl eq_refl Hsc). lia.
Qed.


Lemma pc_open_start_job j : pc_open (start_job j) = true.
Proof. by destruct j. Qed.

Lemma held_open_wstep w' pc'' j :
  workers (set_worker w pc' s1) !! w' = Some pc'' → pc_job pc'' = Some j →
  job_done (set_worker w pc' s1) j = negb (pc_open pc'').
Proof.
  destruct I as [I1 I2 I3 I4 I5 I6 I7 I8].
  change (job_done (set_worker w pc' s1) j) with (job_done s1 j).
  rewrite (job_done_wstep _ _ _ _ _ _ j Hs). simpl.
  rewrite (workers_wstep _ _ _ _ _ _ Hs). intros Hl Hj.
  split_lookups Hw.
  - destruct Hs; simplify_eq/=; try (case_decide as Hc; [by destruct Hc|]);
      try (by pose proof (I5 _ _ _ Hw eq_refl) as Ho; simpl in Ho).
    + rewrite pc_job_start_job in Hj. simplify_eq. rewrite pc_open_start_job.
      apply I4. rewrite H. by left.
    + by destruct Hc.
  - case_decide as Hc; [|by eapply I5].
    destruct Hc as [_ Hc]. by pose proof (I3 _ _ _ _ _ Hw Hl Hc Hj).
Qed.

Lemma fan_err_wstep w' pc'' a :
  workers (set_worker w pc' s1) !! w' = Some pc'' →
  pc_job pc'' = Some (JArch a) → pc_fan pc'' = true →
  a_err (arch_obj (set_worker w pc' s1) a) = None.
Proof.
  destruct I as [I1 I2 I3 I4 I5 I6 I7 I8].
  change (arch_obj (set_worker w pc' s1) a) with (arch_obj s1 a).
  rewrite (a_err_wstep _ _ _ _ _ _ a Hs). simpl.
  rewrite (workers_wstep _ _ _ _ _ _ Hs). intros Hl Hj Hf.
  split_lookups Hw.
  - destruct Hs; simplify_eq/=; try done; try (by eapply (I6 _ _ _ Hw)).
    by destruct j.
  - destruct Hs; try (by eapply I6). case_decide; [|by eapply I6]. subst.
    by pose proof (I3 _ _ _ _ _ Hw Hl eq_refl Hj).
Qed.

(** A file that counts as sent after the statement did so before, unless
    the statement is the send. *)
Lemma sched_wstep a i :
  sched (set_worker w pc' s1) a i →
  sched s a i ∨ ∃ infos, pc = WFanSend a infos i.
Proof.
  destruct I as [I1 I2 I3 I4 I5 I6 I7 I8].
  intros [Hq|[(w'&pc''&Hl&Hj)|Hd]].
  - simpl in Hq. destruct Hs; simpl in Hq; try (by left; left).
    + left. left. rewrite H. by right.
    + apply elem_of_app in Hq as [?|Hq%list_elem_of_singleton]; [by left; left|].
      right. simplify_eq. by eexists.
  - simpl in Hl. rewrite (workers_wstep _ _ _ _ _ _ Hs) in Hl.
    left. split_lookups Hw; [|by eapply sched_held].
    destruct Hs; simplify_eq/=; try (by eapply sched_held).
    rewrite pc_job_start_job in Hj. simplify_eq. left. rewrite H. by left.
  - left. change (job_done (set_worker w pc' s1) (JFile a i) = true) in Hd.
    change (job_done (set_worker w pc' s1) (JFile a i))
      with (job_done s1 (JFile a i)) in Hd.
    rewrite (job_done_wstep _ _ _ _ _ _ _ Hs) in Hd.
    case_decide as Hc; [|by right; right].
    destruct Hc as [_ Hc]. by eapply sched_held.
Qed.

Lemma sched_arch_wstep a i :
  sched (set_worker w pc' s1) a i →
  a_done (arch_obj (set_worker w pc' s1) a) = true ∧
  a_err (arch_obj (set_worker w pc' s1) a) = None.
Proof.
  destruct I as [I1 I2 I3 I4 I5 I6 I7 I8].
  change (arch_obj (set_worker w pc' s1) a) with (arch_obj s1 a).
  change (a_done (arch_obj s1 a)) with (job_done s1 (JArch a)).
  rewrite (a_err_wstep _ _ _ _ _ _ a Hs), (job_done_wstep _ _ _ _ _ _ _ Hs).
  intros [Hsc|[infos ->]]%sched_wstep.
  - destruct (I7 _ _ Hsc) as [Hd He]. split; [by case_decide|].
    destruct Hs; try done. case_decide; [|done]. subst.
    pose proof (I5 _ _ _ Hw eq_refl) as Ho. simpl in Ho. congruence.
  - simpl. pose proof (I5 _ _ _ Hw eq_refl) as Ho.
    pose proof (I6 _ _ _ Hw eq_refl eq_refl). simpl in Ho.
    by split.
Qed.

Lemma sched_limit_wstep w' pc'' a n i :
  workers (set_worker w pc' s1) !! w' = Some pc'' →
  pc_job pc'' = Some (JArch a) → fan_limit pc'' = Some n →
  sched (set_worker w pc' s1) a i → i < n.
Proof.
  destruct I as [I1 I2 I3 I4 I5 I6 I7 I8].
  simpl. rewrite (workers_wstep _ _ _ _ _ _ Hs).
  intros Hl Hj Hn Hsc. apply sched_wstep in Hsc as [Hsc|[infos ->]].
  - split_lookups Hw; [|by eapply I8].
    destruct Hs; simplify_eq/=; try (by eapply (I8 _ _ _ _ _ Hw)).
    + by destruct j.
    + destruct (I7 _ _ Hsc) as [Hd _].
      pose proof (I5 _ _ _ Hw eq_refl) as Ho. simpl in Ho. congruence.
    + pose proof (I8 _ _ _ _ _ Hw eq_refl eq_refl Hsc). lia.
  - inversion Hs; subst. split_lookups Hw; simplify_eq/=; [lia|].
    by pose proof (I3 _ _ _ _ _ Hw Hl eq_refl Hj).
Qed.

Lemma InvJobs_wstep : InvJobs (set_worker w pc' s1).
Proof.
  constructor.
  - apply nodup_wstep.
  - apply held_queue_wstep.
  - apply held_unique_wstep.
  - apply queue_open_wstep.
  - apply held_open_wstep.
  - apply fan_err_wstep.
  - apply sched_arch_wstep.
  - apply sched_limit_wstep.
Qed.

End JobsStep.

Lemma InvJobs_same_store s s' :
  jobC s' = jobC s → workers s' = workers s →
  archObjs s' = archObjs s → fileObjs s' = fileObjs s →
  InvJobs s → InvJobs s'.
Proof.
  destruct s, s'. simpl. intros -> -> -> -> [I1 I2 I3 I4 I5 I6 I7 I8].
  by constructor.
Qed.

Lemma finish_same_store s :
  jobC (finish fl arches s).1 = jobC s ∧ workers (finish fl arches s).1 = workers s ∧
  archObjs (finish fl arches s).1 = archObjs s ∧
  fileObjs (finish fl arches s).1 = fileObjs s.
Proof.
  unfold finish. by destruct (finish_on _ _ _ _ _ _) as [[[? ?] ?] ?].
Qed.

Lemma mstep_same_store s pc s' evs :
  mstep s pc s' evs →
  jobC s' = jobC s ∧ workers s' = workers s ∧
  archObjs s' = archObjs s ∧ fileObjs s' = fileObjs s.
Proof. destruct 1; try done. apply finish_same_store. Qed.

Lemma InvJobs_init procs w0 : InvJobs (init_state arches procs w0).
Proof.
  assert (∀ w pc, workers (init_state arches procs w0) !! w = Some pc → pc = WRecv)
    as Hws.
  { simpl. by intros w pc [-> _]%lookup_replicate. }
  assert (∀ a i, ¬ sched (init_state arches procs w0) a i) as Hns.
  { intros a i [Hq|[(w&pc&Hl&Hj)|Hd]].
    - simpl in Hq. by apply list_elem_of_fmap in Hq as (? & ? & ?).
    - by apply Hws in Hl as ->.
    - done. }
  constructor.
  - simpl. apply NoDup_fmap_2; [by intros ?? [=] | apply NoDup_seq].
  - by intros w pc j ->%Hws.
  - by intros w w' pc pc' j ->%Hws.
  - by intros [].
  - by intros w pc j ->%Hws.
  - by intros w pc a ->%Hws.
  - intros a i Hsc. by apply Hns in Hsc.
  - by intros w pc a n i ->%Hws.
Qed.

Lemma InvJobs_step t s s' evs :
  InvJobs s → step t s = Some (s', evs) → InvJobs s'.
Proof.
  intros I [_ [[_ Hm]|(w & pc & pc' & s1 & _ & Hw & Hs & ->)]]%step_cases.
  - apply mstep_same_store in Hm as (? & ? & ? & ?). by eapply InvJobs_same_store.
  - by eapply InvJobs_wstep.
Qed.

Lemma reach_InvJobs procs w0 s tr :
  reach fl ext arches procs w0 s tr → InvJobs s.
Proof.
  induction 1; [apply InvJobs_init | by eapply InvJobs_step].
Qed.

(** *** The fields hold the results *)

Local Abbreviation arch_result := (arch_result ext arches).
Local Abbreviation file_info := (file_info ext arches).
Local Abbreviation file_result := (file_result ext arches).
Local Abbreviation pc_ok := (pc_ok ext arches).
Local Abbreviation InvVals := (InvVals ext arches).

Lemma file_fields_wstep w s pc pc' s1 evs a i :
  wstep w s pc pc' s1 evs →
  file_fields (file_obj s1 a i) =
    match pc with
    | WFileSet a' i' res =>
        if decide (a' = a ∧ i' = i) then res else file_fields (file_obj s a i)
    | _ => file_fields (file_obj s a i)
    end.
Proof.
  intros Hs. destruct Hs; st_simpl; simpl; try done;
    repeat case_decide; destruct_and?; by simplify_eq/=.
Qed.

Lemma f_info_wstep w s pc pc' s1 evs a i :
  wstep w s pc pc' s1 evs → (∀ infos, pc ≠ WFanInfo a infos i) →
  f_info (file_obj s1 a i) = f_info (file_obj s a i).
Proof.
  intros Hs Hne. destruct Hs; st_simpl; simpl; try done;
    repeat case_decide; try done; destruct_and?; simplify_eq/=; try done.
  by destruct (Hne infos).
Qed.

Section ValsStep.
Variables (w : nat) (s : State) (pc pc' : WorkerPc) (s1 : State) (evs : list Event).
Hypothesis I : InvJobs s.
Hypothesis V : InvVals s.
Hypothesis Hw : workers s !! w = Some pc.
Hypothesis Hs : wstep w s pc pc' s1 evs.

Lemma pc_ok_own : pc_ok (set_worker w pc' s1) pc'.
Proof.
  destruct I as [I1 I2 I3 I4 I5 I6 I7 I8], V as [V1 V2 V3 V4].
  pose proof (V1 _ _ Hw) as Hok.
  destruct Hs; simpl in *; st_simpl; try done.
  - by destruct j.
  - unfold Extract.arch_result. rewrite H. by destruct (processArch ext arch).2.
  - rewrite decide_True by done. simpl. by rewrite <- Hok.
  - by destruct Hok.
  - rewrite decide_True by done. simpl. split; [done|].
    unfold Extract.file_info. rewrite H. simpl. rewrite H0. simpl. by subst.
  - by destruct Hok.
  - unfold Extract.file_result. rewrite H, H0.
    rewrite (V3 a i); [done|]. by eapply sched_held.
  - by rewrite decide_True.
Qed.

Lemma pc_ok_other w' pc'' :
  w' ≠ w → workers s !! w' = Some pc'' → pc_ok (set_worker w pc' s1) pc''.
Proof.
  destruct I as [I1 I2 I3 I4 I5 I6 I7 I8], V as [V1 V2 V3 V4].
  intros Hne Hl. pose proof (V1 _ _ Hl) as Hok.
  destruct pc''; simpl in *; try done.
  - destruct Hok as [? Hok]. split; [done|].
    change (arch_obj (set_worker w pc' s1) a) with (arch_obj s1 a).
    rewrite (a_err_wstep _ _ _ _ _ _ a Hs).
    destruct Hs; try done. case_decide; [|done]. subst.
    by pose proof (I3 _ _ _ _ _ Hw Hl eq_refl eq_refl).
  - destruct Hok as [? Hok]. split; [done|].
    change (file_obj (set_worker w pc' s1) a i) with (file_obj s1 a i).
    rewrite (f_info_wstep _ _ _ _ _ _ a i Hs); [done|].
    intros infos' ->. by pose proof (I3 _ _ _ _ _ Hw Hl eq_refl eq_refl).
  - change (file_obj (set_worker w pc' s1) a i) with (file_obj s1 a i).
    rewrite (file_fields_wstep _ _ _ _ _ _ a i Hs).
    destruct Hs; try done. case_decide as Hc; [|done]. destruct Hc as [-> ->].
    by pose proof (I3 _ _ _ _ _ Hw Hl eq_refl eq_refl).
Qed.

Lemma arch_val_wstep a :
  a_done (arch_obj (set_worker w pc' s1) a) = true →
  a_err (arch_obj (set_worker w pc' s1) a) = (arch_result a).2.
Proof.
  destruct I as [I1 I2 I3 I4 I5 I6 I7 I8], V as [V1 V2 V3 V4].
  change (arch_obj (set_worker w pc' s1) a) with (arch_obj s1 a).
  change (a_done (arch_obj s1 a)) with (job_done s1 (JArch a)).
  rewrite (a_err_wstep _ _ _ _ _ _ a Hs), (job_done_wstep _ _ _ _ _ _ _ Hs).
  pose proof (V1 _ _ Hw) as Hok.
  case_decide as Hc.
  - intros _. destruct Hc as [Hc1 Hc2]. destruct Hs; simplify_eq/=. by destruct Hok.
  - intros Hd. simpl in Hd. destruct Hs; try (by apply V2).
    case_decide; [|by apply V2]. subst.
    pose proof (I5 _ _ _ Hw eq_refl) as Ho. simpl in Ho. congruence.
Qed.

Lemma file_info_wstep a i :
  sched (set_worker w pc' s1) a i →
  f_info (file_obj (set_worker w pc' s1) a i) = file_info a i.
Proof.
  destruct I as [I1 I2 I3 I4 I5 I6 I7 I8], V as [V1 V2 V3 V4].
  change (file_obj (set_worker w pc' s1) a i) with (file_obj s1 a i).
  pose proof (V1 _ _ Hw) as Hok.
  intros [Hsc|[infos ->]]%(sched_wstep _ _ _ _ _ _ I Hw Hs).
  - rewrite (f_info_wstep _ _ _ _ _ _ a i Hs); [by apply V3|].
    intros infos ->. pose proof (I8 _ _ _ _ _ Hw eq_refl eq_refl Hsc). lia.
  - rewrite (f_info_wstep _ _ _ _ _ _ a i Hs); [|done]. by destruct Hok.
Qed.

Lemma file_val_wstep a i :
  f_done (file_obj (set_worker w pc' s1) a i) = true →
  file_fields (file_obj (set_worker w pc' s1) a i) = file_result a i.
Proof.
  destruct I as [I1 I2 I3 I4 I5 I6 I7 I8], V as [V1 V2 V3 V4].
  change (file_obj (set_worker w pc' s1) a i) with (file_obj s1 a i).
  change (f_done (file_obj s1 a i)) with (job_done s1 (JFile a i)).
  rewrite (file_fields_wstep _ _ _ _ _ _ a i Hs), (job_done_wstep _ _ _ _ _ _ _ Hs).
  pose proof (V1 _ _ Hw) as Hok.
  case_decide as Hc.
  - intros _. destruct Hc as [Hc1 Hc2]. destruct Hs; by simplify_eq/=.
  - intros Hd. simpl in Hd. destruct Hs; try (by apply V4).
    case_decide as Hc'; [|by apply V4]. destruct Hc' as [-> ->].
    pose proof (I5 _ _ _ Hw eq_refl) as Ho. simpl in Ho. congruence.
Qed.

Lemma InvVals_wstep : InvVals (set_worker w pc' s1).
Proof.
  constructor.
  - simpl. rewrite (workers_wstep _ _ _ _ _ _ Hs). intros w' pc'' Hl.
    split_lookups Hw; [apply pc_ok_own | by eapply pc_ok_other].
  - apply arch_val_wstep.
  - apply file_info_wstep.
  - apply file_val_wstep.
Qed.

End ValsStep.

Lemma InvVals_same_store s s' :
  jobC s' = jobC s → workers s' = workers s →
  archObjs s' = archObjs s → fileObjs s' = fileObjs s →
  InvVals s → InvVals s'.
Proof.
  destruct s, s'. simpl. intros -> -> -> -> [V1 V2 V3 V4]. by constructor.
Qed.

Lemma InvVals_init procs w0 : InvVals (init_state arches procs w0).
Proof.
  constructor.
  - simpl. by intros w pc [-> _]%lookup_replicate.
  - done.
  - intros a i Hsc. by apply (inv_sched_arch _ (InvJobs_init procs w0)) in Hsc as [? _].
  - done.
Qed.

Lemma InvVals_step t s s' evs :
  InvJobs s → InvVals s → step t s = Some (s', evs) → InvVals s'.
Proof.
  intros I V [_ [[_ Hm]|(w & pc & pc' & s1 & _ & Hw & Hs & ->)]]%step_cases.
  - apply mstep_same_store in Hm as (? & ? & ? & ?). by eapply InvVals_same_store.
  - by eapply InvVals_wstep.
Qed.

Lemma reach_InvVals procs w0 s tr :
  reach fl ext arches procs w0 s tr → InvVals s.
Proof.
  induction 1 as [|s tr t s' evs Hr IH Hst]; [apply InvVals_init|].
  eapply InvVals_step; [by eapply reach_InvJobs | done..].
Qed.

(** *** [main] keeps to the run without workers *)

Local Abbreviation seq_arch := (seq_arch fl ext arches).
Local Abbreviation seq_file := (seq_file ext arches).
Local Abbreviation seq_collect := (seq_collect fl ext arches).
Local Abbreviation acc_at := (acc_at fl ext arches).
Local Abbreviation main_ready := (main_ready ext arches).
Local Abbreviation InvMain := (InvMain fl ext arches).

Lemma main_events_app tr evs :
  main_events (tr ++ evs) = main_events tr ++ main_events evs.
Proof. apply filter_app. Qed.

Lemma main_events_none evs :
  Forall (λ e, main_event e = false) evs → main_events evs = [].
Proof.
  induction 1 as [|e evs He _ IH]; [done|].
  unfold main_events. rewrite filter_cons_False by congruence. apply IH.
Qed.

Lemma main_events_all evs :
  Forall (λ e, main_event e = true) evs → main_events evs = evs.
Proof.
  induction 1 as [|e evs He _ IH]; [done|].
  unfold main_events. rewrite filter_cons_True by done. f_equal. apply IH.
Qed.

Lemma wstep_events w s pc pc' s1 evs :
  wstep w s pc pc' s1 evs → Forall (λ e, main_event e = false) evs.
Proof.
  destruct 1; repeat constructor; apply Forall_fmap, Forall_true; done.
Qed.

Lemma save_tables_events w tabs :
  Forall (λ e, main_event e = true) (save_tables fl w tabs).1.2.
Proof.
  revert w. induction tabs as [|[file cf] tabs IH]; intros w; simpl; [constructor|].
  case_decide.
  - specialize (IH (os_Remove w (filepath_Join ["sys"; flagOS fl; file +:+ ".const"]))).
    destruct (save_tables fl _ tabs) as [[w' evs] r]. by repeat constructor.
  - destruct (osutil_WriteFile _ _ _) as [w' [err|]]; [by repeat constructor|].
    specialize (IH w'). destruct (save_tables fl _ tabs) as [[w'' evs] r].
    by repeat constructor.
Qed.

Lemma remove_buildDirs_events w l :
  Forall (λ e, main_event e = true) (remove_buildDirs w l).2.
Proof.
  revert w. induction l as [|arch l IH]; intros w; simpl; [constructor|].
  destruct (build arch); [|apply IH].
  specialize (IH (os_RemoveAll w (buildDir arch))).
  destruct (remove_buildDirs _ l) as [w' evs]. by constructor.
Qed.

Lemma check_loads_events : Forall (λ e, main_event e = true) (check_loads arches).
Proof.
  unfold check_loads. apply Forall_concat, Forall_forall.
  intros l (a & arch & -> & _)%elem_of_lookup_imap.
  apply Forall_concat, Forall_forall.
  intros l (i & name & -> & _)%elem_of_lookup_imap. by repeat constructor.
Qed.

Lemma finish_on_events w failed tabs view :
  Forall (λ e, main_event e = true) (finish_on fl arches w failed tabs view).2.
Proof.
  unfold finish_on.
  pose proof (save_tables_events w (range_order ConstFile tabs)) as H1.
  destruct (save_tables fl w _) as [[w1 evs1] [msg|]]; simpl in *.
  { apply Forall_app. split; [done | by repeat constructor]. }
  pose proof (remove_buildDirs_events w1 arches) as H3.
  destruct (remove_buildDirs w1 arches) as [w2 evs3]. simpl in *.
  case_decide.
  - destruct (checkUnsupportedCalls view) as [bad lines]. simpl.
    repeat first [rewrite Forall_app | rewrite Forall_cons].
    split_and!; try done; try apply check_loads_events.
    apply Forall_fmap, Forall_true. done.
  - simpl. by rewrite !Forall_app.
Qed.

Lemma mstep_events s pc s' evs :
  mstep s pc s' evs → Forall (λ e, main_event e = true) evs.
Proof.
  destruct 1; try (by repeat constructor).
  unfold finish. pose proof (finish_on_events (world s) (failed s) (constFiles s)
                               (file_views arches s)) as H.
  by destruct (finish_on _ _ _ _ _ _) as [[[? ?] ?] ?].
Qed.


Lemma take_imap_S {A} (l : list A) n x :
  l !! n = Some x → take (S n) (imap pair l) = take n (imap pair l) ++ [(n, x)].
Proof. intros H. apply take_S_r. by rewrite list_lookup_imap, H. Qed.

Lemma take_imap_all {A} (l : list A) n :
  l !! n = None → take n (imap pair l) = imap pair l.
Proof.
  intros H. apply take_ge. rewrite length_imap. by apply lookup_ge_None.
Qed.

Lemma acc_at_next_arch a arch :
  arches !! a = Some arch →
  acc_at (MArch (S a)) = seq_arch (acc_at (MArch a)) (a, arch).
Proof.
  intros Ha. simpl. by rewrite (take_imap_S _ _ _ Ha), foldl_app.
Qed.

Lemma acc_at_next_file a arch i name :
  arches !! a = Some arch → files arch !! i = Some name →
  acc_at (MFile a (S i)) = seq_file a arch (acc_at (MFile a i)) (i, name).
Proof.
  intros Ha Hi. simpl. rewrite Ha. by rewrite (take_imap_S _ _ _ Hi), foldl_app.
Qed.

Lemma acc_at_last_file a arch i :
  arches !! a = Some arch → files arch !! i = None →
  (arch_result a).2 = None →
  acc_at (MArch (S a)) = acc_at (MFile a i).
Proof.
  intros Ha Hi Hr. rewrite (acc_at_next_arch _ _ Ha). simpl. rewrite Ha.
  unfold Extract.seq_arch. simpl. rewrite Hr. by rewrite (take_imap_all _ _ Hi).
Qed.

Lemma finish_exited s : exited (finish fl arches s).1.
Proof.
  unfold finish, exited. by destruct (finish_on _ _ _ _ _ _) as [[[? ?] ?] ?].
Qed.

Ltac main_fields Hacc Hev :=
  constructor; unfold Extract.main_ready;
  cbn [main_pc set_main set_failed set_constFiles failed constFiles world drained];
  rewrite ?main_events_app, ?(main_events_all _ Hev), ?Hacc;
  cbn [acc_failed acc_tabs acc_evs acc_emit].

Ltac main_easy :=
  try done;
  try match goal with
      | H : constFiles _ = _ |- _ => by rewrite H
      end;
  try match goal with
      | H : main_events _ = _ |- _ => by rewrite H
      end;
  try (by split_and!; try done; eauto).

(** The statements of [main] in the collecting loop. *)
Lemma InvMain_mstep w0 s tr s' evs :
  InvJobs s → InvVals s → InvMain w0 s tr →
  mstep s (main_pc s) s' evs → ¬ exited s' →
  InvMain w0 s' (tr ++ evs).
Proof.
  intros I V [M1 M2 M3 M4 M5 M6] Hm Hne.
  pose proof (mstep_events _ _ _ _ Hm) as Hev.
  unfold Extract.main_ready in M5.
  inversion Hm as [a arch Ha Hpc|a Ha Hpc|a Hd Hpc|a e He Hpc|a He Hpc
                   |a i arch Ha Hi Hpc|a i arch name Ha Hi Hd Hpc
                   |a i arch name e Ha Hi He Hpc|a i arch name Ha Hi He Hpc|Hpc];
    subst s' evs; rewrite <- Hpc in *; clear Hm.
  - assert (acc_at (MWaitArch a) =
            acc_emit [EvPrint (generating fl arch)] (acc_at (MArch a))) as Hacc.
    { simpl. by rewrite Ha. }
    main_fields Hacc Hev; main_easy.
  - assert (acc_at MFinish = acc_at (MArch a)) as Hacc.
    { simpl. unfold Extract.seq_collect. by rewrite (take_imap_all _ _ Ha). }
    main_fields Hacc Hev; rewrite ?app_nil_r; main_easy.
    intros a' i' arch' _ Ha' Hi' Hr. eapply M6; try done. simpl.
    apply lookup_lt_Some in Ha'. apply lookup_ge_None in Ha. lia.
  - destruct M5 as [arch Ha].
    assert (acc_at (MTestArch a) =
            acc_emit [EvWait (JArch a)] (acc_at (MWaitArch a))) as Hacc.
    { simpl. rewrite Ha. unfold acc_emit. simpl. by rewrite <- app_assoc. }
    main_fields Hacc Hev; main_easy.
  - destruct M5 as [[arch Ha] Hd].
    pose proof (inv_arch_val _ _ _ V a Hd) as Hr. rewrite He in Hr.
    assert (acc_at (MArch (S a)) =
            {| acc_failed := true; acc_tabs := acc_tabs (acc_at (MTestArch a));
               acc_evs := acc_evs (acc_at (MTestArch a)) ++
                 [EvLoad Main (JArch a) Ferr; EvPrint (e +:+ nl)] |}) as Hacc.
    { rewrite (acc_at_next_arch _ _ Ha). unfold Extract.seq_arch. simpl.
      rewrite <- Hr, Ha. simpl. by rewrite <- !app_assoc. }
    main_fields Hacc Hev; main_easy.
    intros a' i' arch' Hlt Ha' Hi' Hr'.
    assert (a' < a ∨ a' = a) as [?| ->] by lia; [by eapply M6|]. congruence.
  - destruct M5 as [[arch Ha] Hd].
    pose proof (inv_arch_val _ _ _ V a Hd) as Hr. rewrite He in Hr.
    assert (acc_at (MFile a 0) =
            acc_emit [EvLoad Main (JArch a) Ferr] (acc_at (MTestArch a))) as Hacc.
    { simpl. rewrite Ha. unfold acc_emit. simpl. by rewrite <- app_assoc. }
    main_fields Hacc Hev; main_easy.
    intros a' i' arch' [?|[_ ?]] ???; [by eapply M6 | lia].
  - destruct M5 as (_ & Hd & Hr).
    pose proof (acc_at_last_file _ _ _ Ha Hi Hr) as Hacc.
    main_fields Hacc Hev; rewrite ?app_nil_r; main_easy.
    intros a' i' arch' Hlt Ha' Hi' Hr'. eapply M6; try done. simpl.
    assert (a' < a ∨ a' = a) as [?| ->] by lia; [by left|]. right.
    split; [done|]. simplify_eq. apply lookup_lt_is_Some in Hi'.
    apply lookup_ge_None in Hi. lia.
  - destruct M5 as (_ & Hda & Hr).
    assert (acc_at (MTestFile a i) =
            acc_emit [EvWait (JFile a i)] (acc_at (MFile a i))) as Hacc.
    { simpl. by rewrite Ha. }
    main_fields Hacc Hev; main_easy.
  - destruct M5 as ((arch' & Ha' & _) & Hda & Hr & Hd).
    pose proof (inv_file_val _ _ _ V a i Hd) as Hf. unfold file_fields in Hf.
    assert ((file_result a i).2 = Some e) as Hfe by (by rewrite <- Hf).
    assert (acc_at (MFile a (S i)) =
            {| acc_failed := true; acc_tabs := acc_tabs (acc_at (MTestFile a i));
               acc_evs := acc_evs (acc_at (MTestFile a i)) ++
                 [EvLoad Main (JFile a i) Ferr;
                  EvPrint (name +:+ ": " +:+ e +:+ nl)] |}) as Hacc.
    { rewrite (acc_at_next_file _ _ _ _ Ha Hi). unfold Extract.seq_file.
      cbn [fst snd]. rewrite Hfe. simpl. rewrite Ha. simpl.
      by rewrite <- !app_assoc. }
    main_fields Hacc Hev; main_easy.
    intros a' i' arch'' [?|[-> Hlt]] Ha'' Hi' Hr'; [eapply M6; try done; by left|].
    assert (i' < i ∨ i' = i) as [?| ->] by lia; [|done].
    eapply M6; try done. by right.
  - destruct M5 as ((arch' & Ha' & _) & Hda & Hr & Hd).
    pose proof (inv_file_val _ _ _ V a i Hd) as Hf. unfold file_fields in Hf.
    assert ((file_result a i).2 = None) as Hfe by (by rewrite <- Hf).
    assert (acc_at (MFile a (S i)) =
            {| acc_failed := acc_failed (acc_at (MTestFile a i));
               acc_tabs :=
                 <[name := AddArch
                    (default compiler_NewConstFile
                       (acc_tabs (acc_at (MTestFile a i)) !! name))
                    (Arch (target arch)) (f_consts (file_obj s a i))
                    (f_undeclared (file_obj s a i))]>
                   (acc_tabs (acc_at (MTestFile a i)));
               acc_evs := acc_evs (acc_at (MTestFile a i)) ++
                 [EvLoad Main (JFile a i) Ferr; EvLoad Main (JFile a i) Fconsts;
                  EvLoad Main (JFile a i) Fundeclared] |}) as Hacc.
    { rewrite (acc_at_next_file _ _ _ _ Ha Hi). unfold Extract.seq_file.
      cbn [fst snd]. rewrite Hfe, <- Hf. simpl. rewrite Ha. simpl.
      by rewrite <- !app_assoc. }
    main_fields Hacc Hev; main_easy.
    intros a' i' arch'' [?|[-> Hlt]] Ha'' Hi' Hr'; [eapply M6; try done; by left|].
    assert (i' < i ∨ i' = i) as [?| ->] by lia; [|done].
    eapply M6; try done. by right.
  - destruct Hne. apply finish_exited.
Qed.


Lemma wstep_main_same w s pc pc' s1 evs :
  wstep w s pc pc' s1 evs →
  main_pc s1 = main_pc s ∧ failed s1 = failed s ∧
  constFiles s1 = constFiles s ∧ world s1 = world s.
Proof. by destruct 1. Qed.

Lemma job_done_mono w s pc pc' s1 evs j :
  wstep w s pc pc' s1 evs → job_done s j = true → job_done s1 j = true.
Proof.
  intros Hs Hd. rewrite (job_done_wstep _ _ _ _ _ _ j Hs). by case_decide.
Qed.

Lemma InvMain_wstep w0 s tr w pc pc' s1 evs :
  InvMain w0 s tr → wstep w s pc pc' s1 evs →
  InvMain w0 (set_worker w pc' s1) (tr ++ evs).
Proof.
  intros [M1 M2 M3 M4 M5 M6] Hs.
  destruct (wstep_main_same _ _ _ _ _ _ Hs) as (Hpc & Hf & Ht & Hwo).
  assert (∀ a, a_done (arch_obj s a) = true → a_done (arch_obj s1 a) = true) as Hma.
  { intros a. apply (job_done_mono _ _ _ _ _ _ (JArch a) Hs). }
  assert (∀ a i, f_done (file_obj s a i) = true → f_done (file_obj s1 a i) = true)
    as Hmf.
  { intros a i. apply (job_done_mono _ _ _ _ _ _ (JFile a i) Hs). }
  constructor; unfold Extract.main_ready in *;
    cbn [main_pc set_worker failed constFiles world];
    rewrite ?Hpc, ?Hf, ?Ht, ?Hwo; try done.
  - rewrite main_events_app, (main_events_none evs), app_nil_r; [done|].
    by eapply wstep_events.
  - change (file_obj (set_worker w pc' s1)) with (file_obj s1).
    change (arch_obj (set_worker w pc' s1)) with (arch_obj s1).
    destruct (main_pc s); naive_solver.
  - intros a i arch ????. apply Hmf. by eapply M6.
Qed.

Lemma InvMain_init procs w0 : InvMain w0 (init_state arches procs w0) [].
Proof.
  constructor; try done. intros a i arch Hlt. simpl in Hlt. lia.
Qed.

Lemma step_not_exited t s s' evs : step t s = Some (s', evs) → ¬ exited s.
Proof. by intros [? _]%step_cases. Qed.

Lemma reach_InvMain procs w0 s tr :
  reach fl ext arches procs w0 s tr → ¬ exited s → InvMain w0 s tr.
Proof.
  induction 1 as [|s tr t s' evs Hr IH Hst]; intros Hne; [apply InvMain_init|].
  pose proof (reach_InvJobs _ _ _ _ Hr) as I.
  pose proof (reach_InvVals _ _ _ _ Hr) as V.
  apply step_cases in Hst as [Hne' [[_ Hm]|(w & pc & pc' & s1 & _ & Hw & Hs & ->)]].
  - eapply InvMain_mstep; [done | done | by apply IH | done | done].
  - eapply InvMain_wstep; [by apply IH | done].
Qed.

(** *** The end of [main] *)

(** The files of architectures and the files that ran without error when
    [failed] is still unset at the end of the collecting loop. *)
Lemma seq_file_failed a arch acc f :
  acc_failed (seq_file a arch acc f) = false →
  acc_failed acc = false ∧ (file_result a f.1).2 = None.
Proof. unfold Extract.seq_file. by destruct (file_result a f.1).2. Qed.

Lemma seq_files_failed a arch l :
  ∀ acc, acc_failed (foldl (seq_file a arch) acc l) = false →
         acc_failed acc = false ∧ ∀ f, f ∈ l → (file_result a f.1).2 = None.
Proof.
  induction l as [|f l IH]; intros acc; simpl.
  - intros ?. split; [done|]. by intros ? ?%not_elem_of_nil.
  - intros [[? ?]%seq_file_failed Hl]%IH. split; [done|].
    intros f' [->|?]%elem_of_cons; auto.
Qed.

Lemma seq_arch_failed acc x :
  acc_failed (seq_arch acc x) = false →
  acc_failed acc = false ∧ (arch_result x.1).2 = None ∧
  ∀ f, f ∈ imap pair (files x.2) → (file_result x.1 f.1).2 = None.
Proof.
  unfold Extract.seq_arch. destruct (arch_result x.1).2; [done|].
  by intros [? ?]%seq_files_failed.
Qed.

Lemma seq_arches_failed l :
  ∀ acc, acc_failed (foldl seq_arch acc l) = false →
         acc_failed acc = false ∧
         ∀ x, x ∈ l → (arch_result x.1).2 = None ∧
                ∀ f, f ∈ imap pair (files x.2) → (file_result x.1 f.1).2 = None.
Proof.
  induction l as [|x l IH]; intros acc; simpl.
  - intros ?. split; [done|]. by intros ? ?%not_elem_of_nil.
  - intros [(? & ? & ?)%seq_arch_failed Hl]%IH. split; [done|].
    intros x' [->|?]%elem_of_cons; auto.
Qed.

Lemma seq_collect_ok a arch :
  acc_failed seq_collect = false → arches !! a = Some arch →
  (arch_result a).2 = None ∧
  ∀ i name, files arch !! i = Some name → (file_result a i).2 = None.
Proof.
  intros [_ Hall]%seq_arches_failed Ha.
  destruct (Hall (a, arch)) as [Hr Hf].
  { apply elem_of_lookup_imap. by exists a, arch. }
  split; [done|]. intros i name Hi. apply (Hf (i, name)).
  apply elem_of_lookup_imap. by exists i, name.
Qed.


Local Abbreviation ref_views := (ref_views ext arches).
Local Abbreviation seq_main := (seq_main fl ext arches).

Lemma file_views_ref w0 s tr :
  InvVals s → InvMain w0 s tr → main_pc s = MFinish → failed s = false →
  file_views arches s = ref_views.
Proof.
  intros V [M1 M2 M3 M4 M5 M6] Hpc Hf. rewrite Hpc in *. simpl in M1.
  unfold file_views, Extract.ref_views.
  apply imap_ext. intros a arch Ha. simpl.
  apply imap_ext. intros i name Hi. simpl.
  destruct (seq_collect_ok a arch) as [Hr Hfr]; [congruence | done |].
  assert (f_done (file_obj s a i) = true) as Hd by (by eapply M6).
  pose proof (inv_file_val _ _ _ V a i Hd) as Hv. unfold file_fields in Hv.
  by rewrite <- Hv.
Qed.

Lemma finish_on_view w failed tabs view view' :
  (failed = false → flagArch fl = "" → view = view') →
  finish_on fl arches w failed tabs view = finish_on fl arches w failed tabs view'.
Proof.
  intros Hv. unfold finish_on.
  destruct (save_tables fl w _) as [[w1 evs1] [msg|]]; [done|].
  case_decide as Hc; [|done]. destruct Hc as [Hf Ha]. by rewrite (Hv Hf Ha).
Qed.

(** Refinement: when the program ends after the collecting loop, whatever
    the schedule was, [main] has done what it does run alone on the results
    of the jobs: its events in order, the exit code and the world are those
    of [seq_main]. *)
Lemma reach_exited procs w0 s tr code :
  reach fl ext arches procs w0 s tr → main_pc s = MExited code →
  seq_main w0 = (world s, code, main_events tr).
Proof.
  intros Hr Hpc. destruct Hr as [|s tr t s' evs Hr Hst]; [done|].
  pose proof (reach_InvVals _ _ _ _ Hr) as V.
  pose proof (step_not_exited _ _ _ _ Hst) as Hne.
  pose proof (reach_InvMain _ _ _ _ Hr Hne) as M.
  apply step_cases in Hst as [_ [[_ Hm]|(w & pc & pc' & s1 & _ & Hw & Hs & ->)]].
  - pose proof (mstep_events _ _ _ _ Hm) as Hev.
    rewrite main_events_app, (main_events_all _ Hev).
    inversion Hm as [| | | | | | | | |Hfin]; subst; try done.
    pose proof (file_views_ref _ _ _ V M (eq_sym Hfin)) as Hview.
    destruct M as [M1 M2 M3 M4 M5 M6]. rewrite <- Hfin in *. simpl in M1, M2, M3.
    unfold Extract.seq_main, finish in *.
    rewrite <- M1, <- M2, <- M3, <- M4.
    rewrite (finish_on_view _ _ _ ref_views (file_views arches s));
      [|intros Hf _; symmetry; by apply Hview].
    destruct (finish_on _ _ _ _ _ _) as [[[w' f'] c'] evs']. simpl in *.
    by simplify_eq.
  - destruct (wstep_main_same _ _ _ _ _ _ Hs) as (Hpc' & _).
    simpl in Hpc. rewrite Hpc' in Hpc. unfold exited in Hne. by rewrite Hpc in Hne.
Qed.


(** *** The events against the state *)

Lemma wstep_close_events w s pc pc' s1 evs w' j :
  wstep w s pc pc' s1 evs →
  EvClose w' j ∈ evs ↔ w' = w ∧ pc_closes pc = true ∧ pc_job pc = Some j.
Proof.
  destruct 1; simpl; (split; [|intros (-> & ? & ?); simplify_eq/=; set_solver]).
  all: rewrite ?elem_of_cons, ?list_elem_of_fmap, ?elem_of_nil; naive_solver.
Qed.

Lemma not_main_event_elem evs e :
  Forall (λ e, main_event e = true) evs → main_event e = false → e ∉ evs.
Proof.
  intros Hall He Hin. rewrite Forall_forall in Hall. apply Hall in Hin. congruence.
Qed.

Lemma sched_mono w s pc pc' s1 evs a i :
  InvJobs s → workers s !! w = Some pc → wstep w s pc pc' s1 evs →
  sched s a i → sched (set_worker w pc' s1) a i.
Proof.
  intros I Hw Hs [Hq|[(w'&pc''&Hl&Hj)|Hd]].
  - destruct Hs; try (by left).
    + rewrite H in Hq. apply elem_of_cons in Hq as [<-|Hq]; [|by left].
      right. left. exists w, (WFileRun a i). split; [|done]. simpl.
      apply list_lookup_insert_eq. by eapply lookup_lt_Some.
    + left. simpl. apply elem_of_app. by left.
  - destruct (decide (w' = w)) as [->|Hne].
    + simplify_eq.
      assert (∀ pc0, pc_job pc0 = Some (JFile a i) →
                sched (set_worker w pc0 s1) a i) as Hheld.
      { intros pc0 Hj0. right. left. exists w, pc0. split; [|done]. simpl.
        rewrite (workers_wstep _ _ _ _ _ _ Hs).
        apply list_lookup_insert_eq. by eapply lookup_lt_Some. }
      destruct Hs; simplify_eq/=; try (by apply Hheld).
      right. right. simpl. st_simpl. by rewrite decide_True.
    + right. left. exists w', pc''. split; [|done]. simpl.
      rewrite (workers_wstep _ _ _ _ _ _ Hs). by rewrite list_lookup_insert_ne.
  - right. right. by apply (job_done_mono _ _ _ _ _ _ (JFile a i) Hs).
Qed.


Section TraceStep.
Variables (w : nat) (s : State) (tr : list Event) (pc pc' : WorkerPc)
  (s1 : State) (evs : list Event).
Hypothesis I : InvJobs s.
Hypothesis T : InvTrace s tr.
Hypothesis Hw : workers s !! w = Some pc.
Hypothesis Hs : wstep w s pc pc' s1 evs.

Lemma tr_done_wstep j :
  job_done (set_worker w pc' s1) j = true ↔ ∃ w', EvClose w' j ∈ tr ++ evs.
Proof.
  destruct T as [T1 T2 T3 T4 T5 T6 T7].
  change (job_done (set_worker w pc' s1) j) with (job_done s1 j).
  rewrite (job_done_wstep _ _ _ _ _ _ j Hs).
  setoid_rewrite elem_of_app.
  setoid_rewrite (wstep_close_events _ _ _ _ _ _ _ j Hs).
  case_decide as Hc.
  - split; [|done]. intros _. exists w. right. by destruct Hc.
  - rewrite T1. naive_solver.
Qed.

Lemma tr_stored_wstep w' pc'' j :
  workers (set_worker w pc' s1) !! w' = Some pc'' → pc_job pc'' = Some j →
  match pc'' with
  | WArchClose _ _ | WArchTest _ _ | WFanInfo _ _ _ | WFanSend _ _ _
  | WFileClose _ _ => ∀ fld, fld ∈ result_fields j → EvStore w' j fld ∈ tr ++ evs
  | _ => True
  end.
Proof.
  destruct T as [T1 T2 T3 T4 T5 T6 T7].
  simpl. rewrite (workers_wstep _ _ _ _ _ _ Hs). intros Hl Hj.
  split_lookups Hw.
  - destruct Hs; simplify_eq/=; try done;
      try (intros fld Hfld; apply elem_of_app; left;
           by apply (T2 _ _ _ Hw eq_refl)).
    + by destruct j0.
    + intros fld Hfld. apply elem_of_app. right. set_solver.
    + intros fld Hfld. apply elem_of_app. right. set_solver.
  - pose proof (T2 _ _ _ Hl Hj) as Hold.
    destruct pc''; try done; intros fld Hfld; apply elem_of_app; left; by apply Hold.
Qed.

Lemma tr_closed_wstep w' j fld :
  EvClose w' j ∈ tr ++ evs → fld ∈ result_fields j → EvStore w' j fld ∈ tr ++ evs.
Proof.
  destruct T as [T1 T2 T3 T4 T5 T6 T7].
  intros [Hin|Hin]%elem_of_app Hfld; apply elem_of_app; left; [by apply T3|].
  apply (wstep_close_events _ _ _ _ _ _ _ _ Hs) in Hin as (-> & Hc & Hj).
  pose proof (T2 _ _ _ Hw Hj) as Hold. destruct pc; try done; by apply Hold.
Qed.

Lemma tr_closer_wstep w' pc'' j :
  workers (set_worker w pc' s1) !! w' = Some pc'' → pc_job pc'' = Some j →
  pc_open pc'' = false → EvClose w' j ∈ tr ++ evs.
Proof.
  destruct T as [T1 T2 T3 T4 T5 T6 T7].
  simpl. rewrite (workers_wstep _ _ _ _ _ _ Hs). intros Hl Hj Ho.
  apply elem_of_app. split_lookups Hw; [|left; by eapply T4].
  destruct Hs; simplify_eq/=; try (left; by eapply (T4 _ _ _ Hw)).
  - by destruct j0.
  - right. set_solver.
Qed.

Lemma tr_info_wstep w' a infos i :
  workers (set_worker w pc' s1) !! w' = Some (WFanSend a infos i) →
  EvStore w' (JFile a i) Finfo ∈ tr ++ evs.
Proof.
  destruct T as [T1 T2 T3 T4 T5 T6 T7].
  simpl. rewrite (workers_wstep _ _ _ _ _ _ Hs). intros Hl.
  apply elem_of_app.
  apply (lookup_workers_insert _ _ _ _ _ _ Hw) in Hl as [[-> Heq]|[Hne Hl]];
    [|left; by eapply T5].
  destruct Hs; simplify_eq/=.
  - by destruct j.
  - right. set_solver.
Qed.

Lemma tr_sched_wstep a i :
  sched (set_worker w pc' s1) a i →
  ∃ w', EvClose w' (JArch a) ∈ tr ++ evs ∧
        EvStore w' (JFile a i) Finfo ∈ tr ++ evs ∧
        EvSend (Worker w') (JFile a i) ∈ tr ++ evs.
Proof.
  destruct T as [T1 T2 T3 T4 T5 T6 T7].
  setoid_rewrite elem_of_app.
  intros [Hsc|[infos ->]]%(sched_wstep _ _ _ _ _ _ I Hw Hs).
  - destruct (T6 _ _ Hsc) as (w' & ? & ? & ?). exists w'. auto.
  - exists w. split_and!.
    + left. by eapply T4.
    + left. by eapply T5.
    + right. inversion Hs. set_solver.
Qed.

Lemma tr_file_wstep a i e :
  e ∈ tr ++ evs → file_event a i e → sched (set_worker w pc' s1) a i.
Proof.
  destruct T as [T1 T2 T3 T4 T5 T6 T7].
  intros [Hin|Hin]%elem_of_app He.
  - eapply sched_mono; try done. by eapply T7.
  - assert (∀ pc0, pc_job pc0 = Some (JFile a i) →
              sched (set_worker w pc0 s1) a i) as Hheld.
    { intros pc0 Hj0. right. left. exists w, pc0. split; [|done]. simpl.
      rewrite (workers_wstep _ _ _ _ _ _ Hs).
      apply list_lookup_insert_eq. by eapply lookup_lt_Some. }
    destruct Hs; simpl in Hin;
      rewrite ?elem_of_cons, ?list_elem_of_fmap, ?elem_of_nil in Hin;
      destruct_or?; try (destruct Hin as (? & ? & ?)); simplify_eq/=;
      destruct_and?; simplify_eq/=; try done; try (by apply Hheld).
    + left. simpl. apply elem_of_app. right. by apply list_elem_of_singleton.
    + right. right. simpl. st_simpl. by rewrite decide_True.
Qed.

Lemma InvTrace_wstep : InvTrace (set_worker w pc' s1) (tr ++ evs).
Proof.
  constructor.
  - apply tr_done_wstep.
  - apply tr_stored_wstep.
  - intros w' j Hin fld Hfld. by apply tr_closed_wstep.
  - apply tr_closer_wstep.
  - apply tr_info_wstep.
  - apply tr_sched_wstep.
  - apply tr_file_wstep.
Qed.

End TraceStep.


Lemma save_tables_io w tabs :
  Forall (λ e, io_event e = true) (save_tables fl w tabs).1.2.
Proof.
  revert w. induction tabs as [|[file cf] tabs IH]; intros w; simpl; [constructor|].
  case_decide.
  - specialize (IH (os_Remove w (filepath_Join ["sys"; flagOS fl; file +:+ ".const"]))).
    destruct (save_tables fl _ tabs) as [[w' evs] r]. by repeat constructor.
  - destruct (osutil_WriteFile _ _ _) as [w' [err|]]; [by repeat constructor|].
    specialize (IH w'). destruct (save_tables fl _ tabs) as [[w'' evs] r].
    by repeat constructor.
Qed.

Lemma remove_buildDirs_io w l :
  Forall (λ e, io_event e = true) (remove_buildDirs w l).2.
Proof.
  revert w. induction l as [|arch l IH]; intros w; simpl; [constructor|].
  destruct (build arch); [|apply IH].
  specialize (IH (os_RemoveAll w (buildDir arch))).
  destruct (remove_buildDirs _ l) as [w' evs]. by constructor.
Qed.

Lemma io_event_not_file a i e : io_event e = true → ¬ file_event a i e.
Proof. destruct e; simpl; intros ? ?; done. Qed.

Lemma elem_of_concat {A} (x : A) (ls : list (list A)) :
  x ∈ concat ls ↔ ∃ l, x ∈ l ∧ l ∈ ls.
Proof.
  induction ls as [|l ls IH]; simpl.
  - split; [by intros ?%not_elem_of_nil | by intros (? & _ & ?%not_elem_of_nil)].
  - rewrite elem_of_app, IH. set_solver.
Qed.

Lemma check_loads_file a i e :
  e ∈ check_loads arches → file_event a i e →
  ∃ arch name, arches !! a = Some arch ∧ files arch !! i = Some name.
Proof.
  unfold check_loads. intros (l & Hin & (a' & arch & -> & Ha)%elem_of_lookup_imap)%elem_of_concat.
  apply elem_of_concat in Hin as (l & Hin & (i' & name & -> & Hi)%elem_of_lookup_imap).
  intros He. exists arch, name.
  apply elem_of_cons in Hin as [->|Hin]; [by simplify_eq/=|].
  apply list_elem_of_singleton in Hin as ->. by simplify_eq/=.
Qed.

(** The field reads at the end of [main] are those of the check, which
    runs only when [failed] is unset. *)
Lemma finish_on_file w failed tabs view a i e :
  e ∈ (finish_on fl arches w failed tabs view).2 → file_event a i e →
  failed = false ∧ flagArch fl = "" ∧
  ∃ arch name, arches !! a = Some arch ∧ files arch !! i = Some name.
Proof.
  unfold finish_on.
  pose proof (save_tables_io w (range_order ConstFile tabs)) as H1.
  destruct (save_tables fl w _) as [[w1 evs1] [msg|]]; simpl in *.
  { intros [Hin|Hin]%elem_of_app He; exfalso.
    - rewrite Forall_forall in H1. by eapply io_event_not_file; [apply H1|].
    - apply list_elem_of_singleton in Hin as ->. done. }
  pose proof (remove_buildDirs_io w1 arches) as H3.
  destruct (remove_buildDirs w1 arches) as [w2 evs3]. simpl in *.
  rewrite Forall_forall in H1, H3.
  case_decide as Hc.
  - destruct (checkUnsupportedCalls view) as [bad lines]. simpl.
    repeat first [rewrite elem_of_app | rewrite elem_of_cons].
    intros [Hin|[Hin|[[Hin|Hin]|Hin]]] He.
    + exfalso. by eapply io_event_not_file; [apply H1|].
    + by subst.
    + destruct Hc. split_and!; try done. by eapply check_loads_file.
    + apply list_elem_of_fmap in Hin as (? & -> & _). done.
    + exfalso. by eapply io_event_not_file; [apply H3|].
  - simpl. rewrite !elem_of_app. intros [Hin|Hin] He; exfalso.
    + by eapply io_event_not_file; [apply H1|].
    + by eapply io_event_not_file; [apply H3|].
Qed.

Lemma sched_same_store s s' a i :
  jobC s' = jobC s → workers s' = workers s → fileObjs s' = fileObjs s →
  sched s a i → sched s' a i.
Proof.
  unfold sched, held, file_obj. by intros -> -> ->.
Qed.

Lemma job_done_same_store s s' j :
  archObjs s' = archObjs s → fileObjs s' = fileObjs s →
  job_done s' j = job_done s j.
Proof. unfold job_done, arch_obj, file_obj. by intros -> ->. Qed.

Lemma InvTrace_mstep w0 s tr s' evs :
  InvVals s → InvMain w0 s tr → InvTrace s tr →
  mstep s (main_pc s) s' evs → InvTrace s' (tr ++ evs).
Proof.
  intros V M [T1 T2 T3 T4 T5 T6 T7] Hm.
  pose proof (mstep_events _ _ _ _ Hm) as Hev.
  destruct (mstep_same_store _ _ _ _ Hm) as (Hq & Hws & Hao & Hfo).
  assert (∀ a i, sched s a i → sched s' a i) as Hsc.
  { intros a i. by apply sched_same_store. }
  assert (∀ a i, sched s' a i → sched s a i) as Hsc'.
  { intros a i. by apply sched_same_store. }
  constructor.
  - intros j. rewrite (job_done_same_store s s') by done. rewrite T1.
    setoid_rewrite elem_of_app. split; [naive_solver|].
    intros [w [?|Hin]]; [by exists w|].
    by apply (not_main_event_elem _ _ Hev) in Hin.
  - intros w pc j. rewrite Hws. intros Hl Hj. pose proof (T2 _ _ _ Hl Hj) as Hold.
    destruct pc; try done; intros fld Hfld; apply elem_of_app; left; by apply Hold.
  - intros w j [Hin|Hin]%elem_of_app fld Hfld.
    + apply elem_of_app. left. by apply T3.
    + by apply (not_main_event_elem _ _ Hev) in Hin.
  - intros w pc j. rewrite Hws. intros. apply elem_of_app. left. by eapply T4.
  - intros w a infos i. rewrite Hws. intros. apply elem_of_app. left. by eapply T5.
  - intros a i (w & ? & ? & ?)%Hsc'%T6. exists w. rewrite !elem_of_app. auto.
  - intros a i e [Hin|Hin]%elem_of_app He; [by eapply Hsc, T7|].
    apply Hsc. destruct M as [M1 M2 M3 M4 M5 M6].
    unfold Extract.main_ready in M5.
    inversion Hm as [a0 arch Ha Hpc|a0 Ha Hpc|a0 Hd Hpc|a0 e0 He0 Hpc|a0 He0 Hpc
                     |a0 i0 arch Ha Hi Hpc|a0 i0 arch name Ha Hi Hd Hpc
                     |a0 i0 arch name e0 Ha Hi He0 Hpc|a0 i0 arch name Ha Hi He0 Hpc
                     |Hpc];
      subst s' evs; rewrite <- Hpc in *;
      rewrite ?elem_of_cons, ?elem_of_nil in Hin; destruct_or?;
      simplify_eq/=; destruct_and?; simplify_eq/=; try done;
      try (by right; right); try (by right; right; destruct_and!).
    unfold finish in Hin.
    pose proof (finish_on_file (world s) (failed s) (constFiles s)
                  (file_views arches s) a i e) as Hf.
    destruct (finish_on _ _ _ _ _ _) as [[[? ?] ?] ?]. simpl in *.
    destruct (Hf Hin He) as (Hfl & _ & arch & name & Ha & Hi).
    right. right. eapply M6; try done.
    eapply seq_collect_ok; [|done]. by rewrite <- M1.
Qed.

Lemma InvTrace_init procs w0 : InvTrace (init_state arches procs w0) [].
Proof.
  pose proof (InvJobs_init procs w0) as I.
  assert (∀ w pc, workers (init_state arches procs w0) !! w = Some pc → pc = WRecv)
    as Hws.
  { simpl. by intros w pc [-> _]%lookup_replicate. }
  constructor.
  - intros j. split; [by destruct j|]. by intros [w ?%not_elem_of_nil].
  - by intros w pc j ->%Hws.
  - by intros w j ?%not_elem_of_nil.
  - by intros w pc j ->%Hws.
  - by intros w a infos i ?%Hws.
  - intros a i Hsc. by apply (inv_sched_arch _ I) in Hsc as [? _].
  - by intros a i e ?%not_elem_of_nil.
Qed.

Lemma reach_InvTrace procs w0 s tr :
  reach fl ext arches procs w0 s tr → InvTrace s tr.
Proof.
  induction 1 as [|s tr t s' evs Hr IH Hst]; [apply InvTrace_init|].
  pose proof (reach_InvJobs _ _ _ _ Hr) as I.
  pose proof (reach_InvVals _ _ _ _ Hr) as V.
  apply step_cases in Hst as [Hne [[_ Hm]|(w & pc & pc' & s1 & _ & Hw & Hs & ->)]].
  - eapply InvTrace_mstep; [done | by eapply reach_InvMain | done | done].
  - by eapply InvTrace_wstep.
Qed.


(** The check reads [consts] and [undeclared] of files, nothing else. *)
Lemma finish_on_info w failed tabs view j fld :
  EvLoad Main j fld ∈ (finish_on fl arches w failed tabs view).2 →
  ∃ a i, j = JFile a i ∧ fld ≠ Finfo.
Proof.
  unfold finish_on.
  pose proof (save_tables_io w (range_order ConstFile tabs)) as H1.
  destruct (save_tables fl w _) as [[w1 evs1] [msg|]]; simpl in *.
  { intros [Hin|Hin]%elem_of_app; exfalso.
    - rewrite Forall_forall in H1. by apply H1 in Hin.
    - by apply list_elem_of_singleton in Hin. }
  pose proof (remove_buildDirs_io w1 arches) as H3.
  destruct (remove_buildDirs w1 arches) as [w2 evs3]. simpl in *.
  rewrite Forall_forall in H1, H3.
  assert (EvLoad Main j fld ∈ check_loads arches → ∃ a i, j = JFile a i ∧ fld ≠ Finfo)
    as Hcl.
  { unfold check_loads.
    intros (l & Hin & (a' & arch & -> & Ha)%elem_of_lookup_imap)%elem_of_concat.
    apply elem_of_concat in Hin as (l & Hin & (i' & name & -> & Hi)%elem_of_lookup_imap).
    exists a', i'. apply elem_of_cons in Hin as [?|Hin]; [by simplify_eq|].
    apply list_elem_of_singleton in Hin. by simplify_eq. }
  case_decide as Hc.
  - destruct (checkUnsupportedCalls view) as [bad lines]. simpl.
    repeat first [rewrite elem_of_app | rewrite elem_of_cons].
    intros [Hin|[Hin|[[Hin|Hin]|Hin]]]; try done.
    + by apply H1 in Hin.
    + by apply Hcl.
    + by apply list_elem_of_fmap in Hin as (? & ? & _).
    + by apply H3 in Hin.
  - simpl. rewrite !elem_of_app. intros [Hin|Hin].
    + by apply H1 in Hin.
    + by apply H3 in Hin.
Qed.


(** *** Runs *)

Local Abbreviation run := (run fl ext arches).
Local Abbreviation reach := (reach fl ext arches).

Lemma run_reach procs w0 sched :
  ∀ s tr s' tr', reach procs w0 s tr → run sched s = Some (s', tr') →
                 reach procs w0 s' (tr ++ tr').
Proof.
  induction sched as [|t sched IH]; intros s tr s' tr' Hr; simpl.
  - intros [= <- <-]. by rewrite app_nil_r.
  - destruct (step t s) as [[s1 evs]|] eqn:Hst; [|done]. simpl.
    destruct (Extract.run fl ext arches sched s1) as [[s2 evs']|] eqn:Hrun; [|done].
    simpl. intros [= <- <-]. rewrite app_assoc. eapply IH; [|done].
    by eapply reach_step.
Qed.

Lemma run_init_reach procs w0 sched s tr :
  run sched (init_state arches procs w0) = Some (s, tr) → reach procs w0 s tr.
Proof. intros Hrun. eapply (run_reach _ _ _ _ []); [constructor | done]. Qed.

(** An event of a run was emitted by some step from a reachable state; the
    events before it are those up to that state and those the step emitted
    first. *)
Lemma reach_event procs w0 s tr t1 e t2 :
  reach procs w0 s tr → tr = t1 ++ e :: t2 →
  ∃ s0 tr0 t s0' pre post,
    reach procs w0 s0 tr0 ∧ step t s0 = Some (s0', pre ++ e :: post) ∧
    t1 = tr0 ++ pre.
Proof.
  intros Hr. revert t1 t2.
  induction Hr as [|s tr t s' evs Hr IH Hst]; intros t1 t2 Heq.
  - by destruct t1.
  - apply app_eq_app in Heq as [l [[Htr Heq]|[Ht1 Heq]]].
    + destruct l as [|e' l]; simpl in Heq.
      * subst evs. exists s, tr, t, s', [], t2. rewrite app_nil_r in Htr.
        rewrite app_nil_r. by subst.
      * simplify_eq. by eapply IH.
    + exists s, tr, t, s', l, t2. by rewrite Heq in Hst.
Qed.

(** *** What a single statement may emit, and when *)

Lemma store_step procs w0 s tr t s' evs w j fld :
  reach procs w0 s tr → step t s = Some (s', evs) → EvStore w j fld ∈ evs →
  job_done s j = false ∧ (∀ w' j', EvClose w' j' ∉ evs) ∧
  (fld = Finfo →
   ∃ a i infos, j = JFile a i ∧ workers s !! w = Some (WFanInfo a infos i) ∧
                evs = [EvStore w j fld]).
Proof.
  intros Hr Hst Hin.
  pose proof (reach_InvJobs _ _ _ _ Hr) as [I1 I2 I3 I4 I5 I6 I7 I8].
  apply step_cases in Hst as [_ [[_ Hm]|(w0' & pc & pc' & s1 & _ & Hw & Hs & ->)]].
  - by apply (not_main_event_elem _ _ (mstep_events _ _ _ _ Hm)) in Hin.
  - destruct Hs; simpl in Hin;
      rewrite ?elem_of_cons, ?list_elem_of_fmap, ?elem_of_nil in Hin;
      destruct_or?; try (destruct Hin as (? & ? & ?)); simplify_eq/=.
    + split_and!; [|set_solver|done].
      pose proof (I5 _ _ _ Hw eq_refl) as Ho. by simpl in Ho.
    + split_and!; [|set_solver|intros _; by eexists _, _, _].
      destruct (f_done (file_obj s a i)) eqn:Hd; [|done].
      assert (sched s a i) as Hsc by (by right; right).
      pose proof (I8 _ _ _ _ _ Hw eq_refl eq_refl Hsc). lia.
    + split_and!; [|set_solver|done].
      pose proof (I5 _ _ _ Hw eq_refl) as Ho. by simpl in Ho.
    + split_and!; [|set_solver|done].
      pose proof (I5 _ _ _ Hw eq_refl) as Ho. by simpl in Ho.
    + split_and!; [|set_solver|done].
      pose proof (I5 _ _ _ Hw eq_refl) as Ho. by simpl in Ho.
Qed.

Lemma close_step s t s' evs w j :
  step t s = Some (s', evs) → EvClose w j ∈ evs →
  evs = [EvClose w j] ∧
  ∃ pc, t = Worker w ∧ workers s !! w = Some pc ∧ pc_closes pc = true ∧
        pc_job pc = Some j.
Proof.
  intros Hst Hin.
  apply step_cases in Hst as [_ [[_ Hm]|(w' & pc & pc' & s1 & -> & Hw & Hs & ->)]].
  - by apply (not_main_event_elem _ _ (mstep_events _ _ _ _ Hm)) in Hin.
  - pose proof Hin as Hin'.
    apply (wstep_close_events _ _ _ _ _ _ _ _ Hs) in Hin' as (-> & Hc & Hj).
    split; [|by exists pc]. destruct Hs; by simplify_eq/=.
Qed.

(** [main] reads a field of a job only when the job is done. *)
Lemma load_step procs w0 s tr t s' evs j fld :
  reach procs w0 s tr → step t s = Some (s', evs) → EvLoad Main j fld ∈ evs →
  job_done s j = true ∧ fld ≠ Finfo.
Proof.
  intros Hr Hst Hin.
  pose proof (reach_InvVals _ _ _ _ Hr) as V.
  pose proof (reach_InvMain _ _ _ _ Hr (step_not_exited _ _ _ _ Hst))
    as [M1 M2 M3 M4 M5 M6].
  unfold Extract.main_ready in M5.
  apply step_cases in Hst as [_ [[_ Hm]|(w' & pc & pc' & s1 & -> & Hw & Hs & ->)]].
  - inversion Hm as [a0 arch Ha Hpc|a0 Ha Hpc|a0 Hd Hpc|a0 e0 He0 Hpc|a0 He0 Hpc
                     |a0 i0 arch Ha Hi Hpc|a0 i0 arch name Ha Hi Hd Hpc
                     |a0 i0 arch name e0 Ha Hi He0 Hpc|a0 i0 arch name Ha Hi He0 Hpc
                     |Hpc];
      subst s' evs; rewrite <- Hpc in *;
      rewrite ?elem_of_cons, ?elem_of_nil in Hin; destruct_or?;
      simplify_eq/=; destruct_and?; try done.
    unfold finish in Hin.
    pose proof (finish_on_file (world s) (failed s) (constFiles s)
                  (file_views arches s)) as Hf.
    pose proof (finish_on_info (world s) (failed s) (constFiles s)
                  (file_views arches s)) as Hi.
    destruct (finish_on _ _ _ _ _ _) as [[[? ?] ?] ?]. simpl in *.
    destruct (Hi _ _ Hin) as (a & i & -> & Hfld).
    destruct (Hf a i _ Hin eq_refl) as (Hfl & _ & arch & name & Ha & Hn).
    split; [|done]. simpl. eapply M6; try done.
    eapply seq_collect_ok; [|done]. by rewrite <- M1.
  - pose proof (wstep_events _ _ _ _ _ _ Hs) as Hev.
    rewrite Forall_forall in Hev. by apply Hev in Hin.
Qed.


Lemma send_step s t s' evs th j :
  step t s = Some (s', evs) → EvSend th j ∈ evs →
  ∃ w a i infos, th = Worker w ∧ j = JFile a i ∧
                 workers s !! w = Some (WFanSend a infos i) ∧ evs = [EvSend th j].
Proof.
  intros Hst Hin.
  apply step_cases in Hst as [_ [[_ Hm]|(w' & pc & pc' & s1 & -> & Hw & Hs & ->)]].
  - apply (not_main_event_elem _ _ (mstep_events _ _ _ _ Hm)) in Hin; [done|].
    by destruct th.
  - destruct Hs; simpl in Hin;
      rewrite ?elem_of_cons, ?list_elem_of_fmap, ?elem_of_nil in Hin;
      destruct_or?; try (destruct Hin as (? & ? & ?)); simplify_eq/=.
    by eexists _, _, _, _.
Qed.

Lemma singleton_split {A} (pre post : list A) (e e' : A) :
  pre ++ e :: post = [e'] → pre = [] ∧ post = [] ∧ e = e'.
Proof.
  destruct pre as [|x pre]; simpl; [by intros [= -> ->]|].
  intros [= -> Heq]. by destruct pre.
Qed.

(** C1, as the code has it: a worker assigns the result fields of a job
    ([err] of an architecture; [consts], [undeclared], [err] of a file)
    before it closes the job's [done], and no field of the job is assigned
    after the close; [main] reads a field of a job only after the close.
    The [info] of a file is another matter: the worker of the parent
    architecture assigns it after it has closed the [done] of that
    architecture, before the file is sent to the channel, and [main] never
    reads it. *)
Theorem results_published_before_signal procs w0 sch s tr :
  run sch (init_state arches procs w0) = Some (s, tr) →
  (∀ t1 w j t2, tr = t1 ++ EvClose w j :: t2 →
     (∀ fld, fld ∈ result_fields j → EvStore w j fld ∈ t1) ∧
     (∀ w' fld, EvStore w' j fld ∉ t2)) ∧
  (∀ t1 j fld t2, tr = t1 ++ EvLoad Main j fld :: t2 →
     fld ≠ Finfo ∧ ∃ w, EvClose w j ∈ t1) ∧
  (∀ t1 w j t2, tr = t1 ++ EvStore w j Finfo :: t2 →
     ∃ a i, j = JFile a i ∧ EvClose w (JArch a) ∈ t1 ∧
            ∀ th, EvSend th j ∉ t1).
Proof.
  intros Hr%run_init_reach. split_and!.
  - intros t1 w j t2 Heq. split.
    + destruct (reach_event _ _ _ _ _ _ _ Hr Heq)
        as (s0 & tr0 & t & s0' & pre & post & Hr0 & Hst & ->).
      destruct (close_step _ _ _ _ w j Hst) as (Hevs & pc & -> & Hw & Hc & Hj);
        [set_solver|].
      apply singleton_split in Hevs as (-> & -> & _). rewrite app_nil_r.
      pose proof (inv_tr_stored _ _ (reach_InvTrace _ _ _ _ Hr0) _ _ _ Hw Hj) as Hst'.
      by destruct pc.
    + intros w' fld (t2a & t2b & ->)%list_elem_of_split.
      assert (tr = (t1 ++ EvClose w j :: t2a) ++ EvStore w' j fld :: t2b) as Heq'.
      { rewrite Heq. by rewrite <- app_assoc. }
      destruct (reach_event _ _ _ _ _ _ _ Hr Heq')
        as (s0 & tr0 & t & s0' & pre & post & Hr0 & Hst & Ht1).
      destruct (store_step _ _ _ _ _ _ _ w' j fld Hr0 Hst) as (Hd & Hnc & _);
        [set_solver|].
      assert (EvClose w j ∈ tr0 ++ pre) as [Hin|Hin]%elem_of_app
        by (rewrite <- Ht1; set_solver).
      * assert (job_done s0 j = true); [|congruence].
        apply (inv_tr_done _ _ (reach_InvTrace _ _ _ _ Hr0)). by exists w.
      * apply (Hnc w j). set_solver.
  - intros t1 j fld t2 Heq.
    destruct (reach_event _ _ _ _ _ _ _ Hr Heq)
      as (s0 & tr0 & t & s0' & pre & post & Hr0 & Hst & ->).
    destruct (load_step _ _ _ _ _ _ _ j fld Hr0 Hst) as [Hd Hfld]; [set_solver|].
    split; [done|].
    apply (inv_tr_done _ _ (reach_InvTrace _ _ _ _ Hr0)) in Hd as [w Hin].
    exists w. set_solver.
  - intros t1 w j t2 Heq.
    destruct (reach_event _ _ _ _ _ _ _ Hr Heq)
      as (s0 & tr0 & t & s0' & pre & post & Hr0 & Hst & ->).
    destruct (store_step _ _ _ _ _ _ _ w j Finfo Hr0 Hst) as (_ & _ & Hi);
      [set_solver|].
    destruct (Hi eq_refl) as (a & i & infos & -> & Hw & Hevs).
    apply singleton_split in Hevs as (-> & -> & _). rewrite app_nil_r.
    pose proof (reach_InvTrace _ _ _ _ Hr0) as T.
    exists a, i. split_and!; [done | by eapply (inv_tr_closer _ _ T) |].
    intros th Hin.
    assert (sched s0 a i) as Hsc by (by eapply (inv_tr_file _ _ T)).
    pose proof (inv_sched_limit _ (reach_InvJobs _ _ _ _ Hr0) _ _ _ _ _
                  Hw eq_refl eq_refl Hsc). lia.
Qed.

(** C4: a file job is sent to the channel only by a worker, the one that
    has closed the [done] of the parent architecture and has attached the
    file's [info]; the parent ran without error; and it is sent once.  No
    file of an architecture whose run fails is ever sent, received, run,
    closed or read. *)
Theorem file_jobs_follow_parent procs w0 sch s tr :
  run sch (init_state arches procs w0) = Some (s, tr) →
  (∀ t1 th a i t2, tr = t1 ++ EvSend th (JFile a i) :: t2 →
     ∃ w, th = Worker w ∧ EvClose w (JArch a) ∈ t1 ∧
          EvStore w (JFile a i) Finfo ∈ t1 ∧ (arch_result a).2 = None ∧
          ∀ th', EvSend th' (JFile a i) ∉ t1) ∧
  (∀ a err, (arch_result a).2 = Some err →
     ∀ i e, e ∈ tr → ¬ file_event a i e).
Proof.
  intros Hr%run_init_reach. split.
  - intros t1 th a i t2 Heq.
    destruct (reach_event _ _ _ _ _ _ _ Hr Heq)
      as (s0 & tr0 & t & s0' & pre & post & Hr0 & Hst & ->).
    destruct (send_step _ _ _ _ th (JFile a i) Hst)
      as (w & a' & i' & infos & -> & [= <- <-] & Hw & Hevs); [set_solver|].
    apply singleton_split in Hevs as (-> & -> & _). rewrite app_nil_r.
    pose proof (reach_InvTrace _ _ _ _ Hr0) as T.
    pose proof (reach_InvJobs _ _ _ _ Hr0) as I.
    pose proof (reach_InvVals _ _ _ _ Hr0) as V.
    exists w. split_and!; try done.
    + by eapply (inv_tr_closer _ _ T).
    + by eapply (inv_tr_info _ _ T).
    + rewrite <- (inv_arch_val _ _ _ V).
      * by eapply (inv_fan_err _ I).
      * by pose proof (inv_held_open _ I _ _ _ Hw eq_refl).
    + intros th' Hin.
      assert (sched s0 a i) as Hsc by (by eapply (inv_tr_file _ _ T)).
      pose proof (inv_sched_limit _ I _ _ _ _ _ Hw eq_refl eq_refl Hsc). lia.
  - intros a err Herr i e Hin He.
    pose proof (reach_InvTrace _ _ _ _ Hr) as T.
    pose proof (reach_InvJobs _ _ _ _ Hr) as I.
    pose proof (reach_InvVals _ _ _ _ Hr) as V.
    assert (sched s a i) as Hsc by (by eapply (inv_tr_file _ _ T)).
    destruct (inv_sched_arch _ I _ _ Hsc) as [Hd Hnone].
    rewrite (inv_arch_val _ _ _ V _ Hd) in Hnone. congruence.
Qed.


(** *** The run of [main] on its own, spelled out *)

Local Abbreviation file_events := (file_events ext arches).
Local Abbreviation arch_events := (arch_events fl ext arches).
Local Abbreviation collect_events := (collect_events fl ext arches).
Local Abbreviation job_error := (job_error ext arches).
Local Abbreviation drain_order := (drain_order ext arches).

Lemma seq_file_evs a arch acc f :
  acc_evs (seq_file a arch acc f) = acc_evs acc ++ file_events a f.1 f.2.
Proof.
  unfold Extract.seq_file, Extract.file_events.
  by destruct (file_result a f.1).2.
Qed.

Lemma seq_files_evs a arch l :
  ∀ acc, acc_evs (foldl (seq_file a arch) acc l) =
         acc_evs acc ++ concat ((λ f, file_events a f.1 f.2) <$> l).
Proof.
  induction l as [|f l IH]; intros acc; simpl; [by rewrite app_nil_r|].
  by rewrite IH, seq_file_evs, <- app_assoc.
Qed.

Lemma seq_arch_evs acc x :
  acc_evs (seq_arch acc x) = acc_evs acc ++ arch_events x.1 x.2.
Proof.
  unfold Extract.seq_arch, Extract.arch_events.
  destruct (arch_result x.1).2; simpl; [by rewrite <- app_assoc|].
  rewrite seq_files_evs. simpl. rewrite fmap_imap. by rewrite <- app_assoc.
Qed.

Lemma seq_arches_evs l :
  ∀ acc, acc_evs (foldl seq_arch acc l) =
         acc_evs acc ++ concat ((λ x, arch_events x.1 x.2) <$> l).
Proof.
  induction l as [|x l IH]; intros acc; simpl; [by rewrite app_nil_r|].
  by rewrite IH, seq_arch_evs, <- app_assoc.
Qed.

Lemma seq_collect_evs : acc_evs seq_collect = collect_events.
Proof.
  unfold Extract.seq_collect, Extract.collect_events.
  rewrite seq_arches_evs. simpl. by rewrite fmap_imap.
Qed.

Lemma seq_file_failed_iff a arch acc f :
  acc_failed (seq_file a arch acc f) = true ↔
  acc_failed acc = true ∨ ∃ e, (file_result a f.1).2 = Some e.
Proof.
  unfold Extract.seq_file. destruct (file_result a f.1).2; simpl; naive_solver.
Qed.

Lemma seq_files_failed_iff a arch l :
  ∀ acc, acc_failed (foldl (seq_file a arch) acc l) = true ↔
         acc_failed acc = true ∨ ∃ f e, f ∈ l ∧ (file_result a f.1).2 = Some e.
Proof.
  induction l as [|f l IH]; intros acc; simpl.
  - split; [by left|]. intros [?|(? & ? & ?%not_elem_of_nil & _)]; done.
  - rewrite IH, seq_file_failed_iff. set_solver.
Qed.

Lemma seq_arch_failed_iff acc x :
  acc_failed (seq_arch acc x) = true ↔
  acc_failed acc = true ∨ (∃ e, (arch_result x.1).2 = Some e) ∨
  ((arch_result x.1).2 = None ∧
   ∃ f e, f ∈ imap pair (files x.2) ∧ (file_result x.1 f.1).2 = Some e).
Proof.
  unfold Extract.seq_arch. destruct (arch_result x.1).2; simpl; [naive_solver|].
  rewrite seq_files_failed_iff. simpl. naive_solver.
Qed.

Lemma seq_arches_failed_iff l :
  ∀ acc, acc_failed (foldl seq_arch acc l) = true ↔
         acc_failed acc = true ∨
         ∃ x, x ∈ l ∧
           ((∃ e, (arch_result x.1).2 = Some e) ∨
            ((arch_result x.1).2 = None ∧
             ∃ f e, f ∈ imap pair (files x.2) ∧ (file_result x.1 f.1).2 = Some e)).
Proof.
  induction l as [|x l IH]; intros acc; simpl.
  - split; [by left|]. intros [?|(? & ?%not_elem_of_nil & _)]; done.
  - rewrite IH, seq_arch_failed_iff. set_solver.
Qed.

(** [failed] is set in the collecting loop exactly when a job ends with
    an error. *)
Lemma seq_collect_failed : acc_failed seq_collect = true ↔ job_error.
Proof.
  unfold Extract.seq_collect, Extract.job_error.
  rewrite seq_arches_failed_iff. simpl. split.
  - intros [?|([a arch] & (a' & arch' & [= <- <-] & Ha)%elem_of_lookup_imap & H)];
      [done|]. simpl in H.
    destruct H as [[e He]|[Hn ([i name] & e & Hin & He)]]; [left; eauto|].
    apply elem_of_lookup_imap in Hin as (i' & name' & [= <- <-] & Hi).
    right. by exists a, arch, i, name, e.
  - intros [(a & arch & e & Ha & He)|(a & arch & i & name & e & Ha & Hn & Hi & He)];
      right; exists (a, arch); (split; [apply elem_of_lookup_imap; eauto|]); simpl.
    + left. eauto.
    + right. split; [done|]. exists (i, name), e. split; [|done].
      apply elem_of_lookup_imap. eauto.
Qed.

Lemma waits_app l1 l2 : waits (l1 ++ l2) = waits l1 ++ waits l2.
Proof. apply omap_app. Qed.

Lemma waits_concat ls : waits (concat ls) = concat (waits <$> ls).
Proof.
  induction ls as [|l ls IH]; simpl; [done|]. by rewrite waits_app, IH.
Qed.

Lemma concat_imap_singleton {A B} (g : nat → A → B) (l : list A) :
  concat (imap (λ i x, [g i x]) l) = imap g l.
Proof.
  revert g. induction l as [|x l IH]; intros g; simpl; [done|].
  f_equal. apply IH.
Qed.

(** The collecting loop waits for the jobs in [drain_order]. *)
Lemma waits_collect_events : waits collect_events = drain_order.
Proof.
  unfold Extract.collect_events, Extract.drain_order.
  rewrite waits_concat, fmap_imap. f_equal. apply imap_ext.
  intros a arch Ha. simpl. unfold Extract.arch_events. f_equal.
  destruct (arch_result a).2; [done|].
  rewrite waits_concat, fmap_imap.
  rewrite <- (concat_imap_singleton (λ i (_ : string), JFile a i)). f_equal.
  apply imap_ext. intros i name Hi. simpl.
  unfold Extract.file_events. by destruct (file_result a i).2.
Qed.


(** *** The end of [main], spelled out *)

Lemma remove_buildDirs_spec w l :
  (remove_buildDirs w l).2 =
    EvRemoveAll <$> (buildDir <$> filter (λ arch, build arch = true) l).
Proof.
  revert w. induction l as [|arch l IH]; intros w; simpl; [done|].
  destruct (build arch) eqn:Hb.
  - rewrite filter_cons_True by done. simpl.
    specialize (IH (os_RemoveAll w (buildDir arch))).
    destruct (remove_buildDirs _ l) as [w' evs]. simpl in *. by rewrite IH.
  - rewrite filter_cons_False by (by rewrite Hb). apply IH.
Qed.

Lemma save_tables_table_events w tabs :
  Forall (λ e, table_event e = true) (save_tables fl w tabs).1.2.
Proof.
  revert w. induction tabs as [|[file cf] tabs IH]; intros w; simpl; [constructor|].
  case_decide.
  - specialize (IH (os_Remove w (filepath_Join ["sys"; flagOS fl; file +:+ ".const"]))).
    destruct (save_tables fl _ tabs) as [[w' evs] r]. by repeat constructor.
  - destruct (osutil_WriteFile _ _ _) as [w' [err|]]; [by repeat constructor|].
    specialize (IH w'). destruct (save_tables fl _ tabs) as [[w'' evs] r].
    by repeat constructor.
Qed.

(** The loop over [constFiles]: every table is serialized once and removed
    or written, in the order of the iteration, up to the first write that
    fails; that one ends the loop. *)
Lemma save_tables_spec tabs :
  ∀ w,
    ((save_tables fl w tabs).2 = None ∧
     (save_tables fl w tabs).1.2 = concat ((λ t, save_one fl t.1 t.2) <$> tabs)) ∨
    (∃ visited file cf rest err,
       tabs = visited ++ (file, cf) :: rest ∧
       (save_tables fl w tabs).2 = Some ("failed to write output file: " +:+ err) ∧
       length (Serialize cf) ≠ 0 ∧
       (save_tables fl w tabs).1.2 =
         concat ((λ t, save_one fl t.1 t.2) <$> visited) ++ save_one fl file cf).
Proof.
  induction tabs as [|[file cf] tabs IH]; intros w; simpl; [by left|].
  unfold save_one at 1 3. simpl. case_decide as Hlen.
  - pose proof (IH (os_Remove w (filepath_Join ["sys"; flagOS fl; file +:+ ".const"])))
      as IHw.
    destruct (save_tables fl _ tabs) as [[w' evs] r]; simpl in *.
    destruct IHw as [[Hn Hev]|(visited & file' & cf' & rest & err & Ht & Hs & Hl & Hev)];
      subst.
    + by left.
    + right. exists ((file, cf) :: visited), file', cf', rest, err.
      simpl. unfold save_one at 1. simpl. rewrite decide_True by done. by split_and!.
  - destruct (osutil_WriteFile _ _ _) as [w' [err|]] eqn:Hwr; simpl.
    + right. exists [], file, cf, tabs, err. simpl. split_and!; try done.
      unfold save_one. simpl. by rewrite decide_False.
    + pose proof (IH w') as IHw.
      destruct (save_tables fl _ tabs) as [[w'' evs] r]; simpl in *.
      destruct IHw
        as [[Hn Hev]|(visited & file' & cf' & rest & err & Ht & Hs & Hl & Hev)];
        subst.
      * by left.
      * right. exists ((file, cf) :: visited), file', cf', rest, err.
        simpl. unfold save_one at 1. simpl. rewrite decide_False by done.
        by split_and!.
Qed.

(** The shape of the end of [main]: the events of the loop over
    [constFiles]; then either a fatal error, or the check if nothing has
    failed and no architecture was asked for, and the removal of the build
    directories. *)
Lemma finish_on_shape w failed tabs view :
  ∃ w' evs1,
    evs1 = (save_tables fl w (range_order ConstFile tabs)).1.2 ∧
    ((∃ msg, (save_tables fl w (range_order ConstFile tabs)).2 = Some msg ∧
             finish_on fl arches w failed tabs view =
               (w', failed, 1%Z, evs1 ++ [EvFatal msg])) ∨
     ((save_tables fl w (range_order ConstFile tabs)).2 = None ∧
      ((failed = false ∧ flagArch fl = "" ∧
        finish_on fl arches w failed tabs view =
          (w', (checkUnsupportedCalls view).1,
           if (checkUnsupportedCalls view).1 then 1%Z else 0%Z,
           evs1 ++ check_events arches view ++ (EvRemoveAll <$> build_dirs arches))) ∨
       (¬ (failed = false ∧ flagArch fl = "") ∧
        finish_on fl arches w failed tabs view =
          (w', failed, if failed then 1%Z else 0%Z,
           evs1 ++ (EvRemoveAll <$> build_dirs arches)))))).
Proof.
  unfold finish_on, check_events, build_dirs.
  destruct (save_tables fl w _) as [[w1 evs1] [msg|]]; simpl.
  { exists w1, evs1. split; [done|]. left. by exists msg. }
  pose proof (remove_buildDirs_spec w1 arches) as H3.
  destruct (remove_buildDirs w1 arches) as [w2 evs3]. simpl in H3. subst evs3.
  exists w2, evs1. split; [done|]. right. split; [done|].
  case_decide as Hc.
  - left. destruct Hc. split_and!; try done.
    by destruct (checkUnsupportedCalls view) as [bad lines].
  - by right.
Qed.


(** *** Runs that end *)

Lemma finish_constFiles s : constFiles (finish fl arches s).1 = constFiles s.
Proof.
  unfold finish. by destruct (finish_on _ _ _ _ _ _) as [[[? ?] ?] ?].
Qed.

(** A run that has ended consists of a run up to the end of the collecting
    loop, on which [main] has emitted [collect_events], and of the last
    statements of [main] on the tables and results of [seq_collect]. *)
Lemma reach_exited_split procs w0 s tr code :
  reach procs w0 s tr → main_pc s = MExited code →
  ∃ tr0 evs failed',
    tr = tr0 ++ evs ∧ main_events tr0 = collect_events ∧
    finish_on fl arches w0 (acc_failed seq_collect) (acc_tabs seq_collect) ref_views
      = (world s, failed', code, evs) ∧
    constFiles s = acc_tabs seq_collect.
Proof.
  intros Hr Hpc. destruct Hr as [|s tr t s' evs Hr Hst]; [done|].
  pose proof (reach_InvVals _ _ _ _ Hr) as V.
  pose proof (step_not_exited _ _ _ _ Hst) as Hne.
  pose proof (reach_InvMain _ _ _ _ Hr Hne) as M.
  apply step_cases in Hst as [_ [[_ Hm]|(w & pc & pc' & s1 & _ & Hw & Hs & ->)]].
  - inversion Hm as [| | | | | | | | |Hfin]; subst; try done.
    pose proof (file_views_ref _ _ _ V M (eq_sym Hfin)) as Hview.
    destruct M as [M1 M2 M3 M4 M5 M6]. rewrite <- Hfin in *. simpl in M1, M2, M3.
    rewrite finish_constFiles. unfold finish in *.
    rewrite <- M1, <- M2, <- M4, <- seq_collect_evs, <- M3.
    rewrite (finish_on_view _ _ _ ref_views (file_views arches s));
      [|intros Hf _; symmetry; by apply Hview].
    destruct (finish_on _ _ _ _ _ _) as [[[w' f'] c'] evs']. simpl in *.
    simplify_eq. by exists tr, evs', f'.
  - destruct (wstep_main_same _ _ _ _ _ _ Hs) as (Hpc' & _).
    simpl in Hpc. rewrite Hpc' in Hpc. unfold exited in Hne. by rewrite Hpc in Hne.
Qed.

Lemma waits_main_events tr : waits (main_events tr) = waits tr.
Proof.
  induction tr as [|e tr IH]; [done|]. unfold main_events in *.
  destruct (main_event e) eqn:He.
  - rewrite filter_cons_True by done. simpl. by rewrite IH.
  - rewrite filter_cons_False by congruence. rewrite IH. by destruct e as [| | |[]| | | | | | | | | | |].
Qed.

Lemma waits_none evs :
  Forall (λ e, ∀ j, e ≠ EvWait j) evs → waits evs = [].
Proof.
  induction 1 as [|e evs He _ IH]; [done|]. simpl. rewrite IH.
  destruct e; try done. by destruct (He j).
Qed.

Lemma check_loads_loads :
  Forall (λ e, ∃ j fld, e = EvLoad Main j fld) (check_loads arches).
Proof.
  unfold check_loads. apply Forall_concat, Forall_forall.
  intros l (a & arch & -> & _)%elem_of_lookup_imap.
  apply Forall_concat, Forall_forall.
  intros l (i & name & -> & _)%elem_of_lookup_imap. repeat constructor; eauto.
Qed.

Lemma waits_tables evs : Forall (λ e, table_event e = true) evs → waits evs = [].
Proof. intros H. apply waits_none. eapply Forall_impl; [done|]. by intros [] ? ?. Qed.

Lemma waits_removes l : waits (EvRemoveAll <$> l) = [].
Proof. apply waits_none, Forall_fmap, Forall_true. done. Qed.

Lemma waits_check view : waits (check_events arches view) = [].
Proof.
  unfold check_events. simpl. rewrite waits_app.
  rewrite (waits_none (check_loads arches)), (waits_none (EvPrint <$> _)); [done|..].
  - apply Forall_fmap, Forall_true. done.
  - eapply Forall_impl; [apply check_loads_loads|]. by intros ? (? & ? & ->) ?.
Qed.

Lemma finish_on_waits w failed tabs view :
  waits (finish_on fl arches w failed tabs view).2 = [].
Proof.
  pose proof (save_tables_table_events w (range_order ConstFile tabs)) as Ht.
  destruct (finish_on_shape w failed tabs view)
    as (w' & evs1 & -> & [(msg & _ & ->)|[_ [(_ & _ & ->)|(_ & ->)]]]);
    cbn [snd];
    rewrite ?waits_app, ?waits_check, ?waits_removes, (waits_tables _ Ht); done.
Qed.



Lemma elem_of_main_events e tr : e ∈ main_events tr ↔ e ∈ tr ∧ main_event e = true.
Proof. unfold main_events. rewrite list_elem_of_filter. tauto. Qed.

(** The collecting loop prints, waits and reads; it does nothing else. *)
Lemma collect_events_kinds e :
  e ∈ collect_events →
  (∃ l, e = EvPrint l) ∨ (∃ j, e = EvWait j) ∨ (∃ j fld, e = EvLoad Main j fld).
Proof.
  unfold Extract.collect_events.
  intros (l & Hin & (a & arch & -> & Ha)%elem_of_lookup_imap)%elem_of_concat.
  unfold Extract.arch_events in Hin.
  repeat first [rewrite elem_of_app in Hin | rewrite elem_of_cons in Hin].
  destruct Hin as [[?|[?|[?|?%not_elem_of_nil]]]|Hin]; subst; eauto 6; try done.
  destruct (arch_result a).2.
  { apply list_elem_of_singleton in Hin as ->. eauto. }
  apply elem_of_concat in Hin as (l & Hin & (i & name & -> & Hi)%elem_of_lookup_imap).
  unfold Extract.file_events in Hin.
  repeat first [rewrite elem_of_app in Hin | rewrite elem_of_cons in Hin].
  destruct Hin as [[?|[?|?%not_elem_of_nil]]|Hin]; subst; eauto 6; try done.
  destruct (file_result a i).2.
  - apply list_elem_of_singleton in Hin as ->. eauto.
  - repeat first [rewrite elem_of_cons in Hin | rewrite elem_of_nil in Hin].
    destruct Hin as [?|[?|?]]; subst; eauto 6; done.
Qed.

(** An event of the end of [main] in a run that has ended. *)
Lemma exited_late_event procs w0 s tr code e :
  reach procs w0 s tr → main_pc s = MExited code →
  main_event e = true →
  (∀ l, e ≠ EvPrint l) → (∀ j, e ≠ EvWait j) → (∀ j fld, e ≠ EvLoad Main j fld) →
  ∃ failed' evs,
    finish_on fl arches w0 (acc_failed seq_collect) (acc_tabs seq_collect) ref_views
      = (world s, failed', code, evs) ∧
    (e ∈ tr ↔ e ∈ evs).
Proof.
  intros Hr Hpc He H1 H2 H3.
  destruct (reach_exited_split _ _ _ _ _ Hr Hpc)
    as (tr0 & evs & failed' & -> & Hm & Hfin & _).
  exists failed', evs. split; [done|]. rewrite elem_of_app. split; [|by right].
  intros [Hin|?]; [|done].
  assert (e ∈ collect_events) as Hc.
  { rewrite <- Hm. by apply elem_of_main_events. }
  apply collect_events_kinds in Hc as [[l ->]|[[j ->]|(j & fld & ->)]]; naive_solver.
Qed.

Lemma not_job_error : acc_failed seq_collect = false ↔ ¬ job_error.
Proof.
  rewrite <- seq_collect_failed. by destruct (acc_failed seq_collect).
Qed.

Lemma table_not_elem e evs :
  Forall (λ e, table_event e = true) evs → table_event e = false → e ∉ evs.
Proof.
  intros Hall He Hin. rewrite Forall_forall in Hall. apply Hall in Hin. congruence.
Qed.

Lemma check_events_no_fatal view msg : EvFatal msg ∉ check_events arches view.
Proof.
  unfold check_events. rewrite elem_of_cons, elem_of_app, list_elem_of_fmap.
  intros [?|[Hin|(? & ? & _)]]; try done.
  pose proof check_loads_loads as Hl. rewrite Forall_forall in Hl.
  by apply Hl in Hin as (? & ? & ?).
Qed.

(** C9: the check is called exactly when no job has ended with an error,
    no architecture was asked for and no write has failed: one failing job
    is enough for the check not to be called. *)
Theorem check_needs_clean_run procs w0 sch s tr code :
  run sch (init_state arches procs w0) = Some (s, tr) →
  main_pc s = MExited code →
  (EvCheck ∈ tr ↔ (¬ job_error) ∧ flagArch fl = "" ∧ ∀ msg, EvFatal msg ∉ tr) ∧
  (job_error → (EvCheck ∉ tr) ∧ code = 1%Z).
Proof.
  intros Hr%run_init_reach Hpc.
  destruct (exited_late_event _ _ _ _ _ EvCheck Hr Hpc)
    as (failed' & evs & Hfin & Hck); try done.
  assert (∀ msg, EvFatal msg ∈ tr ↔ EvFatal msg ∈ evs) as Hft.
  { intros msg. destruct (exited_late_event _ _ _ _ _ (EvFatal msg) Hr Hpc)
      as (failed'' & evs' & Hfin' & ?); try done.
    rewrite Hfin in Hfin'. by simplify_eq. }
  pose proof (save_tables_table_events w0
                (range_order ConstFile (acc_tabs seq_collect))) as Ht.
  assert (∀ l : list string, EvCheck ∉ (EvRemoveAll <$> l)) as Hr1.
  { intros l (? & ? & _)%list_elem_of_fmap. done. }
  assert (∀ (l : list string) msg, EvFatal msg ∉ (EvRemoveAll <$> l)) as Hr2.
  { intros l msg (? & ? & _)%list_elem_of_fmap. done. }
  destruct (finish_on_shape w0 (acc_failed seq_collect) (acc_tabs seq_collect) ref_views)
    as (w' & evs1 & -> & [(msg & Hs & Heq)|[Hs [(Hf & Ha & Heq)|(Hn & Heq)]]]);
    rewrite Heq in Hfin; simplify_eq.
  - assert (EvCheck ∉ tr) as Hno.
    { rewrite Hck, elem_of_app, list_elem_of_singleton.
      intros [?%(table_not_elem _ _ Ht)|?]; done. }
    split; [|by split].
    split; [done|]. intros (_ & _ & Hnf). destruct (Hnf msg).
    apply Hft. set_solver.
  - apply not_job_error in Hf. split; [|done]. split.
    + intros _. split_and!; try done. intros msg. rewrite Hft, !elem_of_app.
      intros [?%(table_not_elem _ _ Ht)|[?%check_events_no_fatal|?%Hr2]]; done.
    + intros _. apply Hck. unfold check_events. set_solver.
  - assert (EvCheck ∉ tr) as Hno.
    { rewrite Hck, elem_of_app.
      intros [?%(table_not_elem _ _ Ht)|?%Hr1]; done. }
    split.
    + split; [done|]. intros (Hne%not_job_error & Ha & _). by destruct Hn.
    + intros He%seq_collect_failed. by rewrite He.
Qed.




Lemma exited_main_events procs w0 s tr code :
  reach procs w0 s tr → main_pc s = MExited code →
  ∃ evs failed',
    main_events tr = collect_events ++ evs ∧
    finish_on fl arches w0 (acc_failed seq_collect) (acc_tabs seq_collect) ref_views
      = (world s, failed', code, evs).
Proof.
  intros Hr Hpc.
  destruct (reach_exited_split _ _ _ _ _ Hr Hpc)
    as (tr0 & evs & failed' & -> & Hm & Hfin & _).
  exists evs, failed'. split; [|done].
  rewrite main_events_app, Hm. f_equal. apply main_events_all.
  pose proof (finish_on_events w0 (acc_failed seq_collect) (acc_tabs seq_collect)
                ref_views) as H. by rewrite Hfin in H.
Qed.

Lemma after_check_app l rest :
  EvCheck ∉ l → after_check (l ++ EvCheck :: rest) = rest.
Proof.
  induction l as [|e l IH]; [done|]. intros [Hne Hl]%not_elem_of_cons. simpl.
  destruct e; try done; by apply IH.
Qed.

Lemma after_check_none l : EvCheck ∉ l → after_check l = [].
Proof.
  induction l as [|e l IH]; [done|]. intros [Hne Hl]%not_elem_of_cons. simpl.
  destruct e; try done; by apply IH.
Qed.

Lemma prints_app l1 l2 : prints (l1 ++ l2) = prints l1 ++ prints l2.
Proof. apply omap_app. Qed.

Lemma prints_prints lines : prints (EvPrint <$> lines) = lines.
Proof. induction lines as [|l lines IH]; [done|]. simpl. by f_equal. Qed.

Lemma prints_none evs : Forall (λ e, ∀ l, e ≠ EvPrint l) evs → prints evs = [].
Proof.
  induction 1 as [|e evs He _ IH]; [done|]. simpl. rewrite IH.
  destruct e; try done. by destruct (He line).
Qed.

Lemma elem_of_ref_views f :
  f ∈ concat ref_views ↔
  ∃ a arch i file,
    arches !! a = Some arch ∧ files arch !! i = Some file ∧
    f = (file, (file_result a i).1.1, (file_result a i).1.2).
Proof.
  unfold Extract.ref_views. rewrite elem_of_concat. split.
  - intros (l & Hin & (a & arch & -> & Ha)%elem_of_lookup_imap).
    apply elem_of_lookup_imap in Hin as (i & file & -> & Hi). by exists a, arch, i, file.
  - intros (a & arch & i & file & Ha & Hi & ->).
    exists (imap (λ i name, (name, (file_result a i).1.1, (file_result a i).1.2))
              (files arch)).
    split.
    + apply elem_of_lookup_imap. by exists i, file.
    + apply elem_of_lookup_imap. by exists a, arch.
Qed.

(** C3, as the code has it: when no architecture was asked for, no job
    has ended with an error and no write has failed, the check is called
    and prints one line for each name that some file of some architecture
    left undeclared and no file of any architecture resolved, and for no
    other name; the exit code is 1 exactly when there is such a name.
    When an architecture was asked for the check is not called. *)
Theorem unsupported_report procs w0 sch s tr code :
  run sch (init_state arches procs w0) = Some (s, tr) →
  main_pc s = MExited code →
  (flagArch fl = "" → ¬ job_error → (∀ msg, EvFatal msg ∉ tr) →
   EvCheck ∈ tr ∧
   Forall2 (λ line name,
              ∃ a arch i file,
                arches !! a = Some arch ∧ files arch !! i = Some file ∧
                name ∈ dom (file_result a i).1.2 ∧
                line = file +:+ ": " +:+ name
                       +:+ " is unsupported on all arches (typo?)" +:+ nl)
     (prints (after_check (main_events tr)))
     (checkUnsupportedCalls_names ref_views) ∧
   NoDup (checkUnsupportedCalls_names ref_views) ∧
   (∀ name, name ∈ checkUnsupportedCalls_names ref_views ↔
      (∃ a arch i file, arches !! a = Some arch ∧ files arch !! i = Some file ∧
                        name ∈ dom (file_result a i).1.2) ∧
      ¬ (∃ a arch i file, arches !! a = Some arch ∧ files arch !! i = Some file ∧
                          name ∈ dom (file_result a i).1.1)) ∧
   (code = 1%Z ↔ checkUnsupportedCalls_names ref_views ≠ [])) ∧
  (flagArch fl ≠ "" → (EvCheck ∉ tr) ∧ prints (after_check (main_events tr)) = []).
Proof.
  intros Hr%run_init_reach Hpc.
  destruct (exited_main_events _ _ _ _ _ Hr Hpc) as (evs & failed' & Hm & Hfin).
  destruct (exited_late_event _ _ _ _ _ EvCheck Hr Hpc)
    as (failed'' & evs' & Hfin' & Hck); try done.
  rewrite Hfin in Hfin'. symmetry in Hfin'. simplify_eq.
  assert (∀ msg, EvFatal msg ∈ tr ↔ EvFatal msg ∈ evs) as Hft.
  { intros msg. destruct (exited_late_event _ _ _ _ _ (EvFatal msg) Hr Hpc)
      as (failed'' & evs' & Hfin' & ?); try done.
    rewrite Hfin in Hfin'. by simplify_eq. }
  pose proof (save_tables_table_events w0
                (range_order ConstFile (acc_tabs seq_collect))) as Ht.
  assert (EvCheck ∉ collect_events) as Hnc.
  { intros [(? & ?)|[(? & ?)|(? & ? & ?)]]%collect_events_kinds; done. }
  assert (∀ l : list string, EvCheck ∉ (EvRemoveAll <$> l)) as Hr1.
  { intros l (? & ? & _)%list_elem_of_fmap. done. }
  destruct (finish_on_shape w0 (acc_failed seq_collect) (acc_tabs seq_collect) ref_views)
    as (w' & evs1 & -> & [(msg & Hs & Heq)|[Hs [(Hf & Ha & Heq)|(Hn & Heq)]]]);
    rewrite Heq in Hfin; simplify_eq.
  - split.
    + intros _ _ Hnf. destruct (Hnf msg). apply Hft. set_solver.
    + intros _.
      assert (EvCheck ∉ tr) as Hno.
      { rewrite Hck, elem_of_app, list_elem_of_singleton.
        intros [?%(table_not_elem _ _ Ht)|?]; done. }
      split; [done|]. rewrite after_check_none; [done|].
      rewrite Hm, !elem_of_app, list_elem_of_singleton.
      intros [?|[?%(table_not_elem _ _ Ht)|?]]; done.
  - split; [|by intros []]. intros _ _ _.
    destruct (checkUnsupportedCalls_lines ref_views) as [Hbad Hlines].
    split_and!.
    + apply Hck. unfold check_events. set_solver.
    + rewrite Hm. unfold check_events.
      rewrite app_assoc, <- app_comm_cons, after_check_app.
      2:{ rewrite elem_of_app. intros [?|?%(table_not_elem _ _ Ht)]; done. }
      rewrite !prints_app, prints_prints.
      rewrite (prints_none (check_loads arches)), (prints_none (EvRemoveAll <$> _)).
      * rewrite app_nil_r. simpl. eapply Forall2_impl; [done|].
        intros line name (f & (a & arch & i & file & ? & ? & ->)%elem_of_ref_views
                          & ? & ->).
        by exists a, arch, i, file.
      * apply Forall_fmap, Forall_true. done.
      * eapply Forall_impl; [apply check_loads_loads|]. by intros ? (? & ? & ->) ?.
    + apply checkUnsupportedCalls_names_NoDup.
    + intros name. rewrite checkUnsupportedCalls_names_spec.
      setoid_rewrite elem_of_ref_views. split.
      * intros [(f & (a & arch & i & file & ? & ? & ->) & ?) Hno].
        split; [by exists a, arch, i, file|].
        intros (a' & arch' & i' & file' & ? & ? & ?). apply Hno.
        eexists. split; [by exists a', arch', i', file'|done].
      * intros [(a & arch & i & file & ? & ? & ?) Hno].
        split; [eexists; split; [by exists a, arch, i, file|done]|].
        intros (f & (a' & arch' & i' & file' & ? & ? & ->) & ?). apply Hno.
        by exists a', arch', i', file'.
    + rewrite <- Hbad. by destruct (checkUnsupportedCalls ref_views).1.
  - split.
    + intros Ha Hne%not_job_error _. by destruct Hn.
    + intros _.
      assert (EvCheck ∉ tr) as Hno.
      { rewrite Hck, elem_of_app.
        intros [?%(table_not_elem _ _ Ht)|?%Hr1]; done. }
      split; [done|]. rewrite after_check_none; [done|].
      rewrite Hm, !elem_of_app.
      intros [?|[?%(table_not_elem _ _ Ht)|?%Hr1]]; done.
Qed.


Lemma table_events_app l1 l2 :
  table_events (l1 ++ l2) = table_events l1 ++ table_events l2.
Proof. apply filter_app. Qed.

Lemma table_events_all evs :
  Forall (λ e, table_event e = true) evs → table_events evs = evs.
Proof.
  induction 1 as [|e evs He _ IH]; [done|].
  unfold table_events. rewrite filter_cons_True by done. f_equal. apply IH.
Qed.

Lemma table_events_none evs :
  Forall (λ e, table_event e = false) evs → table_events evs = [].
Proof.
  induction 1 as [|e evs He _ IH]; [done|].
  unfold table_events. rewrite filter_cons_False by congruence. apply IH.
Qed.

Lemma table_events_main tr : table_events (main_events tr) = table_events tr.
Proof.
  induction tr as [|e tr IH]; [done|]. unfold table_events, main_events in *.
  destruct (main_event e) eqn:He.
  - rewrite filter_cons_True by done.
    destruct (table_event e) eqn:Ht.
    + rewrite !filter_cons_True by done. by rewrite IH.
    + rewrite !filter_cons_False by congruence. by rewrite IH.
  - rewrite filter_cons_False by congruence. rewrite IH.
    rewrite filter_cons_False; [done|]. by destruct e as [| | |[]| | | | | | | | | | |].
Qed.

Lemma table_events_collect : table_events collect_events = [].
Proof.
  apply table_events_none, Forall_forall.
  by intros e [(? & ->)|[(? & ->)|(? & ? & ->)]]%collect_events_kinds.
Qed.

Lemma table_events_check view : table_events (check_events arches view) = [].
Proof.
  apply table_events_none. unfold check_events.
  apply Forall_cons. split; [done|]. apply Forall_app. split.
  - eapply Forall_impl; [apply check_loads_loads|]. by intros ? (? & ? & ->).
  - apply Forall_fmap, Forall_true. done.
Qed.

Lemma table_events_removes (l : list string) : table_events (EvRemoveAll <$> l) = [].
Proof. apply table_events_none, Forall_fmap, Forall_true. done. Qed.

(** C6, as the code has it: after the collecting loop [main] goes through
    the accumulated tables, each once, in the order of the iteration over
    the map; it serializes the table and removes the [.const] file of that
    name if the bytes are empty (nothing is written then), or else writes
    the bytes to it.  It does so for every table unless a write fails: the
    first failing write ends the run with a fatal error and exit code 1,
    and the tables not yet visited are neither serialized nor written. *)
Theorem tables_saved procs w0 sch s tr code :
  run sch (init_state arches procs w0) = Some (s, tr) →
  main_pc s = MExited code →
  constFiles s = acc_tabs seq_collect ∧
  range_order ConstFile (constFiles s) ≡ₚ map_to_list (constFiles s) ∧
  ((∀ msg, EvFatal msg ∉ tr) →
   table_events tr =
     concat ((λ t, save_one fl t.1 t.2) <$> range_order ConstFile (constFiles s))) ∧
  (∀ msg, EvFatal msg ∈ tr →
     code = 1%Z ∧
     ∃ visited file cf rest,
       range_order ConstFile (constFiles s) = visited ++ (file, cf) :: rest ∧
       length (Serialize cf) ≠ 0 ∧
       table_events tr =
         concat ((λ t, save_one fl t.1 t.2) <$> visited) ++ save_one fl file cf).
Proof.
  intros Hr%run_init_reach Hpc.
  destruct (reach_exited_split _ _ _ _ _ Hr Hpc)
    as (tr0 & evs & failed' & Htr & Hm & Hfin & Htabs).
  assert (∀ msg, EvFatal msg ∈ tr ↔ EvFatal msg ∈ evs) as Hft.
  { intros msg. destruct (exited_late_event _ _ _ _ _ (EvFatal msg) Hr Hpc)
      as (failed'' & evs' & Hfin' & ?); try done.
    rewrite Hfin in Hfin'. by simplify_eq. }
  assert (table_events tr = table_events evs) as Hte.
  { rewrite Htr, table_events_app, <- (table_events_main tr0), Hm.
    by rewrite table_events_collect. }
  rewrite Hte, Htabs. clear Hte.
  pose proof (save_tables_table_events w0
                (range_order ConstFile (acc_tabs seq_collect))) as Ht.
  pose proof (save_tables_spec (range_order ConstFile (acc_tabs seq_collect)) w0)
    as Hspec.
  assert (∀ (l : list string) msg, EvFatal msg ∉ (EvRemoveAll <$> l)) as Hr2.
  { intros l msg (? & ? & _)%list_elem_of_fmap. done. }
  split; [done|]. split; [apply range_order_perm|].
  destruct (finish_on_shape w0 (acc_failed seq_collect) (acc_tabs seq_collect) ref_views)
    as (w' & evs1 & -> & [(msg & Hs & Heq)|[Hs [(Hf & Ha & Heq)|(Hn & Heq)]]]);
    rewrite Heq in Hfin; simplify_eq.
  - split.
    + intros Hnf. destruct (Hnf msg). apply Hft. set_solver.
    + intros _ _. split; [done|].
      destruct Hspec as [[Hnone _]|(visited & file & cf & rest & err & Heq' & _ & Hl & Hev)];
        [congruence|].
      exists visited, file, cf, rest. split_and!; try done.
      rewrite table_events_app, (table_events_all _ Ht). simpl.
      by rewrite app_nil_r.
  - destruct Hspec as [[_ Hev]|(? & ? & ? & ? & ? & _ & ? & _)]; [|congruence].
    split.
    + intros _. rewrite !table_events_app, (table_events_all _ Ht).
      by rewrite table_events_check, table_events_removes, !app_nil_r.
    + intros msg. rewrite Hft, !elem_of_app.
      intros [?%(table_not_elem _ _ Ht)|[?%check_events_no_fatal|?%Hr2]]; done.
  - destruct Hspec as [[_ Hev]|(? & ? & ? & ? & ? & _ & ? & _)]; [|congruence].
    split.
    + intros _. rewrite !table_events_app, (table_events_all _ Ht).
      by rewrite table_events_removes, !app_nil_r.
    + intros msg. rewrite Hft, !elem_of_app.
      intros [?%(table_not_elem _ _ Ht)|?%Hr2]; done.
Qed.


Lemma created_dirs_none evs : (∀ d, EvTempDir d ∉ evs) → created_dirs evs = [].
Proof.
  induction evs as [|e evs IH]; [done|]. intros Hn. simpl. rewrite IH.
  - destruct e; try done. destruct (Hn dir). by left.
  - intros d Hin. apply (Hn d). by right.
Qed.

Lemma removed_dirs_none evs : (∀ d, EvRemoveAll d ∉ evs) → removed_dirs evs = [].
Proof.
  induction evs as [|e evs IH]; [done|]. intros Hn. simpl. rewrite IH.
  - destruct e; try done. destruct (Hn dir). by left.
  - intros d Hin. apply (Hn d). by right.
Qed.

Lemma removed_dirs_app l1 l2 :
  removed_dirs (l1 ++ l2) = removed_dirs l1 ++ removed_dirs l2.
Proof. apply omap_app. Qed.

Lemma created_dirs_app l1 l2 :
  created_dirs (l1 ++ l2) = created_dirs l1 ++ created_dirs l2.
Proof. apply omap_app. Qed.

Lemma removed_dirs_removes (l : list string) : removed_dirs (EvRemoveAll <$> l) = l.
Proof. induction l as [|d l IH]; [done|]. simpl. by f_equal. Qed.

Lemma check_events_kinds view e :
  e ∈ check_events arches view →
  e = EvCheck ∨ (∃ j fld, e = EvLoad Main j fld) ∨ ∃ l, e = EvPrint l.
Proof.
  unfold check_events. rewrite elem_of_cons, elem_of_app, list_elem_of_fmap.
  intros [?|[Hin|(l & -> & _)]]; [by left| |right; right; by exists l].
  pose proof check_loads_loads as Hl. rewrite Forall_forall in Hl.
  right. left. by apply Hl.
Qed.

(** A run that ends without a fatal error ends with the removal of the
    build directories; everything else comes before, all waits included. *)
Lemma exited_clean_split procs w0 s tr code :
  reach procs w0 s tr → main_pc s = MExited code → (∀ msg, EvFatal msg ∉ tr) →
  ∃ tr1, tr = tr1 ++ (EvRemoveAll <$> build_dirs arches) ∧
         waits tr1 = drain_order ∧ (∀ d, EvRemoveAll d ∉ tr1) ∧
         (∀ d, EvTempDir d ∉ tr).
Proof.
  intros Hr Hpc Hnf.
  destruct (reach_exited_split _ _ _ _ _ Hr Hpc)
    as (tr0 & evs & failed' & -> & Hm & Hfin & _).
  pose proof (save_tables_table_events w0
                (range_order ConstFile (acc_tabs seq_collect))) as Ht.
  assert (waits tr0 = drain_order) as Hw0.
  { by rewrite <- waits_main_events, Hm, waits_collect_events. }
  assert (∀ e, main_event e = true → (∀ l, e ≠ EvPrint l) → (∀ j, e ≠ EvWait j) →
               (∀ j fld, e ≠ EvLoad Main j fld) → e ∉ tr0) as Hn0.
  { intros e He H1 H2 H3 Hin.
    assert (e ∈ collect_events) as Hc.
    { rewrite <- Hm. by apply elem_of_main_events. }
    apply collect_events_kinds in Hc as [[l ->]|[[j ->]|(j & fld & ->)]]; naive_solver. }
  assert (∀ (l : list string) d, EvTempDir d ∉ (EvRemoveAll <$> l)) as Hr3.
  { intros l d (? & ? & _)%list_elem_of_fmap. done. }
  destruct (finish_on_shape w0 (acc_failed seq_collect) (acc_tabs seq_collect) ref_views)
    as (w' & evs1 & -> & [(msg & Hs & Heq)|[Hs [(Hf & Ha & Heq)|(Hn & Heq)]]]);
    rewrite Heq in Hfin; simplify_eq.
  - destruct (Hnf msg). set_solver.
  - exists (tr0 ++ (save_tables fl w0 (range_order ConstFile (acc_tabs seq_collect))).1.2
            ++ check_events arches ref_views).
    split_and!.
    + by rewrite <- !app_assoc.
    + by rewrite !waits_app, Hw0, (waits_tables _ Ht), waits_check, !app_nil_r.
    + intros d. rewrite !elem_of_app.
      intros [?%Hn0|[?%(table_not_elem _ _ Ht)|Hin%check_events_kinds]]; try done.
      by destruct Hin as [?|[(? & ? & ?)|(? & ?)]].
    + intros d. rewrite !elem_of_app.
      intros [?%Hn0|[?%(table_not_elem _ _ Ht)|[Hin%check_events_kinds|?%Hr3]]];
        try done.
      by destruct Hin as [?|[(? & ? & ?)|(? & ?)]].
  - exists (tr0 ++ (save_tables fl w0 (range_order ConstFile (acc_tabs seq_collect))).1.2).
    split_and!.
    + by rewrite <- !app_assoc.
    + by rewrite !waits_app, Hw0, (waits_tables _ Ht), !app_nil_r.
    + intros d. rewrite !elem_of_app.
      intros [?%Hn0|?%(table_not_elem _ _ Ht)]; done.
    + intros d. rewrite !elem_of_app.
      intros [?%Hn0|[?%(table_not_elem _ _ Ht)|?%Hr3]]; done.
Qed.

Lemma exited_waits procs w0 s tr code :
  reach procs w0 s tr → main_pc s = MExited code → waits tr = drain_order.
Proof.
  intros Hr Hpc.
  destruct (exited_main_events _ _ _ _ _ Hr Hpc) as (evs & failed' & Hm & Hfin).
  rewrite <- waits_main_events, Hm, waits_app, waits_collect_events.
  pose proof (finish_on_waits w0 (acc_failed seq_collect) (acc_tabs seq_collect)
                ref_views) as H. rewrite Hfin in H. simpl in H.
  by rewrite H, app_nil_r.
Qed.

End MachineFacts.

(** ** The collecting loop at every moment *)

Section CollectFacts.
Context `{E : Env}.
Variables (fl : Flags) (ext : Extractor) (arches : list ArchT).

Local Abbreviation acc_at := (acc_at fl ext arches).
Local Abbreviation seq_arch := (seq_arch fl ext arches).
Local Abbreviation seq_file := (seq_file ext arches).
Local Abbreviation collect_events := (collect_events fl ext arches).
Local Abbreviation drain_order := (drain_order ext arches).
Local Abbreviation arch_result := (arch_result ext arches).
Local Abbreviation file_result := (file_result ext arches).
Local Abbreviation arch_events := (arch_events fl ext arches).
Local Abbreviation file_events := (file_events ext arches).
Local Abbreviation job_error := (job_error ext arches).
Local Abbreviation run := (run fl ext arches).

Lemma imap_via_pair {A B} (g : nat → A → B) (l : list A) :
  imap g l = (λ f, g f.1 f.2) <$> imap pair l.
Proof. rewrite fmap_imap. by apply imap_ext. Qed.

Lemma seq_arches_prefix (l : list (nat * ArchT)) n :
  acc_evs (foldl seq_arch (acc0) (take n l))
    `prefix_of` acc_evs (foldl seq_arch acc0 l).
Proof.
  rewrite <- (take_drop n l) at 2. rewrite foldl_app.
  rewrite (seq_arches_evs _ _ _ (drop n l)). by eexists.
Qed.

Lemma seq_files_prefix a arch (l : list (nat * string)) acc n :
  acc_evs (foldl (seq_file a arch) acc (take n l))
    `prefix_of` acc_evs (foldl (seq_file a arch) acc l).
Proof.
  rewrite <- (take_drop n l) at 2. rewrite foldl_app.
  rewrite (seq_files_evs _ _ _ _ (drop n l)). by eexists.
Qed.

(** What [main] has printed, waited for and read at [pc] is a beginning of
    what it prints, waits for and reads in the whole loop. *)
Lemma acc_at_prefix pc :
  match pc with
  | MArch _ => True
  | MWaitArch a | MTestArch a => is_Some (arches !! a)
  | MFile a _ => is_Some (arches !! a) ∧ (arch_result a).2 = None
  | MTestFile a i =>
      (∃ arch, arches !! a = Some arch ∧ is_Some (files arch !! i)) ∧
      (arch_result a).2 = None
  | MFinish | MExited _ => False
  end →
  acc_evs (acc_at pc) `prefix_of` collect_events.
Proof.
  rewrite <- seq_collect_evs. unfold seq_collect.
  assert (∀ a arch, arches !! a = Some arch →
            ∀ evs, evs `prefix_of` arch_events a arch →
            (acc_evs (foldl seq_arch acc0 (take a (imap pair arches))) ++ evs)
              `prefix_of` acc_evs (foldl seq_arch acc0 (imap pair arches))) as Harch.
  { intros a arch Ha evs Hevs.
    etrans; [|apply (seq_arches_prefix _ (S a))].
    assert (imap pair arches !! a = Some (a, arch)) as Hl.
    { by rewrite list_lookup_imap, Ha. }
    rewrite (take_S_r _ _ _ Hl), foldl_app. simpl.
    rewrite seq_arch_evs. simpl. by apply prefix_app. }
  destruct pc as [a|a|a|a i|a i| |c]; simpl.
  - intros _. apply seq_arches_prefix.
  - intros [arch Ha]. rewrite Ha. simpl. apply (Harch _ _ Ha).
    unfold Extract.arch_events. by eexists.
  - intros [arch Ha]. rewrite Ha. simpl. apply (Harch _ _ Ha).
    unfold Extract.arch_events. by eexists.
  - intros [[arch Ha] Hok]. rewrite Ha.
    rewrite seq_files_evs. cbn [acc_evs acc_emit]. rewrite <- app_assoc.
    apply (Harch _ _ Ha). unfold Extract.arch_events. rewrite Hok.
    apply prefix_app. rewrite (imap_via_pair (file_events a)).
    rewrite <- (take_drop i (imap pair (files arch))) at 2.
    rewrite fmap_app, concat_app. by eexists.
  - intros [(arch & Ha & name & Hi) Hok]. rewrite Ha.
    cbn [acc_evs acc_emit]. rewrite seq_files_evs.
    cbn [acc_evs acc_emit]. rewrite <- !app_assoc.
    apply (Harch _ _ Ha). unfold Extract.arch_events. rewrite Hok.
    apply prefix_app.
    assert (imap pair (files arch) !! i = Some (i, name)) as Hl.
    { by rewrite list_lookup_imap, Hi. }
    rewrite (imap_via_pair (file_events a)).
    rewrite <- (take_drop_middle _ _ _ Hl) at 2.
    rewrite fmap_app, concat_app. simpl.
    apply prefix_app. unfold Extract.file_events. simpl.
    by eexists.
  - done.
  - done.
Qed.

(** While [main] is in the collecting loop its events are a beginning of
    those of the whole loop: lines, waits and reads, nothing else. *)
Lemma running_main_events procs w0 s tr :
  reach fl ext arches procs w0 s tr → ¬ exited s →
  main_events tr `prefix_of` collect_events.
Proof.
  intros Hr Hne. pose proof (reach_InvMain _ _ _ _ _ _ _ Hr Hne) as M.
  rewrite (inv_main_evs _ _ _ _ _ _ M).
  pose proof (inv_main_ready _ _ _ _ _ _ M) as Hrd. unfold main_ready in Hrd.
  unfold exited in Hne.
  destruct (main_pc s) as [a|a|a|a i|a i| |c] eqn:Hpc; [..|done].
  1-5: apply acc_at_prefix; simpl; naive_solver.
  simpl. by rewrite seq_collect_evs.
Qed.

Lemma running_events procs w0 s tr e :
  reach fl ext arches procs w0 s tr → ¬ exited s →
  e ∈ tr → main_event e = true →
  (∃ l, e = EvPrint l) ∨ (∃ j, e = EvWait j) ∨ ∃ j fld, e = EvLoad Main j fld.
Proof.
  intros Hr Hne Hin He.
  destruct (running_main_events _ _ _ _ Hr Hne) as [k Hk].
  apply (collect_events_kinds fl ext arches). rewrite Hk. apply elem_of_app. left.
  by apply elem_of_main_events.
Qed.




End CollectFacts.

(** ** The files written *)

Section TableFacts.
Context `{E : Env}.
Variables (fl : Flags) (ext : Extractor) (arches : list ArchT).

Lemma writes_app l1 l2 : writes (l1 ++ l2) = writes l1 ++ writes l2.
Proof. apply omap_app. Qed.

Lemma writes_none (evs : list Event) :
  (∀ p d, EvWriteFile p d ∉ evs) → writes evs = [].
Proof.
  induction evs as [|e evs IH]; [done|]. intros Hn. simpl. rewrite IH.
  - destruct e; try done. destruct (Hn path data). by left.
  - intros p d Hin. apply (Hn p d). by right.
Qed.

(** The loop over the tables writes what [table_write] says, table after
    table, up to the first write that fails. *)
Lemma save_tables_writes (tabs : list (string * ConstFile)) :
  ∀ w,
    writes (save_tables fl w tabs).1.2 `prefix_of` omap (table_write fl) tabs ∧
    ((save_tables fl w tabs).2 = None →
     writes (save_tables fl w tabs).1.2 = omap (table_write fl) tabs).
Proof.
  induction tabs as [|[file cf] tabs IH]; intros w; [done|].
  assert (omap (table_write fl) ((file, cf) :: tabs) =
          match table_write fl (file, cf) with
          | Some y => y :: omap (table_write fl) tabs
          | None => omap (table_write fl) tabs
          end) as -> by reflexivity.
  set (rest := omap (table_write fl) tabs) in *.
  unfold table_write. simpl. case_decide.
  - specialize (IH (os_Remove w (filepath_Join ["sys"; flagOS fl; file +:+ ".const"]))).
    by destruct (save_tables fl _ tabs) as [[w' evs] r].
  - destruct (osutil_WriteFile _ _ _) as [w' [err|]]; simpl.
    + split; [|done]. apply prefix_cons, prefix_nil.
    + specialize (IH w'). destruct (save_tables fl _ tabs) as [[w'' evs] r].
      simpl in *. destruct IH as [IH1 IH2]. split; [by apply prefix_cons|].
      intros Hr. by rewrite IH2.
Qed.

(** When [main] has ended, every table it has written is a table of the
    collecting loop with its serialization, each written once at most;
    without a fatal error all of them are written. *)
Lemma exited_writes procs w0 s tr code :
  reach fl ext arches procs w0 s tr → main_pc s = MExited code →
  writes tr ⊆+ table_writes fl (acc_tabs (seq_collect fl ext arches)) ∧
  ((∀ msg, EvFatal msg ∉ tr) →
   writes tr ≡ₚ table_writes fl (acc_tabs (seq_collect fl ext arches))).
Proof.
  intros Hr Hpc.
  destruct (reach_exited_split _ _ _ _ _ _ _ _ Hr Hpc)
    as (tr0 & evs & failed' & -> & Hm & Hfin & _).
  assert (writes tr0 = []) as Hw0.
  { apply writes_none. intros p d Hin.
    assert (EvWriteFile p d ∈ collect_events fl ext arches) as Hc.
    { rewrite <- Hm. by apply elem_of_main_events. }
    apply collect_events_kinds in Hc as [[??]|[[??]|(?&?&?)]]; done. }
  set (tabs := acc_tabs (seq_collect fl ext arches)) in *.
  assert (omap (table_write fl) (range_order ConstFile tabs) ≡ₚ table_writes fl tabs)
    as Hperm.
  { unfold table_writes. by rewrite range_order_perm. }
  destruct (save_tables_writes (range_order ConstFile tabs) w0) as [Hpre Hall].
  assert (∀ l : list string, writes (EvRemoveAll <$> l) = []) as Hrm.
  { intros l. apply writes_none. by intros p d (? & ? & _)%list_elem_of_fmap. }
  assert (∀ view, writes (check_events arches view) = []) as Hck.
  { intros view. apply writes_none. intros p d Hin.
    apply check_events_kinds in Hin as [?|[(?&?&?)|[??]]]; done. }
  rewrite writes_app, Hw0. simpl.
  destruct (finish_on_shape fl arches w0 (acc_failed (seq_collect fl ext arches))
              tabs (ref_views ext arches))
    as (w' & evs1 & -> & [(msg & Hs & Heq)|[Hs [(Hf & Ha & Heq)|(Hn & Heq)]]]);
    rewrite Heq in Hfin; simplify_eq.
  - rewrite writes_app. simpl. rewrite app_nil_r. split.
    + rewrite <- Hperm. destruct Hpre as [k ->]. by apply submseteq_inserts_r.
    + intros Hnf. destruct (Hnf msg). set_solver.
  - rewrite !writes_app, Hck, Hrm, !app_nil_r, (Hall Hs).
    split; [|intros _]; by rewrite Hperm.
  - rewrite !writes_app, Hrm, app_nil_r, (Hall Hs).
    split; [|intros _]; by rewrite Hperm.
Qed.

End TableFacts.

(** ** Runs of the pipeline *)

Section RunFacts.
Context `{E : Env}.
Variables (fl : Flags) (ext : Extractor) (arches : list ArchT).

(** X5: No [done] channel is closed twice, so no [close] panics: a worker that
    is about to close the [done] of its job finds it open, and a run has
    at most one close for each job. *)
Theorem no_double_close procs w0 sch s tr :
  run fl ext arches sch (init_state arches procs w0) = Some (s, tr) →
  (∀ w pc j, workers s !! w = Some pc → pc_closes pc = true →
             pc_job pc = Some j → job_done s j = false) ∧
  (∀ t1 w j t2, tr = t1 ++ EvClose w j :: t2 →
     (∀ w', EvClose w' j ∉ t1) ∧ (∀ w', EvClose w' j ∉ t2)).
Proof.
  intros Hr%run_init_reach.
  assert (∀ t1 w j t2, tr = t1 ++ EvClose w j :: t2 → ∀ w', EvClose w' j ∉ t1)
    as Hfirst.
  { intros t1 w j t2 Heq w' Hin.
    edestruct reach_event as (s0 & tr0 & t & s0' & pre & post & Hr0 & Hst & Ht1);
      [exact Hr | exact Heq |]. subst t1.
    assert (EvClose w j ∈ pre ++ EvClose w j :: post) as Hmem by set_solver.
    edestruct close_step as (Hevs & pc & Ht & Hw & Hc & Hj);
      [exact Hst | exact Hmem |]. subst t.
    apply singleton_split in Hevs as (-> & -> & _). rewrite app_nil_r in Hin.
    clear Hmem.
    pose proof (inv_held_open _ (reach_InvJobs _ _ _ _ _ _ _ Hr0) _ _ _ Hw Hj)
      as Ho.
    assert (job_done s0 j = true) as Hd.
    { apply (inv_tr_done _ _ (reach_InvTrace _ _ _ _ _ _ _ Hr0)). eauto. }
    rewrite Hd in Ho. by destruct pc. }
  split.
  - intros w pc j Hw Hc Hj.
    rewrite (inv_held_open _ (reach_InvJobs _ _ _ _ _ _ _ Hr) _ _ _ Hw Hj).
    by destruct pc.
  - intros t1 w j t2 Heq. split; [by eapply Hfirst|].
    intros w' (t2a & t2b & ->)%list_elem_of_split.
    apply (Hfirst (t1 ++ EvClose w j :: t2a) w' j t2b) with w; [|set_solver].
    by rewrite Heq, <- app_assoc.
Qed.

(** The events of the last step of [main] in a run that has ended: the
    events of the tables, then a fatal error, or the events of the check
    if it is called and the removals. *)
Lemma exited_finish_events procs w0 s tr code :
  reach fl ext arches procs w0 s tr → main_pc s = MExited code →
  ∃ tr0 evs1 failed',
    Forall (λ e, table_event e = true) evs1 ∧
    (∀ e, e ∈ tr0 → main_event e = true →
          (∃ l, e = EvPrint l) ∨ (∃ j, e = EvWait j) ∨ ∃ j fld, e = EvLoad Main j fld) ∧
    finish_on fl arches w0 (acc_failed (seq_collect fl ext arches))
      (acc_tabs (seq_collect fl ext arches)) (ref_views ext arches)
      = (world s, failed', code, drop (length tr0) tr) ∧
    ((∃ msg, tr = tr0 ++ evs1 ++ [EvFatal msg] ∧ code = 1%Z) ∨
     (acc_failed (seq_collect fl ext arches) = false ∧ flagArch fl = "" ∧
      tr = tr0 ++ evs1 ++ check_events arches (ref_views ext arches)
              ++ (EvRemoveAll <$> build_dirs arches) ∧
      code = (if (checkUnsupportedCalls (ref_views ext arches)).1 then 1 else 0)%Z) ∨
     (¬ (acc_failed (seq_collect fl ext arches) = false ∧ flagArch fl = "") ∧
      tr = tr0 ++ evs1 ++ (EvRemoveAll <$> build_dirs arches) ∧
      code = (if acc_failed (seq_collect fl ext arches) then 1 else 0)%Z)).
Proof.
  intros Hr Hpc.
  destruct (reach_exited_split _ _ _ _ _ _ _ _ Hr Hpc)
    as (tr0 & evs & failed' & -> & Hm & Hfin & _).
  exists tr0, (save_tables fl w0
                 (range_order ConstFile (acc_tabs (seq_collect fl ext arches)))).1.2,
    failed'.
  split; [apply save_tables_table_events|]. split.
  { intros e Hin He.
    assert (e ∈ collect_events fl ext arches) as Hc.
    { rewrite <- Hm. by apply elem_of_main_events. }
    by apply collect_events_kinds in Hc. }
  rewrite drop_app_length. split; [done|].
  destruct (finish_on_shape fl arches w0 (acc_failed (seq_collect fl ext arches))
              (acc_tabs (seq_collect fl ext arches)) (ref_views ext arches))
    as (w' & evs1 & -> & [(msg & Hs & Heq)|[Hs [(Hf & Ha & Heq)|(Hn & Heq)]]]);
    rewrite Heq in Hfin; simplify_eq.
  - left. by exists msg.
  - right. left. done.
  - right. right. done.
Qed.

(** [os.RemoveAll] is called on nothing but the build directory of an
    architecture made with [-build], and a run that has started calls
    [ioutil.TempDir] no more. *)
Lemma exited_directories procs w0 s tr code :
  reach fl ext arches procs w0 s tr → main_pc s = MExited code →
  (∀ d, EvRemoveAll d ∈ tr → d ∈ build_dirs arches) ∧ (∀ d, EvTempDir d ∉ tr).
Proof.
  intros Hr Hpc.
  destruct (exited_finish_events _ _ _ _ _ Hr Hpc)
    as (tr0 & evs1 & failed' & Ht & H0 & _ & Hcases).
  assert (∀ e, main_event e = true → table_event e = false →
               (∀ l, e ≠ EvPrint l) → (∀ j, e ≠ EvWait j) →
               (∀ j fld, e ≠ EvLoad Main j fld) → e ≠ EvCheck →
               (∀ msg, e ≠ EvFatal msg) →
               e ∈ tr → e ∈ (EvRemoveAll <$> build_dirs arches)) as Hin.
  { intros e He Hte H1 H2 H3 H4 H5.
    assert (e ∉ tr0) as Hn0.
    { intros Hm. apply H0 in Hm as [[??]|[[??]|(?&?&?)]]; naive_solver. }
    assert (e ∉ evs1) as Hn1 by (by apply table_not_elem).
    assert (e ∉ check_events arches (ref_views ext arches)) as Hn2.
    { intros Hm. apply check_events_kinds in Hm as [?|[(?&?&?)|[??]]]; naive_solver. }
    destruct Hcases as [(msg & -> & _)|[(_ & _ & -> & _)|(_ & -> & _)]];
      rewrite !elem_of_app; [|naive_solver..].
    intros [?|[?|Hm]]; [done..|]. apply list_elem_of_singleton in Hm. naive_solver. }
  split.
  - intros d Hd%Hin; try done.
    by apply list_elem_of_fmap in Hd as (d' & [= <-] & ?).
  - intros d Hd%Hin; try done.
    by apply list_elem_of_fmap in Hd as (d' & [=] & ?).
Qed.

(** The exit code of a run in which [main] gets to its end is 0 or 1.  It
    is 1 exactly when a job has ended with an error, or a write of a table
    has failed, or the check has been called (no [-arch]) and has found an
    unsupported name. *)
Lemma exited_code_cases procs w0 sch s tr code :
  run fl ext arches sch (init_state arches procs w0) = Some (s, tr) →
  main_pc s = MExited code →
  (code = 0 ∨ code = 1)%Z ∧
  (code = 1%Z ↔
     job_error ext arches ∨ (∃ msg, EvFatal msg ∈ tr) ∨
     (flagArch fl = "" ∧ checkUnsupportedCalls_names (ref_views ext arches) ≠ [])).
Proof.
  intros Hr%run_init_reach Hpc.
  destruct (exited_finish_events _ _ _ _ _ Hr Hpc)
    as (tr0 & evs1 & failed' & Ht & H0 & _ & Hcases).
  pose proof (seq_collect_failed fl ext arches) as Hje.
  pose proof (proj1 (checkUnsupportedCalls_lines (ref_views ext arches))) as Hck.
  assert (∀ msg, EvFatal msg ∉ tr0) as Hn0.
  { intros msg Hin. apply H0 in Hin as [[??]|[[??]|(?&?&?)]]; done. }
  assert (∀ msg, EvFatal msg ∉ evs1) as Hn1.
  { intros msg. by apply table_not_elem. }
  assert (∀ (l : list string) msg, EvFatal msg ∉ (EvRemoveAll <$> l)) as Hn2.
  { intros l msg (? & ? & _)%list_elem_of_fmap. done. }
  destruct Hcases as [(msg & -> & ->)|[(Hf & Ha & -> & ->)|(Hn & -> & ->)]].
  - split; [by right|]. split; [|done]. intros _. right. left. exists msg.
    set_solver.
  - split; [destruct (checkUnsupportedCalls _).1; [by right|by left]|].
    split.
    + intros Hc. right. right. split; [done|]. apply Hck.
      by destruct (checkUnsupportedCalls _).1.
    + intros [Hj%Hje|[[msg Hin]|[_ Hnames%Hck]]].
      * congruence.
      * rewrite !elem_of_app in Hin.
        destruct Hin as [?%Hn0|[?%Hn1|[?%check_events_no_fatal|?%Hn2]]]; done.
      * by rewrite Hnames.
  - split; [destruct (acc_failed _); [by right|by left]|].
    split.
    + intros Hc. left. apply Hje. by destruct (acc_failed _).
    + intros [Hj%Hje|[[msg Hin]|[Ha Hnames]]].
      * by rewrite Hj.
      * rewrite !elem_of_app in Hin. destruct Hin as [?%Hn0|[?%Hn1|?%Hn2]]; done.
      * destruct (acc_failed _) eqn:Hf; [done|]. destruct Hn. done.
Qed.

Lemma seq_files_tabs a arch (l : list (nat * string)) name :
  ∀ acc,
    is_Some (acc_tabs (foldl (seq_file ext arches a arch) acc l) !! name) ↔
    is_Some (acc_tabs acc !! name) ∨
    ∃ f, f ∈ l ∧ f.2 = name ∧ (file_result ext arches a f.1).2 = None.
Proof.
  induction l as [|f l IH]; intros acc; simpl.
  - split; [by left|]. intros [?|(? & ?%elem_of_nil & _)]; done.
  - rewrite IH. unfold seq_file.
    destruct (file_result ext arches a f.1).2 as [e|] eqn:He; simpl.
    + split.
      * intros [?|(g & ? & ? & ?)]; [by left|]. right. exists g. set_solver.
      * intros [?|(g & [->|?]%elem_of_cons & ? & ?)]; [by left|congruence|].
        right. by exists g.
    + rewrite lookup_insert_is_Some'. split.
      * intros [[<-|?]|(g & ? & ? & ?)]; [|by left|].
        -- right. exists f. set_solver.
        -- right. exists g. set_solver.
      * intros [?|(g & [->|?]%elem_of_cons & ? & ?)]; [by left; right|by left; left|].
        right. by exists g.
Qed.

Lemma seq_arches_tabs (l : list (nat * ArchT)) name :
  ∀ acc,
    is_Some (acc_tabs (foldl (seq_arch fl ext arches) acc l) !! name) ↔
    is_Some (acc_tabs acc !! name) ∨
    ∃ x f, x ∈ l ∧ (arch_result ext arches x.1).2 = None ∧
           f ∈ imap pair (files x.2) ∧ f.2 = name ∧
           (file_result ext arches x.1 f.1).2 = None.
Proof.
  induction l as [|x l IH]; intros acc; simpl.
  - split; [by left|]. intros [?|(? & ? & ?%elem_of_nil & _)]; done.
  - rewrite IH. unfold seq_arch.
    destruct (arch_result ext arches x.1).2 as [e|] eqn:He; simpl.
    + split.
      * intros [?|(y & g & ? & ?)]; [by left|]. right. exists y, g. set_solver.
      * intros [?|(y & g & [->|?]%elem_of_cons & ? & ?)]; [by left|congruence|].
        right. by exists y, g.
    + rewrite seq_files_tabs. simpl. split.
      * intros [[?|(g & ? & ? & ?)]|(y & g & ? & ?)]; [by left| |].
        -- right. exists x, g. set_solver.
        -- right. exists y, g. set_solver.
      * intros [?|(y & g & [->|?]%elem_of_cons & ? & ? & ? & ?)]; [by left; left| |].
        -- left. right. by exists g.
        -- right. by exists y, g.
Qed.

(** X7: When the run ends, [constFiles] has a table for a name exactly when
    the file of that name has been processed without error for some
    architecture that itself ran without error. *)
Theorem tables_of_processed_files procs w0 sch s tr code :
  run fl ext arches sch (init_state arches procs w0) = Some (s, tr) →
  main_pc s = MExited code →
  ∀ name,
    is_Some (constFiles s !! name) ↔
    ∃ a arch i, arches !! a = Some arch ∧ (arch_result ext arches a).2 = None ∧
                files arch !! i = Some name ∧
                (file_result ext arches a i).2 = None.
Proof.
  intros Hr%run_init_reach Hpc name.
  destruct (reach_exited_split _ _ _ _ _ _ _ _ Hr Hpc) as (_ & _ & _ & _ & _ & _ & ->).
  unfold seq_collect. rewrite seq_arches_tabs. simpl. rewrite lookup_empty. split.
  - intros [[? [=]]|([a arch] & [i n] & Hx & Ha & Hf & <- & Hr')].
    apply elem_of_lookup_imap in Hx as (a' & arch' & [= <- <-] & Hx).
    apply elem_of_lookup_imap in Hf as (i' & n' & [= <- <-] & Hf).
    by exists a, arch, i.
  - intros (a & arch & i & Ha & Hok & Hi & Hf). right.
    exists (a, arch), (i, name). split_and!; try done.
    + apply elem_of_lookup_imap. by exists a, arch.
    + apply elem_of_lookup_imap. by exists i, name.
Qed.

End RunFacts.

(** ** createArches: directories and errors *)

Section CreateFacts.
Context `{E : Env}.

Lemma createArches_loop_quiet fl allFiles os files0 archArray :
  flagBuild fl = false →
  ∀ w acc w' evs r,
    createArches_loop fl allFiles os files0 w archArray acc = (w', evs, r) →
    w' = w ∧ evs = [].
Proof.
  intros Hb. induction archArray as [|archStr rest IH]; intros w acc w' evs r; simpl.
  - by intros [= <- <- _].
  - assert (∃ x, createArch fl allFiles os files0 w archStr = (w, [], x)) as [x ->].
    { unfold createArch. rewrite Hb.
      case_decide; destruct (targets_Get os archStr); by eexists. }
    destruct x as [arch|err]; [|by intros [= <- <- _]].
    destruct (createArches_loop _ _ _ _ _ _ _) as [[w2 evs2] r2] eqn:Hl.
    intros [= <- <- _]. by apply IH in Hl as [-> ->].
Qed.

(** X3: The fields [createArches] gives to every architecture: the source and
    include directories of the flags, the [-build] flag, and as build
    directory [-builddir] if it is set and the source directory otherwise.
    Without [-build] it changes nothing in the file system; with [-build]
    it has called [ioutil.TempDir] once for each architecture, in order,
    and the directory returned is the build directory of that one. *)
Theorem createArches_directories fl w os archArray files0 w' evs arches :
  createArches fl w os archArray files0 = (w', evs, inl arches) →
  Forall (λ arch, sourceDir arch = flagSourceDir fl ∧
                  includeDirs arch = flagIncludes fl ∧
                  build arch = flagBuild fl) arches ∧
  (flagBuild fl = false →
   w' = w ∧ evs = [] ∧
   Forall (λ arch, buildDir arch = if decide (flagBuildDir fl ≠ "")
                                   then flagBuildDir fl else flagSourceDir fl) arches) ∧
  (flagBuild fl = true → evs = EvTempDir <$> (buildDir <$> arches)).
Proof.
  intros Hc. pose proof Hc as (allFiles & _ & Hall & Hevs)%createArches_inv.
  split_and!.
  - eapply Forall2_Forall_r; [done|]. apply Forall_forall.
    intros archStr _ arch (_ & _ & ? & ? & ? & _). done.
  - intros Hb. assert (w' = w ∧ evs = []) as [-> ->].
    { revert Hc. unfold createArches.
      destruct (ast_ParseGlob _) as [[top|] errs1]; [|done]. simpl.
      destruct (compiler_FileList top os) as [[allFiles'|] errs2]; [|done]. simpl.
      by apply createArches_loop_quiet. }
    split_and!; try done. eapply Forall2_Forall_r; [done|]. apply Forall_forall.
    intros archStr _ arch (_ & _ & _ & _ & _ & Hd). by apply Hd.
  - intros Hb. by rewrite Hb in Hevs.
Qed.

Lemma createArches_loop_unknown fl allFiles os files0 a post :
  (∀ w, ∃ w' dir, ioutil_TempDir w "" "syzkaller-kernel-build" = (w', inl dir)) →
  targets_Get os a = None →
  ∀ pre w acc,
    Forall (λ x, is_Some (targets_Get os x)) pre →
    ∃ w' evs,
      createArches_loop fl allFiles os files0 w (pre ++ a :: post) acc
        = (w', evs, inr ("unknown arch: " +:+ a)) ∧
      length (created_dirs evs) = (if flagBuild fl then S (length pre) else 0).
Proof.
  intros Htmp Ha. induction pre as [|x pre IH]; intros w acc Hpre; simpl.
  - unfold createArch. destruct (flagBuild fl).
    + destruct (Htmp w) as (w1 & dir & ->). rewrite Ha. by eexists _, _.
    + case_decide; rewrite Ha; by eexists _, _.
  - apply Forall_cons in Hpre as [[t Ht] Hpre].
    unfold createArch. rewrite Ht. destruct (flagBuild fl) eqn:Hb.
    + destruct (Htmp w) as (w1 & dir & ->).
      edestruct (IH w1) as (w' & evs & -> & Hlen); [done|].
      eexists _, _. split; [done|]. simpl. by rewrite Hlen.
    + case_decide; (edestruct (IH w) as (w' & evs & -> & Hlen); [done|]);
        eexists _, _; (split; [done|]); simpl; by rewrite Hlen.
Qed.

(** X4: An architecture that [targets.Get] does not know ends [createArches]
    with the error "unknown arch: ..." naming the first such one.  The
    architectures are checked one at a time, after the build directory has
    been made: with [-build] the temporary directories of the architectures
    before it and its own exist by then. *)
Theorem createArches_unknown_arch fl w os pre a post files0 allFiles :
  discovered os = Some allFiles →
  (∀ w, ∃ w' dir, ioutil_TempDir w "" "syzkaller-kernel-build" = (w', inl dir)) →
  Forall (λ x, is_Some (targets_Get os x)) pre →
  targets_Get os a = None →
  ∃ w' evs,
    createArches fl w os (pre ++ a :: post) files0
      = (w', evs, inr ("unknown arch: " +:+ a)) ∧
    length (created_dirs evs) = (if flagBuild fl then S (length pre) else 0).
Proof.
  intros Hd Htmp Hpre Ha. unfold createArches. revert Hd. unfold discovered.
  destruct (ast_ParseGlob _) as [[top|] errs1]; [|done]. simpl.
  destruct (compiler_FileList top os) as [[allFiles'|] errs2]; [|done]. simpl.
  intros _. by apply createArches_loop_unknown.
Qed.

End CreateFacts.

(** ** The whole program *)

Section MainFacts.
Context `{E : Env}.

Lemma main_setup_inv extractors fl w w' evs ext arches :
  main_setup extractors fl w = (w', evs, inr (ext, arches)) →
  createArches fl w (flagOS fl) (archList (flagOS fl) (flagArch fl)) (flagArgs fl)
    = (w', evs, inl arches).
Proof.
  unfold main_setup. case_decide; [done|].
  destruct (extractors (flagOS fl)); [|done].
  destruct (createArches _ _ _ _ _) as [[w1 evs1] [arches1|err]]; [|done].
  case_decide; [done|]. destruct (prepare _ _ _ _); [done|]. by intros [= -> -> _ ->].
Qed.

Lemma setup_events fl (dirs : list string) :
  Forall (λ e, main_event e = true ∧ table_event e = false)
         (if flagBuild fl then EvTempDir <$> dirs else []).
Proof.
  destruct (flagBuild fl); [|done]. apply Forall_fmap, Forall_forall. done.
Qed.

Lemma main_setup_events extractors fl w w' evs r :
  main_setup extractors fl w = (w', evs, r) →
  Forall (λ e, ∃ d, e = EvTempDir d) evs.
Proof.
  unfold main_setup. case_decide; [by intros [= _ <- _]|].
  destruct (extractors (flagOS fl)); [|by intros [= _ <- _]].
  destruct (createArches _ _ _ _ _) as [[w1 evs1] res] eqn:Hc.
  assert (Forall (λ e, ∃ d, e = EvTempDir d) evs1) as Hevs.
  { clear -Hc. revert Hc. unfold createArches.
    destruct (ast_ParseGlob _) as [[top|] errs1]; [|by intros [= _ <- _]]. simpl.
    destruct (compiler_FileList top _) as [[allFiles|] errs2];
      [|by intros [= _ <- _]]. simpl.
    generalize (@nil ArchT). revert w w1 evs1 res.
    induction (archList _ _) as [|archStr rest IH]; intros w w1 evs1 res acc; simpl.
    - by intros [= _ <- _].
    - destruct (createArch _ _ _ _ _ _) as [[w2 evs2] [arch|err]] eqn:Hc.
      + destruct (createArches_loop _ _ _ _ _ _ _) as [[w3 evs3] r] eqn:Hl.
        intros [= _ <- _]. apply Forall_app. split; [|by eapply IH].
        apply createArch_inv in Hc as [_ ->].
        destruct (flagBuild fl); [|done]. repeat constructor. by eexists.
      + intros [= _ <- _]. revert Hc. unfold createArch.
        destruct (flagBuild fl).
        * destruct (ioutil_TempDir _ _ _) as [w4 [dir|err']]; [|by intros [= _ <- _]].
          destruct (targets_Get _ _); [done|]. intros [= _ <- _].
          repeat constructor. by eexists.
        * case_decide; (destruct (targets_Get _ _); [done|]); by intros [= _ <- _]. }
  destruct res as [arches|err]; [|by intros [= _ <- _]].
  case_decide; [by intros [= _ <- _]|].
  destruct (prepare _ _ _ _); by intros [= _ <- _].
Qed.

Lemma setup_main_events evs :
  Forall (λ e, ∃ d, e = EvTempDir d) evs →
  main_events evs = evs ∧ table_events evs = [] ∧ waits evs = [] ∧
  removed_dirs evs = [] ∧ (∀ msg, EvFatal msg ∉ evs) ∧ (∀ d, EvRemoveAll d ∉ evs).
Proof.
  intros H. split_and!.
  - apply main_events_all. eapply Forall_impl; [done|]. by intros e [d ->].
  - apply table_events_none. eapply Forall_impl; [done|]. by intros e [d ->].
  - induction H as [|e evs [d ->] _ IH]; done.
  - induction H as [|e evs [d ->] _ IH]; done.
  - intros msg Hin. rewrite Forall_forall in H. by destruct (H _ Hin).
  - intros d' Hin. rewrite Forall_forall in H. by destruct (H _ Hin).
Qed.

Lemma main_setup_quiet extractors fl w w' evs r :
  flagBuild fl = false → main_setup extractors fl w = (w', evs, r) →
  w' = w ∧ evs = [].
Proof.
  intros Hb. unfold main_setup. case_decide; [by intros [= <- <- _]|].
  destruct (extractors (flagOS fl)); [|by intros [= <- <- _]].
  destruct (createArches _ _ _ _ _) as [[w1 evs1] res] eqn:Hc.
  assert (w1 = w ∧ evs1 = []) as [-> ->].
  { revert Hc. unfold createArches.
    destruct (ast_ParseGlob _) as [[top|] errs1]; [|by intros [= <- <- _]]. simpl.
    destruct (compiler_FileList top _) as [[allFiles|] errs2];
      [|by intros [= <- <- _]]. simpl.
    by apply createArches_loop_quiet. }
  destruct res as [arches|err]; [|by intros [= <- <- _]].
  case_decide; [by intros [= <- <- _]|].
  destruct (prepare _ _ _ _); by intros [= <- <- _].
Qed.

Lemma fatals_nil (tr : list Event) : fatals tr = [] → ∀ msg, EvFatal msg ∉ tr.
Proof.
  induction tr as [|e tr IH]; intros Hf msg Hin; [by apply elem_of_nil in Hin|].
  apply elem_of_cons in Hin as [<-|Hin]; [done|].
  destruct e; try done; by apply (IH Hf msg).
Qed.

(** A run that has ended either has ended in [tool.Failf], and then it has
    removed nothing, or it has no fatal error. *)
Lemma exited_fatal_or_clean fl ext arches procs w0 s tr code :
  reach fl ext arches procs w0 s tr → main_pc s = MExited code →
  ((∃ msg, EvFatal msg ∈ tr) ∧ (∀ d, EvRemoveAll d ∉ tr)) ∨
  (∀ msg, EvFatal msg ∉ tr).
Proof.
  intros Hr Hpc.
  destruct (exited_finish_events _ _ _ _ _ _ _ _ Hr Hpc)
    as (tr0 & evs1 & failed' & Ht & H0 & _ & Hcases).
  assert (∀ msg, EvFatal msg ∉ tr0) as Hn0.
  { intros msg Hin. apply H0 in Hin as [[??]|[[??]|(?&?&?)]]; done. }
  assert (∀ msg, EvFatal msg ∉ evs1) as Hn1.
  { intros msg. by apply table_not_elem. }
  assert (∀ (l : list string) msg, EvFatal msg ∉ (EvRemoveAll <$> l)) as Hn2.
  { intros l msg (? & ? & _)%list_elem_of_fmap. done. }
  destruct Hcases as [(msg & -> & ->)|[(Hf & Ha & -> & ->)|(Hn & -> & ->)]].
  - left. split; [exists msg; set_solver|].
    intros d. rewrite !elem_of_app. intros [Hin|[Hin|Hin]].
    + apply H0 in Hin as [[??]|[[??]|(?&?&?)]]; done.
    + revert Hin. by apply table_not_elem.
    + by apply list_elem_of_singleton in Hin.
  - right. intros msg. rewrite !elem_of_app.
    intros [?%Hn0|[?%Hn1|[?%check_events_no_fatal|?%Hn2]]]; done.
  - right. intros msg. rewrite !elem_of_app.
    intros [?%Hn0|[?%Hn1|?%Hn2]]; done.
Qed.

(** A run that is stuck has made and removed no directory. *)
Lemma deadlocked_directories fl ext arches procs w0 sch s tr :
  run fl ext arches sch (init_state arches procs w0) = Some (s, tr) →
  deadlocked fl ext arches s →
  (∀ d, EvTempDir d ∉ tr) ∧ (∀ d, EvRemoveAll d ∉ tr) ∧ (∀ msg, EvFatal msg ∉ tr).
Proof.
  intros Hr%run_init_reach [Hne _].
  assert (¬ exited s) as Hx.
  { unfold exited. destruct (main_pc s) as [| | | | | |c] eqn:Hpc; try tauto.
    by destruct (Hne c). }
  split_and!; intros x Hin;
    destruct (running_events _ _ _ _ _ _ _ _ Hr Hx Hin) as [[??]|[[??]|(?&?&?)]];
    done.
Qed.

Lemma all_build_dirs fl w w' evs (arches : list ArchT) archStrs args :
  createArches fl w (flagOS fl) archStrs args = (w', evs, inl arches) →
  flagBuild fl = true →
  build_dirs arches = buildDir <$> arches ∧ created_dirs evs = buildDir <$> arches.
Proof.
  intros (allFiles & _ & Hall & He1)%createArches_inv Hb. rewrite Hb in He1.
  split.
  - unfold build_dirs. f_equal. clear -Hall Hb.
    induction Hall as [|archStr arch l1 l2 Hc _ IH]; [done|].
    destruct Hc as (_ & _ & Hba & _).
    rewrite filter_cons_True by congruence. by f_equal.
  - rewrite He1. clear. induction arches as [|a l IH]; [done|].
    simpl. by f_equal.
Qed.



(** C8, amended: in build mode every architecture has the directory that
    its own call of [ioutil.TempDir] returned.  An execution removes
    either none of the directories it has made or each of them once, in
    the order of the architectures; a removal comes after [main] has
    waited for all the jobs, whether these succeeded or failed.  An
    execution that neither ends in [tool.Fail] or [tool.Failf] nor gets
    stuck removes them all. *)
Theorem build_dirs_removed extractors fl procs w evs code :
  main_exits extractors fl procs w evs code →
  flagBuild fl = true →
  (removed_dirs evs = [] ∨ removed_dirs evs = created_dirs evs) ∧
  (∀ w' evs0 ext arches,
     main_setup extractors fl w = (w', evs0, inr (ext, arches)) →
     created_dirs evs = buildDir <$> arches ∧
     ∀ t1 d t2, evs = t1 ++ EvRemoveAll d :: t2 →
                waits t1 = drain_order ext arches ∧ waits t2 = []) ∧
  ((∀ msg, EvFatal msg ∉ evs) → code ≠ 2%Z →
   ∃ w' evs0 ext arches,
     main_setup extractors fl w = (w', evs0, inr (ext, arches)) ∧
     removed_dirs evs = buildDir <$> arches).
Proof.
  intros Hex Hb.
  destruct Hex as [w1 e1 msg1 Hs1|w1 e1 ext arches sch s tr c Hs Hr Hpc
                   |w1 e1 ext arches sch s tr Hs Hr Hd].
  - pose proof (main_setup_events _ _ _ _ _ _ Hs1) as Hev.
    apply setup_main_events in Hev as (_ & _ & _ & Hr1 & _).
    split_and!.
    + left. by rewrite removed_dirs_app, Hr1.
    + intros w' evs0 ext arches Hs. by rewrite Hs in Hs1.
    + intros Hnf. destruct (Hnf msg1). set_solver.
  - pose proof (main_setup_events _ _ _ _ _ _ Hs) as Hev.
    apply setup_main_events in Hev as (_ & _ & Hw1 & Hr1 & Hf1 & Hn1).
    pose proof Hs as Hinv%main_setup_inv.
    destruct (all_build_dirs _ _ _ _ _ _ _ Hinv Hb) as [Hbd Hcr].
    apply run_init_reach in Hr.
    destruct (exited_directories _ _ _ _ _ _ _ _ Hr Hpc) as [_ Htmp].
    assert (created_dirs (e1 ++ tr) = buildDir <$> arches) as Hcreated.
    { by rewrite created_dirs_app, (created_dirs_none tr), app_nil_r. }
    destruct (exited_fatal_or_clean _ _ _ _ _ _ _ _ Hr Hpc) as [[[msg Hm] Hnr]|Hnf].
    + split_and!.
      * left. by rewrite removed_dirs_app, Hr1, (removed_dirs_none tr).
      * intros w' evs0 ext' arches' Hs'. rewrite Hs in Hs'. simplify_eq.
        split; [done|]. intros t1 d t2 Heq. exfalso.
        assert (EvRemoveAll d ∈ evs0 ++ tr) as Hin by (rewrite Heq; set_solver).
        apply elem_of_app in Hin as [Hin|Hin]; [by apply Hn1 in Hin|by apply Hnr in Hin].
      * intros Hnf. destruct (Hnf msg). set_solver.
    + destruct (exited_clean_split _ _ _ _ _ _ _ _ Hr Hpc Hnf)
        as (tr1 & -> & Hw & Hn & _).
      rewrite Hbd in *.
      assert (removed_dirs (e1 ++ tr1 ++ (EvRemoveAll <$> (buildDir <$> arches)))
              = buildDir <$> arches) as Hremoved.
      { rewrite !removed_dirs_app, Hr1, removed_dirs_removes.
        by rewrite (removed_dirs_none tr1). }
      split_and!.
      * right. by rewrite Hremoved, Hcreated.
      * intros w' evs0 ext' arches' Hs'. rewrite Hs in Hs'. simplify_eq.
        split; [done|]. clear Hcreated Hremoved Hcr.
        intros t1 d t2 Heq. rewrite app_assoc in Heq.
        apply app_eq_app in Heq as (k & [[Hk1 Hk2]|[Hk1 Hk2]]).
        -- destruct k as [|e k].
           ++ rewrite app_nil_r in Hk1. simpl in Hk2.
              destruct (buildDir <$> arches') as [|d' ds]; simplify_eq/=.
              rewrite waits_app, Hw1, Hw. split; [done|].
              clear. induction ds; done.
           ++ simplify_eq/=. exfalso.
              assert (EvRemoveAll d ∈ evs0 ++ tr1) as Hin by (rewrite Hk1; set_solver).
              apply elem_of_app in Hin as [Hin|Hin];
                [by apply Hn1 in Hin|by apply Hn in Hin].
        -- subst t1. rewrite !waits_app, Hw1, Hw. simpl.
           assert (∀ (l : list string) k' t, (EvRemoveAll <$> l) = k' ++ t →
                     waits k' = [] ∧ waits t = []) as Hsub.
           { clear. intros l k'. revert l. induction k' as [|e k' IH]; intros l t Hl.
             - simpl in Hl. subst t. split; [done|]. induction l; done.
             - destruct l as [|d l]; simplify_eq/=. by apply IH in H0. }
           destruct (Hsub _ _ _ Hk2) as [-> Hw2]. rewrite app_nil_r. split; [done|].
           simpl in Hw2. done.
      * intros _ _. by exists w1, e1, ext, arches.
  - pose proof (main_setup_events _ _ _ _ _ _ Hs) as Hev.
    apply setup_main_events in Hev as (_ & _ & _ & Hr1 & _ & Hn1).
    pose proof Hs as Hinv%main_setup_inv.
    destruct (all_build_dirs _ _ _ _ _ _ _ Hinv Hb) as [_ Hcr].
    destruct (deadlocked_directories _ _ _ _ _ _ _ _ Hr Hd) as (Htmp & Hnr & _).
    split_and!.
    + left. by rewrite removed_dirs_app, Hr1, (removed_dirs_none tr).
    + intros w' evs0 ext' arches' Hs'. rewrite Hs in Hs'. simplify_eq.
      split.
      * by rewrite created_dirs_app, (created_dirs_none tr), app_nil_r.
      * intros t1 d t2 Heq. exfalso.
        assert (EvRemoveAll d ∈ evs0 ++ tr) as Hin by (rewrite Heq; set_solver).
        apply elem_of_app in Hin as [Hin|Hin]; [by apply Hn1 in Hin|by apply Hnr in Hin].
    + done.
Qed.

(** X6: The exit status of the program is 0, 1 or 2.  It is 2 only when the
    run is stuck, with every goroutine blocked, where the Go runtime ends
    the process.  A failure of the setup gives 1.  When [main] gets to its
    end the status is 1 exactly when a job has ended with an error, or a
    write of a table has failed, or the check has been called (no [-arch])
    and has found an unsupported name, and 0 otherwise. *)
Theorem exit_code_cases extractors fl procs w evs code :
  main_exits extractors fl procs w evs code →
  (code = 0 ∨ code = 1 ∨ code = 2)%Z ∧
  (∀ w' evs0 msg, main_setup extractors fl w = (w', evs0, inl msg) → code = 1%Z) ∧
  (code = 2%Z →
   ∃ w' evs0 ext arches sch s tr,
     main_setup extractors fl w = (w', evs0, inr (ext, arches)) ∧
     run fl ext arches sch (init_state arches procs w') = Some (s, tr) ∧
     deadlocked fl ext arches s ∧ evs = evs0 ++ tr) ∧
  (∀ w' evs0 ext arches,
     main_setup extractors fl w = (w', evs0, inr (ext, arches)) → code ≠ 2%Z →
     (code = 1%Z ↔
        job_error ext arches ∨ (∃ msg, EvFatal msg ∈ evs) ∨
        (flagArch fl = "" ∧
         checkUnsupportedCalls_names (ref_views ext arches) ≠ []))).
Proof.
  intros Hex.
  destruct Hex as [w1 e1 msg1 Hs1|w1 e1 ext arches sch s tr c Hs Hr Hpc
                   |w1 e1 ext arches sch s tr Hs Hr Hd].
  - split_and!; [by right; left|done|done|].
    intros w' evs0 ext arches Hs. by rewrite Hs in Hs1.
  - destruct (exited_code_cases _ _ _ _ _ _ _ _ _ Hr Hpc) as [Hc Hiff].
    split_and!.
    + destruct Hc; [by left|by right; left].
    + intros w' evs0 msg Hs'. by rewrite Hs in Hs'.
    + intros ->. by destruct Hc.
    + intros w' evs0 ext' arches' Hs' _. rewrite Hs in Hs'. simplify_eq.
      rewrite Hiff.
      pose proof (main_setup_events _ _ _ _ _ _ Hs) as Hev.
      apply setup_main_events in Hev as (_ & _ & _ & _ & Hf1 & _).
      split; (intros [?|[[msg Hin]|?]]; [by left| |by right; right]);
        right; left; exists msg.
      * set_solver.
      * apply elem_of_app in Hin as [Hin|Hin]; [by apply Hf1 in Hin|done].
  - split_and!; [by right; right| |by exists w1, e1, ext, arches, sch, s, tr|done].
    intros w' evs0 msg Hs'. by rewrite Hs in Hs'.
Qed.

(** X12: Without [-build] the program makes no temporary directory and removes
    no directory, however it ends: the source directory and the directory
    given with [-builddir] are never passed to [os.RemoveAll]. *)
Theorem no_build_no_directory_change extractors fl procs w evs code :
  main_exits extractors fl procs w evs code → flagBuild fl = false →
  created_dirs evs = [] ∧ removed_dirs evs = [].
Proof.
  intros Hex Hb.
  destruct Hex as [w1 e1 msg1 Hs|w1 e1 ext arches sch s tr c Hs Hr Hpc
                   |w1 e1 ext arches sch s tr Hs Hr Hd].
  { apply main_setup_quiet in Hs as [_ ->]; done. }
  - pose proof Hs as [_ ->]%main_setup_quiet; [|done].
    apply main_setup_inv, createArches_inv in Hs as (allFiles & _ & Hall & _).
    assert (build_dirs arches = []) as Hbd.
    { unfold build_dirs. clear -Hall Hb.
      induction Hall as [|archStr arch l1 l2 Hc _ IH]; [done|].
      destruct Hc as (_ & _ & Hba & _).
      rewrite filter_cons_False by congruence. done. }
    apply run_init_reach in Hr.
    destruct (exited_directories _ _ _ _ _ _ _ _ Hr Hpc) as [Hrm Htmp].
    rewrite Hbd in Hrm. simpl. split.
    + by apply created_dirs_none.
    + apply removed_dirs_none. intros d Hd%Hrm. by apply elem_of_nil in Hd.
  - pose proof Hs as [_ ->]%main_setup_quiet; [|done].
    destruct (deadlocked_directories _ _ _ _ _ _ _ _ Hr Hd) as (Htmp & Hnr & _).
    simpl. split; [by apply created_dirs_none|by apply removed_dirs_none].
Qed.

End MainFacts.

(** ** Two executions: the order of the iterations over maps *)

Section ReorderFacts.
Context `{E : Env}.
Variable ro : ∀ A, gmap string A → list (string * A).
Hypothesis Hro : ∀ A (m : gmap string A), ro A m ≡ₚ map_to_list m.

Local Abbreviation E' := (reorder E ro Hro).
Local Abbreviation other := (reorder_ext ro Hro).

Lemma processArch_reorder (ext : Extractor) arch :
  (processArch (E:=E') (other ext) arch).2 = (processArch (E:=E) ext arch).2.
Proof.
  unfold processArch. simpl.
  destruct (ast_ParseGlob _) as [[top|] errs1]; [|done].
  destruct (compiler_ExtractConsts top _) as [[infos|] errs2]; [|done].
  by destruct (prepareArch ext arch).
Qed.

Lemma processFile_reorder (ext : Extractor) arch name (info : option (@ConstInfo E)) :
  (processFile (E:=E') (other ext) arch name info).2
  = (processFile (E:=E) ext arch name info).2.
Proof.
  unfold processFile. simpl. destruct info as [info|]; [|done]. by case_decide.
Qed.

Lemma arch_result_reorder (ext : Extractor) arches a :
  arch_result (E:=E') (other ext) arches a = arch_result (E:=E) ext arches a.
Proof.
  unfold arch_result. destruct (arches !! a); [|done]. apply processArch_reorder.
Qed.

Lemma arch_err_reorder (ext : Extractor) arches a :
  (arch_result (E:=E') (other ext) arches a).2 = (arch_result (E:=E) ext arches a).2.
Proof. by rewrite arch_result_reorder. Qed.

Lemma file_info_reorder (ext : Extractor) arches a i :
  file_info (E:=E') (other ext) arches a i = file_info (E:=E) ext arches a i.
Proof.
  unfold file_info. destruct (arches !! a) as [arch|]; [|done]. simpl.
  destruct (files arch !! i); [|done]. simpl. by rewrite arch_result_reorder.
Qed.

Lemma file_result_reorder (ext : Extractor) arches a i :
  file_result (E:=E') (other ext) arches a i = file_result (E:=E) ext arches a i.
Proof.
  unfold file_result. destruct (arches !! a) as [arch|]; [|done].
  destruct (files arch !! i); [|done].
  by rewrite processFile_reorder, file_info_reorder.
Qed.

Lemma drain_order_reorder (ext : Extractor) arches :
  drain_order (E:=E') (other ext) arches = drain_order (E:=E) ext arches.
Proof.
  unfold drain_order. f_equal. apply imap_ext. intros a arch _.
  by rewrite arch_result_reorder.
Qed.

Lemma seq_files_reorder (ext : Extractor) arches a arch (l : list (nat * string)) :
  ∀ (acc : @Acc E) (acc' : @Acc E'),
    acc_tabs acc' = acc_tabs acc → acc_failed acc' = acc_failed acc →
    acc_tabs (foldl (seq_file (E:=E') (other ext) arches a arch) acc' l)
      = acc_tabs (foldl (seq_file (E:=E) ext arches a arch) acc l) ∧
    acc_failed (foldl (seq_file (E:=E') (other ext) arches a arch) acc' l)
      = acc_failed (foldl (seq_file (E:=E) ext arches a arch) acc l).
Proof.
  induction l as [|f l IH]; intros acc acc' Ht Hf; [done|]. simpl.
  apply IH; unfold seq_file; rewrite file_result_reorder;
    destruct (file_result ext arches a f.1).2; simpl; congruence.
Qed.

Lemma seq_arches_reorder fl (ext : Extractor) arches (l : list (nat * ArchT)) :
  ∀ (acc : @Acc E) (acc' : @Acc E'),
    acc_tabs acc' = acc_tabs acc → acc_failed acc' = acc_failed acc →
    acc_tabs (foldl (seq_arch (E:=E') fl (other ext) arches) acc' l)
      = acc_tabs (foldl (seq_arch (E:=E) fl ext arches) acc l) ∧
    acc_failed (foldl (seq_arch (E:=E') fl (other ext) arches) acc' l)
      = acc_failed (foldl (seq_arch (E:=E) fl ext arches) acc l).
Proof.
  induction l as [|x l IH]; intros acc acc' Ht Hf; [done|]. simpl.
  apply IH; unfold seq_arch; rewrite arch_err_reorder;
    destruct (arch_result ext arches x.1).2;
    first [ exact Ht | reflexivity
          | apply seq_files_reorder; [exact Ht | exact Hf] ].
Qed.

(** The tables [main] accumulates do not depend on the order of the
    iterations. *)
Lemma seq_collect_reorder fl (ext : Extractor) arches :
  acc_tabs (seq_collect (E:=E') fl (other ext) arches)
    = acc_tabs (seq_collect (E:=E) fl ext arches) ∧
  acc_failed (seq_collect (E:=E') fl (other ext) arches)
    = acc_failed (seq_collect (E:=E) fl ext arches).
Proof. unfold seq_collect. by apply seq_arches_reorder. Qed.







(** The two maps of [checkUnsupportedCalls] are filled by insertions, so
    they do not depend on the order in which [consts] and [undeclared] are
    visited. *)
Lemma foldl_insert_reorder {V} (v : V) (m0 : gmap string V) {A} (m : gmap string A) :
  foldl (λ acc k, <[k := v]> acc) m0 (range_keys (E:=E') m)
  = foldl (λ acc k, <[k := v]> acc) m0 (range_keys (E:=E) m).
Proof.
  apply map_eq. intros k. rewrite !lookup_foldl_insert.
  pose proof (elem_of_range_keys (E:=E') m k) as H1.
  pose proof (elem_of_range_keys (E:=E) m k) as H2.
  repeat case_decide; tauto.
Qed.

Lemma scan_files_reorder (fs : list FileView) :
  scan_files (E:=E') fs = scan_files (E:=E) fs.
Proof.
  unfold scan_files. generalize (∅ : gmap string bool, ∅ : gmap string string).
  induction fs as [|f fs IH]; intros acc; [done|]. simpl. rewrite IH.
  unfold mark_supported, mark_unsupported. by rewrite !foldl_insert_reorder.
Qed.





Lemma job_error_reorder (ext : Extractor) arches :
  job_error (E:=E') (other ext) arches ↔ job_error (E:=E) ext arches.
Proof.
  unfold job_error. split.
  - intros [(a & arch & e & Ha & He)|(a & arch & i & name & e & Ha & Hn & Hi & He)].
    + left. exists a, arch, e. by rewrite <- arch_err_reorder.
    + right. exists a, arch, i, name, e.
      by rewrite <- arch_err_reorder, <- file_result_reorder.
  - intros [(a & arch & e & Ha & He)|(a & arch & i & name & e & Ha & Hn & Hi & He)].
    + left. exists a, arch, e. by rewrite arch_err_reorder.
    + right. exists a, arch, i, name, e.
      by rewrite arch_err_reorder, file_result_reorder.
Qed.

Lemma ref_views_reorder (ext : Extractor) arches :
  ref_views (E:=E') (other ext) arches = ref_views (E:=E) ext arches.
Proof.
  unfold ref_views. apply imap_ext. intros a arch _. apply imap_ext.
  intros i name _. by rewrite file_result_reorder.
Qed.

(** Whether the check reports a name does not depend on the order in which
    it visits [unsupported]. *)
Lemma check_reports_reorder (view : list (list FileView)) :
  checkUnsupportedCalls_names (E:=E') view ≠ [] ↔
  checkUnsupportedCalls_names (E:=E) view ≠ [].
Proof.
  assert (∀ l : list string, l ≠ [] ↔ ∃ x, x ∈ l) as Hne.
  { intros [|x l]; split; try done.
    - by intros (? & ?%elem_of_nil).
    - intros _. exists x. by left. }
  rewrite !Hne. split; intros [name Hin]; exists name;
    apply checkUnsupportedCalls_names_spec;
    by apply checkUnsupportedCalls_names_spec in Hin.
Qed.

(** Whether the check fails does not depend on the order either; the
    order of the lines it prints does. *)
Lemma checkUnsupportedCalls_reorder (view : list (list FileView)) :
  (checkUnsupportedCalls (E:=E') view).1 = (checkUnsupportedCalls (E:=E) view).1.
Proof.
  pose proof (proj1 (checkUnsupportedCalls_lines (E:=E') view)) as H1.
  pose proof (proj1 (checkUnsupportedCalls_lines (E:=E) view)) as H2.
  rewrite check_reports_reorder in H1. rewrite <- H2 in H1.
  destruct (checkUnsupportedCalls (E:=E') view).1,
           (checkUnsupportedCalls (E:=E) view).1; try done.
  - symmetry. by apply H1.
  - by apply H1.
Qed.

(** X8: Two executions on the same architectures and file system in which
    [main] gets to its end, with any numbers of workers, any interleavings
    and any orders of the iterations over maps, have waited for the same
    jobs in the same order and hold the same tables in [constFiles].  If
    no write of a table fails in either, they have written the same bytes
    to the same paths and end with the same exit code. *)
Theorem final_state_agrees fl (ext : Extractor) arches procs1 procs2 (w0 : @World E)
    sch1 sch2 s1 s2 tr1 tr2 code1 code2 :
  run (E:=E) fl ext arches sch1 (init_state (E:=E) arches procs1 w0) = Some (s1, tr1) →
  main_pc s1 = MExited code1 →
  run (E:=E') fl (other ext) arches sch2 (init_state (E:=E') arches procs2 w0)
    = Some (s2, tr2) →
  main_pc s2 = MExited code2 →
  constFiles s1 = constFiles s2 ∧ waits tr1 = waits tr2 ∧
  ((∀ msg, EvFatal msg ∉ tr1) → (∀ msg, EvFatal msg ∉ tr2) →
   writes tr1 ≡ₚ writes tr2 ∧ code1 = code2).
Proof.
  intros Hrun1 Hpc1 Hrun2 Hpc2.
  pose proof (run_init_reach _ _ _ _ _ _ _ _ Hrun1) as Hr1.
  pose proof (run_init_reach _ _ _ _ _ _ _ _ Hrun2) as Hr2.
  split_and!.
  - destruct (reach_exited_split _ _ _ _ _ _ _ _ Hr1 Hpc1)
      as (_ & _ & _ & _ & _ & _ & ->).
    destruct (reach_exited_split _ _ _ _ _ _ _ _ Hr2 Hpc2)
      as (_ & _ & _ & _ & _ & _ & ->).
    symmetry. apply seq_collect_reorder.
  - rewrite (exited_waits _ _ _ _ _ _ _ _ Hr1 Hpc1).
    rewrite (exited_waits _ _ _ _ _ _ _ _ Hr2 Hpc2).
    symmetry. apply drain_order_reorder.
  - intros Hn1 Hn2. split.
    + destruct (exited_writes _ _ _ _ _ _ _ _ Hr1 Hpc1) as [_ Hw1].
      destruct (exited_writes _ _ _ _ _ _ _ _ Hr2 Hpc2) as [_ Hw2].
      specialize (Hw1 Hn1). specialize (Hw2 Hn2).
      rewrite (proj1 (seq_collect_reorder fl ext arches)) in Hw2.
      etrans; [exact Hw1|]. symmetry. exact Hw2.
    + destruct (exited_code_cases _ _ _ _ _ _ _ _ _ Hrun1 Hpc1) as [Hc1 Hi1].
      destruct (exited_code_cases _ _ _ _ _ _ _ _ _ Hrun2 Hpc2) as [Hc2 Hi2].
      rewrite job_error_reorder, ref_views_reorder, check_reports_reorder in Hi2.
      assert (code1 = 1%Z ↔ code2 = 1%Z) as Hiff.
      { rewrite Hi1, Hi2. split.
        - intros [?|[[msg ?]|?]]; [by left|by destruct (Hn1 msg)|by right; right].
        - intros [?|[[msg ?]|?]]; [by left|by destruct (Hn2 msg)|by right; right]. }
      destruct Hc1 as [->| ->], Hc2 as [->| ->]; try done.
      * by apply Hiff.
      * symmetry. by apply Hiff.
Qed.

End ReorderFacts.

(** ** archList *)

Section ArchListFacts.
Context `{E : Env}.

(** X1: Without [-arch], [archList] returns every architecture registered
    for the OS in [targets.List], each once, in sorted order. *)
Theorem archList_all_registered (os : string) :
  Sorted str_le (archList os "") ∧ NoDup (archList os "") ∧
  ∀ a, a ∈ archList os "" ↔ is_Some (targets_List os !! a).
Proof.
  unfold archList. rewrite decide_False by (by intros ?).
  split; [apply sort_Strings_sorted|]. split.
  - rewrite sort_Strings_perm. apply NoDup_range_keys.
  - intros a. rewrite sort_Strings_perm, elem_of_range_keys. apply elem_of_dom.
Qed.

Lemma split_on_cons (sep : ascii) (s : string) : ∃ p ps, split_on sep s = p :: ps.
Proof.
  destruct s as [|c s]; simpl; [by eexists _, _|].
  destruct (Ascii.eqb c sep); [by eexists _, _|].
  destruct (split_on sep s); by eexists _, _.
Qed.

Lemma concat_cons_cons (sep x y : string) (l : list string) :
  String.concat sep (x :: y :: l) = x +:+ sep +:+ String.concat sep (y :: l).
Proof. reflexivity. Qed.

Lemma split_on_concat (sep : ascii) (s : string) :
  String.concat (String sep EmptyString) (split_on sep s) = s.
Proof.
  induction s as [|c s IH]; [done|]. cbn [split_on].
  destruct (split_on_cons sep s) as (p & ps & Hs). rewrite Hs in *.
  destruct (Ascii.eqb_spec c sep) as [->|Hne].
  - by rewrite concat_cons_cons, IH.
  - destruct ps as [|q ps].
    + simpl in *. by rewrite IH.
    + rewrite concat_cons_cons in *. by rewrite <- IH.
Qed.

Lemma split_on_pieces (sep : ascii) (s : string) :
  Forall (λ p, sep ∉ list_ascii_of_string p) (split_on sep s).
Proof.
  induction s as [|c s IH]; simpl.
  - repeat constructor. simpl. apply not_elem_of_nil.
  - destruct (Ascii.eqb_spec c sep) as [->|Hne].
    + constructor; [apply not_elem_of_nil | done].
    + destruct (split_on sep s) as [|p ps].
      * repeat constructor. simpl. rewrite elem_of_cons.
        intros [?|?%elem_of_nil]; congruence.
      * apply Forall_cons in IH as [Hp Hps]. constructor; [|done].
        simpl. rewrite elem_of_cons. intros [?|?]; [congruence|done].
Qed.

(** X2: With [-arch], [archList] is the value of the flag cut at the commas:
    joining the pieces with commas gives the flag back, so the order, the
    repetitions and the empty pieces of the request are kept; no piece
    holds a comma; and [targets.List] is not looked at. *)
Theorem archList_requested (os arches : string) :
  arches ≠ "" →
  String.concat "," (archList os arches) = arches ∧
  archList os arches ≠ [] ∧
  Forall (λ a, ","%char ∉ list_ascii_of_string a) (archList os arches) ∧
  ∀ os', archList os' arches = archList os arches.
Proof.
  intros Hne. unfold archList. rewrite !decide_True by done.
  unfold strings_Split_comma. split; [apply split_on_concat|]. split.
  - by destruct (split_on_cons "," arches) as (p & ps & ->).
  - split; [apply split_on_pieces|]. intros os'. by rewrite decide_True.
Qed.

End ArchListFacts.

(** ** The order of the calls into the backend *)

Section BackendOrder.
Context `{E : Env}.
Variables (fl : Flags) (ext : Extractor) (arches : list ArchT).

Lemma processArch_ok arch :
  (processArch ext arch).2.2 = None →
  (processArch ext arch).1 = [CallPrepareArch arch] ∧ prepareArch ext arch = None.
Proof.
  unfold processArch.
  destruct (ast_ParseGlob _) as [[top|] errs1]; [|done].
  destruct (compiler_ExtractConsts top _) as [[infos|] errs2]; [|done].
  by destruct (prepareArch ext arch).
Qed.

Lemma processArch_calls arch c :
  c ∈ (processArch ext arch).1 → c = CallPrepareArch arch.
Proof.
  unfold processArch.
  destruct (ast_ParseGlob _) as [[top|] errs1]; [|by intros ?%elem_of_nil].
  destruct (compiler_ExtractConsts top _) as [[infos|] errs2];
    [|by intros ?%elem_of_nil].
  destruct (prepareArch ext arch); by intros ->%list_elem_of_singleton.
Qed.

Lemma processFile_calls arch name info c :
  c ∈ (processFile ext arch name info).1 → ∃ ci, c = CallProcessFile arch ci.
Proof.
  unfold processFile. destruct info as [ci|]; [|by intros ?%elem_of_nil].
  case_decide; [by intros ?%elem_of_nil|].
  intros ->%list_elem_of_singleton. by exists ci.
Qed.

(** The calls of [processArch] are among the events once the worker is
    past it, and so once the [done] of the architecture is closed. *)
Lemma reach_calls procs w0 s tr :
  reach fl ext arches procs w0 s tr →
  (∀ w pc a arch c,
     workers s !! w = Some pc → pc_job pc = Some (JArch a) → pc ≠ WArchRun a →
     arches !! a = Some arch → c ∈ (processArch ext arch).1 → EvCall w c ∈ tr) ∧
  (∀ w a arch c,
     EvClose w (JArch a) ∈ tr → arches !! a = Some arch →
     c ∈ (processArch ext arch).1 → EvCall w c ∈ tr).
Proof.
  induction 1 as [|s tr t s' evs Hr [IH1 IH2] Hst].
  - split.
    + intros w pc a arch c Hw Hj. simpl in Hw.
      apply lookup_replicate in Hw as [-> _]. done.
    + by intros w a arch c ?%elem_of_nil.
  - apply step_cases in Hst as [_ [[-> Hm]|(w1 & pc1 & pc1' & s1 & -> & Hw1 & Hs & ->)]].
    + pose proof (mstep_same_store _ _ _ _ _ _ Hm) as (_ & Hws & _).
      pose proof (mstep_events _ _ _ _ _ _ Hm) as Hev. rewrite Forall_forall in Hev.
      split.
      * intros w pc a arch c Hw Hj Hne Ha Hc. rewrite Hws in Hw.
        apply elem_of_app. left. by eapply IH1.
      * intros w a arch c [Hin|Hin%Hev]%elem_of_app Ha Hc; [|done].
        apply elem_of_app. left. by eapply IH2.
    + pose proof (workers_wstep _ _ _ _ _ _ _ _ Hs) as Hws.
      assert (∀ a arch c, pc_job pc1' = Some (JArch a) → pc1' ≠ WArchRun a →
                arches !! a = Some arch → c ∈ (processArch ext arch).1 →
                EvCall w1 c ∈ tr ++ evs) as Hown.
      { intros a arch c Hj Hne Ha Hc. apply elem_of_app.
        destruct Hs; simplify_eq/=;
          try (left; eapply (IH1 w1); [done| |done..]; by simpl).
        - by destruct j; simplify_eq/=.
        - right. apply list_elem_of_fmap. by exists c. }
      split.
      * intros w pc a arch c Hw Hj Hne Ha Hc. simpl in Hw. rewrite Hws in Hw.
        apply (lookup_workers_insert _ _ _ _ _ _ Hw1) in Hw as [[-> ->]|[_ Hw]].
        -- by eapply Hown.
        -- apply elem_of_app. left. by eapply IH1.
      * intros w a arch c [Hin|Hin]%elem_of_app Ha Hc.
        -- apply elem_of_app. left. by eapply IH2.
        -- apply (wstep_close_events _ _ _ _ _ _ _ _ _ _ Hs) in Hin as (-> & Hcl & Hj).
           apply elem_of_app. left. eapply (IH1 w1); [done..| |done|done].
           intros ->. done.
Qed.

(** X9: The backend is asked to process a file only after it has prepared the
    architecture of that file, and only if that has succeeded: a call of
    [processFile] comes after the call of [prepareArch] for the same
    architecture, which has returned no error. *)
Theorem prepareArch_before_processFile procs w0 sch s tr :
  run fl ext arches sch (init_state arches procs w0) = Some (s, tr) →
  ∀ t1 w arch info t2,
    tr = t1 ++ EvCall w (CallProcessFile arch info) :: t2 →
    prepareArch ext arch = None ∧ ∃ w', EvCall w' (CallPrepareArch arch) ∈ t1.
Proof.
  intros Hr%run_init_reach t1 w arch info t2 Heq.
  edestruct reach_event as (s0 & tr0 & t & s0' & pre & post & Hr0 & Hst & Ht1);
    [exact Hr | exact Heq |]. subst t1.
  assert (EvCall w (CallProcessFile arch info) ∈ pre ++ EvCall w (CallProcessFile arch info) :: post)
    as Hmem by set_solver.
  apply step_cases in Hst as [_ [[-> Hm]|(w1 & pc1 & pc1' & s1 & -> & Hw1 & Hs & ->)]].
  { pose proof (mstep_events _ _ _ _ _ _ Hm) as Hev. rewrite Forall_forall in Hev.
    by apply Hev in Hmem. }
  assert (∃ a i name, pc1 = WFileRun a i ∧ arches !! a = Some arch ∧
                      files arch !! i = Some name) as (a & i & name & -> & Ha & Hi).
  { destruct Hs; try (by repeat (apply elem_of_cons in Hmem as [?|Hmem]; [done|]);
                        apply elem_of_nil in Hmem).
    - apply list_elem_of_fmap in Hmem as (c & [= _ <-] & Hc%processArch_calls). done.
    - apply elem_of_cons in Hmem as [?|Hmem]; [done|].
      apply list_elem_of_fmap in Hmem as (c & [= _ <-] & (ci & [= <- _])%processFile_calls).
      by eexists _, _, _. }
  pose proof (sched_held _ _ _ _ _ Hw1 eq_refl) as Hsc.
  destruct (inv_tr_sched _ _ (reach_InvTrace _ _ _ _ _ _ _ Hr0) _ _ Hsc)
    as (w' & Hcl & _).
  destruct (inv_sched_arch _ (reach_InvJobs _ _ _ _ _ _ _ Hr0) _ _ Hsc) as [Hd He].
  pose proof (inv_arch_val _ _ _ (reach_InvVals _ _ _ _ _ _ _ Hr0) _ Hd) as Hv.
  rewrite He in Hv. unfold arch_result in Hv. rewrite Ha in Hv.
  destruct (processArch_ok arch) as [Hcalls Hprep]; [done|].
  split; [done|]. exists w'. apply elem_of_app. left.
  eapply (proj2 (reach_calls _ _ _ _ Hr0)); [done..|]. rewrite Hcalls. by left.
Qed.

End BackendOrder.

(** ** A deadlock *)

Section DeadlockFacts.
Context `{E : Env}.

Lemma run_step fl ext arches t sch s s' evs s'' evs' :
  step fl ext arches t s = Some (s', evs) →
  run fl ext arches sch s' = Some (s'', evs') →
  run fl ext arches (t :: sch) s = Some (s'', evs ++ evs').
Proof. intros Hs Hr. simpl. rewrite Hs. simpl. by rewrite Hr. Qed.

(** One statement of a goroutine on a state written out. *)
Ltac step_simpl :=
  unfold step, worker_step, main_step, arch_obj, file_obj, set_worker, set_arch,
    set_file, set_jobC, set_main, init_state, jobC_cap; simpl;
  rewrite ?lookup_insert, ?lookup_empty; simpl.

(** X10: [jobC] has room for [len(arches)] jobs and the workers are its only
    receivers, so a worker that sends the files of its architecture can
    block for ever.  With one worker and one architecture that runs without
    error and has two files or more, there is a run that ends in a state
    where no goroutine can move and [main] has not ended: the worker
    blocks in the send of the second file, [main] waits for the first. *)
Theorem single_worker_deadlock fl ext arch w0 :
  (processArch ext arch).2.2 = None → 2 ≤ length (files arch) →
  ∃ sch s tr,
    run fl ext [arch] sch (init_state [arch] 1 w0) = Some (s, tr) ∧
    workers s = [WFanSend 0 (processArch ext arch).2.1 1] ∧
    main_pc s = MFile 0 0 ∧ jobC s = [JFile 0 0] ∧
    ∀ t, step fl ext [arch] t s = None.
Proof.
  intros Herr Hlen.
  destruct (files arch) as [|n1 [|n2 rest]] eqn:Hfiles; simpl in Hlen; [lia..|].
  destruct (processArch ext arch) as [calls [infos err]] eqn:Hp.
  simpl in Herr. subst err.
  exists (replicate 8 (Worker 0) ++ replicate 3 Main).
  eexists _, _. split.
  { cbn [replicate app].
    eapply run_step. { step_simpl. reflexivity. }
    eapply run_step. { step_simpl. rewrite Hp. reflexivity. }
    eapply run_step. { step_simpl. reflexivity. }
    eapply run_step. { step_simpl. reflexivity. }
    eapply run_step. { step_simpl. reflexivity. }
    eapply run_step. { step_simpl. rewrite Hfiles. step_simpl. reflexivity. }
    eapply run_step. { step_simpl. reflexivity. }
    eapply run_step. { step_simpl. rewrite Hfiles. step_simpl. reflexivity. }
    eapply run_step. { step_simpl. reflexivity. }
    eapply run_step. { step_simpl. reflexivity. }
    eapply run_step. { step_simpl. reflexivity. }
    reflexivity. }
  split; [reflexivity|]. split; [reflexivity|]. split; [reflexivity|].
  intros [|[|w]]; step_simpl; [|done..].
  rewrite Hfiles. reflexivity.
Qed.

End DeadlockFacts.

(** ** checkUnsupportedCalls: which file a report line names *)

Section CheckReportFacts.
Context `{E : Env}.

Lemma scan_files_last (fs : list FileView) (name file : string) :
  ∀ (acc : gmap string bool * gmap string string),
    (foldl (λ acc f, (mark_supported acc.1 f, mark_unsupported acc.2 f))
       acc fs).2 !! name = Some file →
    (acc.2 !! name = Some file ∧ ∀ g, g ∈ fs → name ∉ dom g.2) ∨
    ∃ l1 f l2, fs = l1 ++ f :: l2 ∧ name ∈ dom f.2 ∧ f.1.1 = file ∧
               ∀ g, g ∈ l2 → name ∉ dom g.2.
Proof.
  induction fs as [|f fs IH]; intros acc; simpl.
  - intros H. left. split; [done|]. by intros g ?%elem_of_nil.
  - intros [[Hacc Hno]|(l1 & g & l2 & -> & Hg & Hf & Hl2)]%IH.
    + simpl in Hacc. unfold mark_unsupported in Hacc.
      rewrite lookup_foldl_insert in Hacc. case_decide as Hk.
      * right. exists [], f, fs. split_and!; try done; [|congruence].
        by apply elem_of_range_keys.
      * left. split; [done|]. intros g [->|?]%elem_of_cons; [|by apply Hno].
        by rewrite <- elem_of_range_keys.
    + right. by exists (f :: l1), g, l2.
Qed.

(** X11: [checkUnsupportedCalls] returns [true] exactly when it prints a line.
    The file named in the line of a name is the last file, in the order of
    the architectures and of their files, that leaves the name undeclared:
    later files overwrite the entry of earlier ones. *)
Theorem checkUnsupportedCalls_last_file (view : list (list FileView)) :
  ((checkUnsupportedCalls view).1 = true ↔ (checkUnsupportedCalls view).2 ≠ []) ∧
  Forall2 (λ line name,
             ∃ l1 f l2, concat view = l1 ++ f :: l2 ∧ name ∈ dom f.2 ∧
                        (∀ g, g ∈ l2 → name ∉ dom g.2) ∧
                        line = f.1.1 +:+ ": " +:+ name
                               +:+ " is unsupported on all arches (typo?)" +:+ nl)
          (checkUnsupportedCalls view).2 (checkUnsupportedCalls_names view).
Proof.
  unfold checkUnsupportedCalls, checkUnsupportedCalls_names, scan_files.
  destruct (foldl _ _ _) as [supported unsupported] eqn:Hscan.
  destruct (report_unsupported_names supported (range_order string unsupported))
    as (Hlen & Hfail & Hlines).
  split.
  - rewrite Hfail. destruct (report_unsupported _ _).2, (reported_names _ _); done.
  - eapply Forall2_impl; [done|]. intros line name (file & Hin & ->).
    rewrite range_order_perm in Hin. apply elem_of_map_to_list in Hin.
    pose proof (scan_files_last (concat view) name file (∅, ∅)) as Hlast.
    rewrite Hscan in Hlast. simpl in Hlast.
    destruct (Hlast Hin) as [[Habs _]|(l1 & f & l2 & ? & ? & <- & ?)].
    + by rewrite lookup_empty in Habs.
    + by exists l1, f, l2.
Qed.

End CheckReportFacts.

(** ** The pipeline on the concrete environment *)

Section Examples.
Import Demo.

(** Opens a run: the final state, the events, the equation of the run and
    where [main] ended. *)
Ltac open_run r s tr Hrun Hpc :=
  destruct r as [[s tr]|] eqn:Hrun;
  [ pose proof (f_equal final_pc Hrun) as Hpc; vm_compute in Hpc;
    injection Hpc as Hpc; symmetry in Hpc
  | apply (f_equal final_pc) in Hrun; vm_compute in Hrun; discriminate Hrun ].

(** Proves a fact on the events of an opened run by evaluating the run. *)
Ltac by_run Hrun :=
  lazymatch type of Hrun with
  | _ = Some (?s, ?tr) =>
      change tr with (trace (Some (s, tr))); rewrite <- Hrun; reflexivity
  end.

(** The same for a run of the execution with the opposite order of
    iteration. *)
Ltac open_run_rev r s tr Hrun Hpc :=
  destruct r as [[s tr]|] eqn:Hrun;
  [ pose proof (f_equal final_pc_rev Hrun) as Hpc; vm_compute in Hpc;
    injection Hpc as Hpc; symmetry in Hpc
  | apply (f_equal final_pc_rev) in Hrun; vm_compute in Hrun; discriminate Hrun ].




Lemma results_published_before_signal_witness :
  ∃ s tr, demo_run cmd_one (0, true) 1 sched_one = Some (s, tr) ∧
    ∀ t1 j fld t2, tr = t1 ++ EvLoad Main j fld :: t2 →
                   fld ≠ Finfo ∧ ∃ w, EvClose w j ∈ t1.
Proof.
  open_run (demo_run cmd_one (0, true) 1 sched_one) s tr Hrun Hpc.
  exists s, tr. split; [reflexivity|].
  exact (proj1 (proj2 (results_published_before_signal _ _ _ _ _ _ _ _ Hrun))).
Defined.

(** C1 as stated fails: with one worker, one architecture and one file,
    the worker closes the [done] of the architecture (event 4), [main]
    returns from its wait (event 5) and reads [err] (event 7), and only
    then does the worker attach the [info] of the file (event 8). *)
Lemma info_stored_after_signal :
  ∃ s tr, demo_run cmd_one (0, true) 1 sched_one = Some (s, tr) ∧
    tr !! 4 = Some (EvClose 0 (JArch 0)) ∧
    tr !! 5 = Some (EvWait (JArch 0)) ∧
    tr !! 7 = Some (EvLoad Main (JArch 0) Ferr) ∧
    tr !! 8 = Some (EvStore 0 (JFile 0 0) Finfo).
Proof.
  open_run (demo_run cmd_one (0, true) 1 sched_one) s tr Hrun Hpc.
  exists s, tr. split; [reflexivity|]. split_and!; by_run Hrun.
Qed.

Lemma file_jobs_follow_parent_witness :
  ∃ s tr, demo_run cmd_broken (0, true) 2 sched_broken = Some (s, tr) ∧
    (arch_result demo_ext (demo_arches cmd_broken (0, true)) 0).2 = Some "boom" ∧
    ∀ i e, e ∈ tr → ¬ file_event 0 i e.
Proof.
  open_run (demo_run cmd_broken (0, true) 2 sched_broken) s tr Hrun Hpc.
  exists s, tr. split; [reflexivity|]. split; [reflexivity|].
  exact (proj2 (file_jobs_follow_parent _ _ _ _ _ _ _ _ Hrun) 0 "boom" eq_refl).
Defined.

Lemma check_needs_clean_run_witness :
  ∃ s tr, demo_run cmd_broken (0, true) 2 sched_broken = Some (s, tr) ∧
    main_pc s = MExited 1 ∧ flagArch cmd_broken = "" ∧
    job_error demo_ext (demo_arches cmd_broken (0, true)) ∧ EvCheck ∉ tr.
Proof.
  open_run (demo_run cmd_broken (0, true) 2 sched_broken) s tr Hrun Hpc.
  exists s, tr. split; [reflexivity|]. split; [exact Hpc|]. split; [reflexivity|].
  assert (job_error demo_ext (demo_arches cmd_broken (0, true))) as Hj.
  { apply (seq_collect_failed cmd_broken). reflexivity. }
  split; [exact Hj|].
  exact (proj1 (proj2 (check_needs_clean_run _ _ _ _ _ _ _ _ _ Hrun Hpc) Hj)).
Defined.



Lemma unsupported_report_witness :
  ∃ s tr, demo_run cmd_g (0, true) 2 sched_g2 = Some (s, tr) ∧
    main_pc s = MExited 1 ∧ EvCheck ∈ tr ∧
    prints (after_check (main_events tr))
      = ["g.txt: Z is unsupported on all arches (typo?)" +:+ nl].
Proof.
  open_run (demo_run cmd_g (0, true) 2 sched_g2) s tr Hrun Hpc.
  exists s, tr. split; [reflexivity|]. split; [exact Hpc|].
  assert (fatals tr = []) as Hf by by_run Hrun.
  assert (¬ job_error demo_ext (demo_arches cmd_g (0, true))) as Hj.
  { intros Hj%(seq_collect_failed cmd_g). vm_compute in Hj. discriminate Hj. }
  destruct (proj1 (unsupported_report _ _ _ _ _ _ _ _ _ Hrun Hpc)
              eq_refl Hj (fatals_nil _ Hf)) as (Hck & _).
  split; [exact Hck|]. by_run Hrun.
Defined.

(** C3 as stated fails: no architecture is asked for, and the file g.txt
    of amd64 leaves [Z] undeclared, which no file of any architecture
    resolves; but 386 has failed, so the check is not called and [Z] is
    not reported. *)
Lemma failed_run_reports_nothing :
  flagArch cmd_broken = "" ∧
  ∃ s tr, demo_run cmd_broken (0, true) 2 sched_broken = Some (s, tr) ∧
    main_pc s = MExited 1 ∧
    (file_result demo_ext (demo_arches cmd_broken (0, true)) 1 0).1.2 !! "Z"
      = Some true ∧
    (∀ a i, (file_result demo_ext (demo_arches cmd_broken (0, true)) a i).1.1 !! "Z"
            = None) ∧
    prints tr = ["generating windows/386..." +:+ nl; "boom" +:+ nl;
                 "generating windows/amd64..." +:+ nl].
Proof.
  split; [reflexivity|].
  open_run (demo_run cmd_broken (0, true) 2 sched_broken) s tr Hrun Hpc.
  exists s, tr. split; [reflexivity|]. split; [exact Hpc|]. split; [reflexivity|].
  split; [|by_run Hrun].
  intros [|[|a]] [|i]; reflexivity.
Qed.

Lemma tables_saved_witness :
  ∃ s tr, demo_run cmd_two (0, true) 2 sched_two = Some (s, tr) ∧
    main_pc s = MExited 0 ∧
    table_events tr =
      [EvSerialize "f.txt"; EvWriteFile "sys/windows/f.txt.const" [Byte.x2a; Byte.x2a];
       EvSerialize "h.txt"; EvRemove "sys/windows/h.txt.const"].
Proof.
  open_run (demo_run cmd_two (0, true) 2 sched_two) s tr Hrun Hpc.
  exists s, tr. split; [reflexivity|]. split; [exact Hpc|].
  assert (fatals tr = []) as Hf by by_run Hrun.
  destruct (tables_saved _ _ _ _ _ _ _ _ _ Hrun Hpc) as (Htabs & _ & Hev & _).
  rewrite (Hev (fatals_nil _ Hf)), Htabs. reflexivity.
Defined.

(** C6 as stated fails: on a disk that refuses writes, the tables of f.txt
    and h.txt have been accumulated; the write of the first ends the run,
    and the table of h.txt is never serialized (nor its file removed). *)
Lemma write_failure_skips_tables :
  ∃ s tr, demo_run cmd_two (0, false) 2 sched_two = Some (s, tr) ∧
    main_pc s = MExited 1 ∧
    range_keys (constFiles s) = ["f.txt"; "h.txt"] ∧
    table_events tr =
      [EvSerialize "f.txt"; EvWriteFile "sys/windows/f.txt.const" [Byte.x2a; Byte.x2a]] ∧
    fatals tr = ["failed to write output file: read-only file system"].
Proof.
  open_run (demo_run cmd_two (0, false) 2 sched_two) s tr Hrun Hpc.
  exists s, tr. split; [reflexivity|]. split; [exact Hpc|]. split.
  - change (range_keys (constFiles s)) with (final_tables (Some (s, tr))).
    rewrite <- Hrun. reflexivity.
  - split; by_run Hrun.
Qed.



Lemma build_dirs_removed_witness :
  ∃ evs, main_exits demo_extractors cmd_build 2 (0, true) evs 1 ∧
    created_dirs evs = ["/tmp/syzkaller-kernel-build0"; "/tmp/syzkaller-kernel-build1"] ∧
    removed_dirs evs = ["/tmp/syzkaller-kernel-build0"; "/tmp/syzkaller-kernel-build1"].
Proof.
  open_run (demo_run cmd_build (0, true) 2 sched_broken) s tr Hrun Hpc.
  assert (fatals tr = []) as Hf by by_run Hrun.
  pose (evs0 := [EvTempDir "/tmp/syzkaller-kernel-build0";
                 EvTempDir "/tmp/syzkaller-kernel-build1"]).
  assert (main_exits demo_extractors cmd_build 2 (0, true) (evs0 ++ tr) 1) as Hex.
  { exact (exits_after_run demo_extractors cmd_build 2 (0, true) (2, true) evs0 demo_ext
             (demo_arches cmd_build (0, true)) sched_broken s tr 1 eq_refl Hrun Hpc). }
  exists (evs0 ++ tr). split; [exact Hex|].
  assert (∀ msg, EvFatal msg ∉ evs0 ++ tr) as Hnf.
  { intros msg [Hin|Hin]%elem_of_app; [|exact (fatals_nil _ Hf msg Hin)].
    subst evs0. apply elem_of_cons in Hin as [Hin|Hin]; [discriminate Hin|].
    apply elem_of_cons in Hin as [Hin|Hin]; [discriminate Hin|].
    exact (proj1 (elem_of_nil _) Hin). }
  destruct (build_dirs_removed _ _ _ _ _ _ Hex eq_refl) as (_ & Hall & Hclean).
  destruct (Hall (2, true) evs0 demo_ext (demo_arches cmd_build (0, true)) eq_refl)
    as [Hc _].
  destruct (Hclean Hnf) as (w' & evs' & ext & arches & Hs & Hr); [discriminate|].
  assert (main_setup demo_extractors cmd_build (0, true)
            = ((2, true), evs0, inr (demo_ext, demo_arches cmd_build (0, true)))) as Hs'
      by reflexivity.
  rewrite Hs' in Hs.
  apply (f_equal (λ r, match r.2 with inr (_, a) => a | inl _ => [] end)) in Hs.
  change (demo_arches cmd_build (0, true) = arches) in Hs. subst arches.
  rewrite Hc, Hr. split; reflexivity.
Defined.

(** C8 as stated fails on the exits through [tool.Fail]: in build mode the
    temporary directories are created, and when a write to the disk fails,
    or when [-sourcedir] is missing, the program ends and removes none. *)
Lemma fatal_exit_keeps_build_dirs :
  (∃ evs, main_exits demo_extractors cmd_build 2 (0, false) evs 1 ∧
     created_dirs evs = ["/tmp/syzkaller-kernel-build0"; "/tmp/syzkaller-kernel-build1"] ∧
     removed_dirs evs = []) ∧
  (∃ evs, main_exits demo_extractors cmd_nosrc 2 (0, true) evs 1 ∧
     created_dirs evs = ["/tmp/syzkaller-kernel-build0"; "/tmp/syzkaller-kernel-build1"] ∧
     removed_dirs evs = []).
Proof.
  pose (evs0 := [EvTempDir "/tmp/syzkaller-kernel-build0";
                 EvTempDir "/tmp/syzkaller-kernel-build1"]).
  split.
  - open_run (demo_run cmd_build (0, false) 2 sched_broken) s tr Hrun Hpc.
    exists (evs0 ++ tr). split.
    + exact (exits_after_run demo_extractors cmd_build 2 (0, false) (2, false) evs0
               demo_ext (demo_arches cmd_build (0, false)) sched_broken s tr 1
               eq_refl Hrun Hpc).
    + unfold created_dirs, removed_dirs. rewrite !omap_app.
      fold (created_dirs tr) (removed_dirs tr).
      assert (created_dirs tr = []) as -> by by_run Hrun.
      assert (removed_dirs tr = []) as -> by by_run Hrun.
      split; reflexivity.
  - eexists. split.
    + exact (exits_in_setup demo_extractors cmd_nosrc 2 (0, true) (2, true) evs0 _
               eq_refl).
    + split; reflexivity.
Qed.

Lemma createArches_file_lists_witness :
  ∃ arch,
    createArches cmd_filters (0, true) "windows" ["386"] ["skip.txt"; "h.txt"]
      = ((0, true), [], inl [arch]) ∧
    files arch = sort_Strings ["skip.txt"; "h.txt"] ∧
    files arch = ["h.txt"; "skip.txt"].
Proof.
  eexists. split; [reflexivity|].
  match goal with |- files ?a = _ ∧ _ => set (arch := a) end.
  destruct (createArches_file_lists (E:=demo_env) cmd_filters (0, true) "windows"
              ["386"] ["skip.txt"; "h.txt"] (0, true) [] [arch] eq_refl)
    as (allFiles & _ & _ & Hk).
  destruct (Hk 0 "386" arch eq_refl eq_refl) as [He _].
  destruct He as [He _]; [discriminate|].
  split; [exact He | reflexivity].
Defined.

End Examples.

(** ** The further properties on the concrete environment *)

Section FurtherExamples.
Import Demo.

Ltac open_run r s tr Hrun Hpc :=
  destruct r as [[s tr]|] eqn:Hrun;
  [ pose proof (f_equal final_pc Hrun) as Hpc; vm_compute in Hpc;
    injection Hpc as Hpc; symmetry in Hpc
  | apply (f_equal final_pc) in Hrun; vm_compute in Hrun; discriminate Hrun ].

Ltac by_run Hrun :=
  lazymatch type of Hrun with
  | _ = Some (?s, ?tr) =>
      change tr with (trace (Some (s, tr))); rewrite <- Hrun; reflexivity
  end.

Ltac open_run_rev r s tr Hrun Hpc :=
  destruct r as [[s tr]|] eqn:Hrun;
  [ pose proof (f_equal final_pc_rev Hrun) as Hpc; vm_compute in Hpc;
    injection Hpc as Hpc; symmetry in Hpc
  | apply (f_equal final_pc_rev) in Hrun; vm_compute in Hrun; discriminate Hrun ].

Lemma archList_requested_witness :
  String.concat "," (archList "windows" "amd64,,386") = "amd64,,386" ∧
  archList "windows" "amd64,,386" = ["amd64"; ""; "386"].
Proof.
  split; [|reflexivity].
  apply (archList_requested (E:=demo_env) "windows" "amd64,,386"). discriminate.
Defined.

Lemma createArches_directories_witness :
  ∃ w' evs arches,
    createArches cmd_build (0, true) "windows" ["386"; "amd64"] ["f.txt"]
      = (w', evs, inl arches) ∧
    evs = EvTempDir <$> (buildDir <$> arches) ∧
    buildDir <$> arches = ["/tmp/syzkaller-kernel-build0"; "/tmp/syzkaller-kernel-build1"].
Proof.
  eexists _, _, _. split; [reflexivity|]. split; [|reflexivity].
  eapply (createArches_directories (E:=demo_env) cmd_build (0, true) "windows"
            ["386"; "amd64"] ["f.txt"]); reflexivity.
Defined.

Lemma createArches_unknown_arch_witness :
  ∃ w' evs,
    createArches (demo_cmd true "" "amd64,nope" []) (0, true) "windows"
      ["amd64"; "nope"] [] = (w', evs, inr "unknown arch: nope") ∧
    length (created_dirs evs) = 2.
Proof.
  apply (createArches_unknown_arch (E:=demo_env) (demo_cmd true "" "amd64,nope" [])
           (0, true) "windows" ["amd64"] "nope" [] [] demo_meta).
  - reflexivity.
  - intros w. eexists _, _. reflexivity.
  - repeat constructor. eexists. reflexivity.
  - reflexivity.
Defined.

Lemma no_double_close_witness :
  ∃ s tr, demo_run cmd_one (0, true) 1 sched_one = Some (s, tr) ∧
    ∀ t1 w j t2, tr = t1 ++ EvClose w j :: t2 →
                 (∀ w', EvClose w' j ∉ t1) ∧ (∀ w', EvClose w' j ∉ t2).
Proof.
  open_run (demo_run cmd_one (0, true) 1 sched_one) s tr Hrun Hpc.
  exists s, tr. split; [reflexivity|].
  exact (proj2 (no_double_close _ _ _ _ _ _ _ _ Hrun)).
Defined.

Lemma exit_code_cases_witness :
  ∃ evs, main_exits demo_extractors cmd_g 2 (0, true) evs 1 ∧
    (job_error demo_ext (demo_arches cmd_g (0, true)) ∨
     (∃ msg, EvFatal msg ∈ evs) ∨
     (flagArch cmd_g = "" ∧
      checkUnsupportedCalls_names (ref_views demo_ext (demo_arches cmd_g (0, true)))
        ≠ [])).
Proof.
  open_run (demo_run cmd_g (0, true) 2 sched_g2) s tr Hrun Hpc.
  assert (main_exits demo_extractors cmd_g 2 (0, true) tr 1) as Hex.
  { exact (exits_after_run demo_extractors cmd_g 2 (0, true) (0, true) [] demo_ext
             (demo_arches cmd_g (0, true)) sched_g2 s tr 1 eq_refl Hrun Hpc). }
  exists tr. split; [exact Hex|].
  apply (proj2 (proj2 (proj2 (exit_code_cases _ _ _ _ _ _ Hex)))
           (0, true) [] demo_ext (demo_arches cmd_g (0, true)) eq_refl);
    [discriminate | reflexivity].
Defined.

Lemma tables_of_processed_files_witness :
  ∃ s tr, demo_run cmd_two (0, true) 2 sched_two = Some (s, tr) ∧
    main_pc s = MExited 0 ∧ is_Some (constFiles s !! "h.txt").
Proof.
  open_run (demo_run cmd_two (0, true) 2 sched_two) s tr Hrun Hpc.
  exists s, tr. split; [reflexivity|]. split; [exact Hpc|].
  apply (tables_of_processed_files _ _ _ _ _ _ _ _ _ Hrun Hpc).
  eexists 0, _, 1. split_and!; reflexivity.
Defined.

Lemma single_worker_deadlock_witness :
  ∃ arch sch s tr,
    demo_arches cmd_two (0, true) = [arch] ∧
    run cmd_two demo_ext [arch] sch (init_state [arch] 1 (0, true)) = Some (s, tr) ∧
    main_pc s = MFile 0 0 ∧ ∀ t, step cmd_two demo_ext [arch] t s = None.
Proof.
  eexists. 
  edestruct (single_worker_deadlock (E:=demo_env) cmd_two demo_ext) with (w0 := (0, true))
    as (sch & s & tr & Hrun & _ & Hpc & _ & Hstuck);
    [| |exists sch, s, tr; split; [reflexivity|]; split; [exact Hrun|];
        split; [exact Hpc|exact Hstuck]].
  - reflexivity.
  - simpl. lia.
Defined.

Lemma prepareArch_before_processFile_witness :
  ∃ s tr, demo_run cmd_one (0, true) 1 sched_one = Some (s, tr) ∧
    ∀ t1 w arch info t2,
      tr = t1 ++ EvCall w (CallProcessFile arch info) :: t2 →
      prepareArch demo_ext arch = None ∧ ∃ w', EvCall w' (CallPrepareArch arch) ∈ t1.
Proof.
  open_run (demo_run cmd_one (0, true) 1 sched_one) s tr Hrun Hpc.
  exists s, tr. split; [reflexivity|].
  exact (prepareArch_before_processFile _ _ _ _ _ _ _ _ Hrun).
Defined.

Lemma no_build_no_directory_change_witness :
  ∃ evs, main_exits demo_extractors cmd_broken 2 (0, true) evs 1 ∧
    created_dirs evs = [] ∧ removed_dirs evs = [].
Proof.
  open_run (demo_run cmd_broken (0, true) 2 sched_broken) s tr Hrun Hpc.
  assert (main_exits demo_extractors cmd_broken 2 (0, true) tr 1) as Hex.
  { exact (exits_after_run demo_extractors cmd_broken 2 (0, true) (0, true) [] demo_ext
             (demo_arches cmd_broken (0, true)) sched_broken s tr 1 eq_refl Hrun Hpc). }
  exists tr. split; [exact Hex|].
  exact (no_build_no_directory_change _ _ _ _ _ _ Hex eq_refl).
Defined.

Lemma final_state_agrees_witness :
  ∃ s1 tr1 s2 tr2,
    demo_run cmd_fk (0, true) 2 sched_two = Some (s1, tr1) ∧
    demo_run_rev cmd_fk (0, true) 3 sched_fk3 = Some (s2, tr2) ∧
    constFiles s1 = constFiles s2 ∧ waits tr1 = waits tr2.
Proof.
  open_run (demo_run cmd_fk (0, true) 2 sched_two) s1 tr1 Hrun1 Hpc1.
  open_run_rev (demo_run_rev cmd_fk (0, true) 3 sched_fk3) s2 tr2 Hrun2 Hpc2.
  exists s1, tr1, s2, tr2. split; [reflexivity|]. split; [reflexivity|].
  destruct (final_state_agrees rev_order (λ A m, reverse_Permutation (map_to_list m))
              cmd_fk demo_ext (demo_arches cmd_fk (0, true)) 2 3 (0, true)
              sched_two sched_fk3 s1 s2 tr1 tr2 0 0 Hrun1 Hpc1 Hrun2 Hpc2)
    as (Ht & Hw & _).
  split; [exact Ht | exact Hw].
Defined.

End FurtherExamples.
